(** * Batch converters: make-mp3.py, vid2mkv.py, tifftopdf.py

    A shallow embedding of the three scripts that run one external
    converter per input file, and the properties of their dispatch
    logic.  Python strings are modelled as [string] (code points below
    256), Python's [int] as [Z], lists as [list]; a subprocess is
    modelled by what the script can observe of it. *)

From Stdlib Require Import ZArith Lia Ascii String.
From Stdlib Require PrimFloat FloatOps SpecFloat Uint63.
From stdpp Require Import base tactics option list strings pretty.

Local Open Scope string_scope.
Local Open Scope nat_scope.

(** ** The parts of the Python library the scripts rely on *)

Module Py.

(** Exceptions the scripts can meet. *)
Inductive exn :=
| IndexError
| ValueError
| OSError
| CalledProcessError
| UnicodeDecodeError.

(** How a piece of Python code ends: it returns a value, raises,
    calls [sys.exit], or (in the model only) is still running when
    the step budget [fuel] is used up. *)
Inductive result (A : Type) :=
| Ret (a : A)
| Raise (e : exn)
| Exit (code : Z)
| Timeout.
Arguments Ret {A} a.
Arguments Raise {A} e.
Arguments Exit {A} code.
Arguments Timeout {A}.

(** Sequencing: [x ← r; k] goes on with [k] when [r] returned. *)
Definition result_bind {A B} (k : A -> result B) (r : result A) : result B :=
  match r with
  | Ret a => k a
  | Raise e => Raise e
  | Exit c => Exit c
  | Timeout => Timeout
  end.

#[export] Instance result_ret : MRet result := @Ret.
#[export] Instance result_mbind : MBind result := @result_bind.

(** The exit status of the interpreter when the main program ends
    this way: 0 after a normal return, the argument of [sys.exit], 1
    after an uncaught exception. *)
Definition exit_status {A} (r : result A) : option Z :=
  match r with
  | Ret _ => Some 0%Z
  | Exit c => Some c
  | Raise _ => Some 1%Z
  | Timeout => None
  end.

(** [try: r except ValueError: dflt] *)
Definition except_ValueError {A} (r : result A) (dflt : A) : result A :=
  match r with
  | Raise ValueError => Ret dflt
  | other => other
  end.

(** [str.isspace] on one character. *)
Definition isspace (c : ascii) : bool :=
  let n := nat_of_ascii c in
  ((9 <=? n) && (n <=? 13)) || ((28 <=? n) && (n <=? 32))
  || (n =? 133) || (n =? 160).

Fixpoint lstrip (s : string) : string :=
  match s with
  | String c r => if isspace c then lstrip r else s
  | EmptyString => EmptyString
  end.

(** [rstrip] drops the trailing blanks: a character is kept when it is
    not blank or something is kept after it. *)
Fixpoint rstrip (s : string) : string :=
  match s with
  | String c r =>
      match rstrip r with
      | EmptyString => if isspace c then EmptyString else String c EmptyString
      | r' => String c r'
      end
  | EmptyString => EmptyString
  end.

(** [s.strip()] *)
Definition strip (s : string) : string := rstrip (lstrip s).

(** [s.split()]: the maximal runs of non-blank characters.  [cur] is
    the word being read, in reverse. *)
Fixpoint split_go (cur : list ascii) (s : string) : list string :=
  match s with
  | EmptyString =>
      match cur with
      | [] => []
      | _ => [string_of_list_ascii (rev cur)]
      end
  | String c r =>
      if isspace c
      then match cur with
           | [] => split_go [] r
           | _ => string_of_list_ascii (rev cur) :: split_go [] r
           end
      else split_go (c :: cur) r
  end.

Definition split (s : string) : list string := split_go [] s.

(** [sep.join(words)] *)
Fixpoint join (sep : string) (words : list string) : string :=
  match words with
  | [] => EmptyString
  | [w] => w
  | w :: ws => w +:+ sep +:+ join sep ws
  end.

Definition digit_of (c : ascii) : option Z :=
  let n := nat_of_ascii c in
  if (48 <=? n) && (n <=? 57) then Some (Z.of_nat n - 48)%Z else None.

(** The digits of an integer literal as [int()] reads them: decimal
    digits, with single underscores allowed between two digits. *)
Fixpoint int_digits (acc : Z) (after_digit : bool) (s : string) : option Z :=
  match s with
  | EmptyString => if after_digit then Some acc else None
  | String c r =>
      if Ascii.eqb c "_"
      then (if after_digit then int_digits acc false r else None)
      else match digit_of c with
           | Some d => int_digits (10 * acc + d)%Z true r
           | None => None
           end
  end.

(** [int(s)]; [None] stands for [ValueError]. *)
Definition int (s : string) : option Z :=
  match strip s with
  | String "-" r => Z.opp <$> int_digits 0 false r
  | String "+" r => int_digits 0 false r
  | r => int_digits 0 false r
  end.

(** [str(n)] for an integer. *)
Definition str (n : Z) : string := pretty n.

(** ['{:02d}'.format(n)]: at least two characters, zero filled after
    the sign. *)
Definition format_02d (n : Z) : string :=
  if (0 <=? n)%Z && (n <? 10)%Z then "0" +:+ str n else str n.

(** [c.lower()] for a code point below 256. *)
Definition lower_char (c : ascii) : ascii :=
  let n := nat_of_ascii c in
  if ((65 <=? n) && (n <=? 90))
     || ((192 <=? n) && (n <=? 222) && negb (n =? 215))
  then ascii_of_nat (n + 32) else c.

Fixpoint lower (s : string) : string :=
  match s with
  | EmptyString => EmptyString
  | String c r => String (lower_char c) (lower r)
  end.

(** [s.rfind(c)] for a one-character needle: the last index of [c], or -1. *)
Fixpoint rfind_from (i : Z) (c : ascii) (s : string) : Z :=
  match s with
  | EmptyString => (-1)%Z
  | String d r =>
      let j := rfind_from (i + 1) c r in
      if (0 <=? j)%Z then j else if Ascii.eqb d c then i else (-1)%Z
  end.

Definition rfind (c : ascii) (s : string) : Z := rfind_from 0 c s.

(** [s[i:j]] for [0 <= i]. *)
Definition slice (s : string) (i j : Z) : string :=
  substring (Z.to_nat i) (Z.to_nat (j - i)) s.

Definition len (s : string) : Z := Z.of_nat (String.length s).

(** The loop of [genericpath._splitext] that skips the leading dots of
    the file name: it answers whether some character in
    [p[filenameIndex:dotIndex]] is not a dot. *)
Fixpoint has_non_dot (fuel : nat) (p : string) (filenameIndex dotIndex : Z) : bool :=
  match fuel with
  | O => false
  | S fuel' =>
      if (filenameIndex <? dotIndex)%Z
      then if negb (String.eqb (slice p filenameIndex (filenameIndex + 1)) ".")
           then true
           else has_non_dot fuel' p (filenameIndex + 1) dotIndex
      else false
  end.

(** [os.path.splitext(p)] (posixpath). *)
Definition splitext (p : string) : string * string :=
  let sepIndex := rfind "/" p in
  let dotIndex := rfind "." p in
  if (sepIndex <? dotIndex)%Z
     && has_non_dot (String.length p) p (sepIndex + 1) dotIndex
  then (slice p 0 dotIndex, slice p dotIndex (len p))
  else (p, EmptyString).

(** [os.path.basename(p)] (posixpath): [p[p.rfind('/') + 1:]]. *)
Definition basename (p : string) : string :=
  let i := (rfind "/" p + 1)%Z in
  slice p i (len p).

(** A text between double quotes. *)
Definition quoted (s : string) : string :=
  String (ascii_of_nat 34) (s +:+ String (ascii_of_nat 34) EmptyString).

(** What [subprocess.call(args)] can do: give the exit status of the
    program, or raise [OSError] because it could not be started. *)
Inductive call_outcome :=
| Status (rc : Z)
| NotStarted.

End Py.

(** ** make-mp3.py *)

Module MakeMp3.
Import Py.

(** The tuple [(num, title, artist, album, ifname, ofname)] that
    describes one track. *)
Record tinfo := Tinfo {
  num : Z;
  title : string;
  artist : string;
  album : string;
  ifname : string;
  ofname : string
}.

(** What a started [lame] process will do, as far as [poll()] can
    tell: [Exits n rc] answers [None] to the next [n] polls and the
    exit status [rc] from then on; [Hangs] never exits.  How many
    polls a process takes depends on how long it runs and on when the
    script looks; any number is allowed for. *)
Inductive behaviour :=
| Exits (polls : nat) (rc : Z)
| Hangs.

(** A [subprocess.Popen] object.  [pid] stands for the identity of the
    object: two [Popen] objects are equal only when they are the same
    object. *)
Record Popen := { pid : nat; state : behaviour }.

(** Everything outside the script that it reads. *)
Record world := {
  probe : list string -> call_outcome;  (* the tool run by [checkfor] *)
  titels : option (list string);        (* [readlines()] of the file 'titels', [None]: [IOError] *)
  access : string -> bool;              (* [os.access(name, os.R_OK)] *)
  cpu_count : nat;                      (* [multiprocessing.cpu_count()] *)
  lame : nat -> behaviour;              (* the [n]-th process started, counting from 0 *)
  starts : nat -> bool                  (* whether [subprocess.Popen] can start it; [false]: [OSError] *)
}.

(** What the script does that can be seen from outside, in order. *)
Inductive event :=
| Probe (args : list string)              (* [checkfor] runs the tool *)
| Spawn (p : nat) (args : list string)    (* [subprocess.Popen(args)] gave object [p] *)
| Say (line : string)                     (* [print(line)] *)
| Err (line : string)                     (* [print(line, file=sys.stderr)] *)
| Finished (p : nat) (fn : string)        (* 'Finished processing fn', for object [p] *)
| Failed (p : nat) (fn : string) (rc : Z) (* 'The conversion of fn exited with error code rc.' *)
| Sleep.                                  (* [sleep(0.5)] *)

(** The text an event puts on standard output. *)
Definition stdout_line (e : event) : option string :=
  match e with
  | Say line => Some line
  | Finished _ fn => Some ("Finished processing " +:+ fn)
  | Failed _ fn rc =>
      Some ("The conversion of " +:+ fn +:+ " exited with error code "
            +:+ str rc +:+ ".")
  | _ => None
  end.

(** The state threaded through the script: the events so far and the
    number of [Popen] objects created. *)
Record st := St { out : list event; started : nat }.

Definition M (A : Type) : Type := st -> result A * st.

Definition ret {A} (a : A) : M A := fun s => (Ret a, s).

Definition bind {A B} (k : A -> M B) (m : M A) : M B :=
  fun s =>
    match m s with
    | (Ret a, s') => k a s'
    | (Raise e, s') => (Raise e, s')
    | (Exit c, s') => (Exit c, s')
    | (Timeout, s') => (Timeout, s')
    end.

(** The notations [x ← m; k] and [m;; k] run [m] and go on with [k]
    unless [m] raised, exited or timed out. *)
#[export] Instance M_ret : MRet M := @ret.
#[export] Instance M_bind : MBind M := @bind.

Definition lift {A} (r : result A) : M A := fun s => (r, s).
Definition raise {A} (e : exn) : M A := lift (Raise e).
Definition sys_exit {A} (c : Z) : M A := lift (Exit c).
Definition timeout {A} : M A := lift Timeout.

Definition emit (e : event) : M unit :=
  fun s => (Ret tt, St (out s ++ [e]) (started s)).

(** [subprocess.Popen(args)]: a new object, whose future is the
    world's, or the [OSError] raised when the process cannot be
    started, which nothing in the script catches. *)
Definition popen (w : world) (args : list string) : M Popen :=
  fun s =>
    if starts w (started s)
    then
      let p := {| pid := started s; state := lame w (started s) |} in
      (Ret p, St (out s ++ [Spawn (started s) args]) (S (started s)))
    else (Raise OSError, s).

(** [lines.pop(0)] *)
Definition pop0 {A} (l : list A) : result (A * list A) :=
  match l with
  | [] => Raise IndexError
  | x :: r => Ret (x, r)
  end.

(** The loop [for l in lines] of [trackdata]. *)
Fixpoint track_lines (w : world) (album artist : string)
    (lines : list string) (tracks : list tinfo) : result (list tinfo) :=
  match lines with
  | [] => Ret tracks
  | l :: lines' =>
      match split l with
      | [] => track_lines w album artist lines' tracks
      | word :: words =>
          match int word with
          | None => Raise ValueError
          | Some num =>
              let ifname := "track" +:+ format_02d num +:+ ".cdda.wav" in
              if access w ifname
              then
                let ofname := "track" +:+ format_02d num +:+ ".mp3" in
                let title := join " " words in
                track_lines w album artist lines'
                  (tracks ++ [Tinfo num title artist album ifname ofname])
              else track_lines w album artist lines' tracks
          end
      end
  end.

Definition trackdata (w : world) : result (list tinfo) :=
  let tracks := [] in
  match titels w with
  | None => Ret tracks
  | Some lines =>
      '(l, lines) ← pop0 lines;
      let album := strip l in
      '(l, lines) ← pop0 lines;
      let artist := strip l in
      track_lines w album artist lines tracks
  end.

(** An entry of the list [procs]: the tuple [(ofname, p)]. *)
Abbreviation proc := (string * Popen)%type.

Definition startmp3 (w : world) (t : tinfo) : M proc :=
  let args := ["lame"; "-S"; "--preset"; "standard"; "--tt"; title t; "--ta";
               artist t; "--tl"; album t; "--tn"; format_02d (num t);
               ifname t; ofname t] in
  p ← popen w args;
  emit (Say ("Start processing " +:+ quoted (title t) +:+ " as " +:+ ofname t));;
  ret (ofname t, p).

(** [p.poll()]: the exit status if the process has ended, and the
    object afterwards. *)
Definition poll (p : Popen) : option Z * Popen :=
  match state p with
  | Exits O rc => (Some rc, p)
  | Exits (S n) rc => (None, {| pid := pid p; state := Exits n rc |})
  | Hangs => (None, p)
  end.

(** Equality of two tuples [(fn, p)]: equal names and the same
    [Popen] object. *)
Definition proc_eqb (a b : proc) : bool :=
  String.eqb (fst a) (fst b) && Nat.eqb (pid (snd a)) (pid (snd b)).

(** [proclist.remove(it)]: drops the first entry equal to [it];
    [None] stands for the [ValueError] raised when there is none. *)
Fixpoint remove (it : proc) (proclist : list proc) : option (list proc) :=
  match proclist with
  | [] => None
  | x :: r => if proc_eqb x it then Some r else cons x <$> remove it r
  end.

(** The line printed for a process that ended with [result]. *)
Definition report (p : nat) (fn : string) (result : Z) : event :=
  if (result =? 0)%Z then Finished p fn else Failed p fn result.

(** The loop [for it in proclist] of [manageprocs].  Python's list
    iterator keeps an index [i] into the list, which the body
    shortens: each round reads [proclist[i]] if there is one and moves
    to [i + 1], so that the entry after a removed one is not looked at
    in this pass.  [poll()] changes the object held in the list.  The
    list is the one [main] holds, so the loop hands back its final
    contents.  Every round of a loop takes one unit of [fuel]. *)
Fixpoint for_it (fuel : nat) (i : nat) (proclist : list proc) : M (list proc) :=
  match fuel with
  | O => timeout
  | S fuel' =>
      match proclist !! i with
      | None => ret proclist
      | Some (fn, pr) =>
          let '(result, pr) := poll pr in
          let proclist := <[i := (fn, pr)]> proclist in
          match result with
          | Some result =>
              match remove (fn, pr) proclist with
              | None => raise ValueError
              | Some proclist =>
                  emit (report (pid pr) fn result);;
                  for_it fuel' (S i) proclist
              end
          | None => for_it fuel' (S i) proclist
          end
      end
  end.

Definition manageprocs (fuel : nat) (proclist : list proc) : M (list proc) :=
  proclist ← for_it fuel 0 proclist;
  emit Sleep;;
  ret proclist.

(** [while len(procs) == maxprocs: manageprocs(procs)] *)
Fixpoint wait_for_slot (fuel : nat) (maxprocs : nat) (procs : list proc)
    : M (list proc) :=
  match fuel with
  | O => timeout
  | S fuel' =>
      if length procs =? maxprocs
      then procs ← manageprocs fuel' procs;
           wait_for_slot fuel' maxprocs procs
      else ret procs
  end.

(** [for track in tracks: ...] *)
Fixpoint for_track (fuel : nat) (w : world) (maxprocs : nat)
    (tracks : list tinfo) (procs : list proc) : M (list proc) :=
  match tracks with
  | [] => ret procs
  | track :: tracks' =>
      procs ← wait_for_slot fuel maxprocs procs;
      p ← startmp3 w track;
      for_track fuel w maxprocs tracks' (procs ++ [p])
  end.

(** [while len(procs) > 0: manageprocs(procs)] *)
Fixpoint drain (fuel : nat) (procs : list proc) : M (list proc) :=
  match fuel with
  | O => timeout
  | S fuel' =>
      if 0 <? length procs
      then procs ← manageprocs fuel' procs;
           drain fuel' procs
      else ret procs
  end.

(** Modelled from the spec: the module [checkfor] that make-mp3.py
    imports is not among the sources.  The spec has the tool-presence
    checker verify that the command can be invoked and, on failure,
    exit the whole program with code 1 before any work item is
    processed; the expected exit status defaults to 0, as in the
    copies of [checkfor] in vid2mkv.py and tifftopdf.py. *)
Definition checkfor (w : world) (args : list string) : M unit :=
  emit (Probe args);;
  match probe w args with
  | Status rc => if (rc =? 0)%Z then ret tt else sys_exit 1
  | NotStarted => sys_exit 1
  end.

(** ['$Revision$'[11:-2]]: the slice starts past the end. *)
Definition version : string := slice "$Revision$" 11 (len "$Revision$" - 2).

(** [main(argv)].  The list [procs] it ends with is returned to make
    the final state visible. *)
Definition main (fuel : nat) (w : world) (argv : list string) : M (list proc) :=
  checkfor w ["lame"; "--help"];;
  let procs := [] in
  tracks ← lift (trackdata w);
  match tracks with
  | [] =>
      emit (Say "No tracks found.");;
      argv0 ← lift (match argv !! 0 with
                     | Some a => Ret a
                     | None => Raise IndexError
                     end);
      let binary := basename argv0 in
      emit (Err (binary +:+ " version " +:+ version));;
      emit (Err ("Usage: " +:+ binary));;
      emit (Err "In a directory where a file 'titels' and WAV files are present");;
      sys_exit 1
  | _ =>
      let maxprocs := cpu_count w in
      procs ← for_track fuel w maxprocs tracks procs;
      drain fuel procs
  end.

(** Running [main] from the start. *)
Definition run (fuel : nat) (w : world) (argv : list string)
    : result (list proc) * st :=
  main fuel w argv (St [] 0).

(** *** Reading a run *)

(** The number of processes started and not yet seen to have ended,
    after the events [t]. *)
Fixpoint launched (t : list event) : Z :=
  match t with
  | [] => 0
  | e :: t' =>
      (match e with
       | Spawn _ _ => 1
       | Finished _ _ | Failed _ _ _ => -1
       | _ => 0
       end + launched t')%Z
  end.

(** The outcome lines among the events, and those of one process. *)
Definition is_outcome (e : event) : bool :=
  match e with
  | Finished _ _ | Failed _ _ _ => true
  | _ => false
  end.

Definition is_outcome_of (p : nat) (e : event) : bool :=
  match e with
  | Finished q _ | Failed q _ _ => q =? p
  | _ => false
  end.

Definition is_spawn (e : event) : bool :=
  match e with
  | Spawn _ _ => true
  | _ => false
  end.

(** The objects created by the [Popen] calls among the events. *)
Fixpoint spawned (t : list event) : list nat :=
  match t with
  | [] => []
  | Spawn p _ :: t' => p :: spawned t'
  | _ :: t' => spawned t'
  end.



(** The number a line of the listing gives, when it gives one, and
    the WAV file that goes with a number. *)
Definition line_number (l : string) : option Z :=
  match split l with
  | [] => None
  | word :: _ => int word
  end.

Definition wav_name (n : Z) : string := "track" +:+ format_02d n +:+ ".cdda.wav".

(** A line [trackdata] can read: blank, or starting with a number. *)
Definition readable_line (l : string) : Prop :=
  split l = [] \/ exists n, line_number l = Some n.

(** A process that exits, its exit status, and the number of polls
    it takes to see it gone. *)
Definition exits (b : behaviour) : Prop :=
  match b with
  | Exits _ _ => True
  | Hangs => False
  end.

Definition code (b : behaviour) : Z :=
  match b with
  | Exits _ rc => rc
  | Hangs => 0
  end.

Definition weight (b : behaviour) : nat :=
  match b with
  | Exits n _ => S n
  | Hangs => 1
  end.

Definition pidf (p : proc) : nat := pid (snd p).

(** The outcome line each entry of [procs] is going to get. *)
Definition pending (procs : list proc) : list event :=
  map (fun p => report (pidf p) (fst p) (code (state (snd p)))) procs.

(** The polls still needed to see every process of [procs] gone. *)
Fixpoint total (procs : list proc) : nat :=
  match procs with
  | [] => 0
  | p :: r => weight (state (snd p)) + total r
  end.

(** The outcome lines of the tracks [tracks] when they are started as
    the processes [n], [n + 1], ... *)
Fixpoint expected (w : world) (n : nat) (tracks : list tinfo) : list event :=
  match tracks with
  | [] => []
  | t :: tracks' =>
      report n (ofname t) (code (lame w n)) :: expected w (S n) tracks'
  end.

(** The polls needed for these tracks, plus one for each. *)
Fixpoint budget (w : world) (n : nat) (tracks : list tinfo) : nat :=
  match tracks with
  | [] => 0
  | t :: tracks' => S (weight (lame w n)) + budget w (S n) tracks'
  end.

End MakeMp3.

(** ** What vid2mkv.py and tifftopdf.py share *)

Module Logged.
Import Py.

Inductive level := DEBUG | INFO | WARNING | ERROR.

(** What these two scripts do that can be seen from outside.  Log
    records are kept whatever the level chosen with [--log]. *)
Inductive event :=
| Log (lvl : level) (msg : string)        (* [logging.<lvl>(msg)] *)
| LogFailure (fname : string) (e : exn)   (* [logging.error] of 'starting conversion of "fname" failed: ' and [str(e)] *)
| Call (args : list string)               (* [subprocess.call(args)] or [check_output(args)] *)
| Print (line : string).                  (* [print(line)] *)

(** Code that appends to the events and ends as [result] says. *)
Definition M (A : Type) : Type := list event -> result A * list event.

Definition ret {A} (a : A) : M A := fun t => (Ret a, t).

Definition bind {A B} (k : A -> M B) (m : M A) : M B :=
  fun t =>
    match m t with
    | (Ret a, t') => k a t'
    | (Raise e, t') => (Raise e, t')
    | (Exit c, t') => (Exit c, t')
    | (Timeout, t') => (Timeout, t')
    end.

#[export] Instance M_ret : MRet M := @ret.
#[export] Instance M_bind : MBind M := @bind.

Definition lift {A} (r : result A) : M A := fun t => (r, t).
Definition raise {A} (e : exn) : M A := lift (Raise e).
Definition sys_exit {A} (c : Z) : M A := lift (Exit c).
Definition emit (e : event) : M unit := fun t => (Ret tt, (t ++ [e])%list).

(** [try: m except Exception: h] *)
Definition try_except {A} (m : M A) (h : exn -> M A) : M A :=
  fun t =>
    match m t with
    | (Raise e, t') => h e t'
    | other => other
    end.

(** *** The thread pool

    [ThreadPoolExecutor.map(func, files)] hands the calls to worker
    threads, which run at the same time.  What one call writes keeps
    its order, but the records of different calls come in an order
    that the script does not fix.  A schedule, a list of turns, stands
    for that order.  Turn [i] lets call [i] write its next record.  A
    turn that names no call is one of the thread of [main], which
    reads the results in the order of [files]: it runs the next round
    of its loop if the call it waits for has ended.  When the turns
    are used up, the calls write what they still have to, one call
    after the other, and [main] reads on.  Every order the records can
    come in is that of some schedule; the number of workers is not
    taken into account, so that orders it excludes are allowed for
    too.

    [queues] holds what each call has still to write, [k] is the
    number of results read, and [reads] what the rounds still to come
    write. *)
Fixpoint serve (sched : list nat) (queues : list (list event)) (k : nat)
    (reads : list (list event)) : list event :=
  match sched with
  | [] => (concat queues ++ concat reads)%list
  | i :: sched' =>
      match queues !! i with
      | Some (e :: q) => e :: serve sched' (<[i := q]> queues) k reads
      | Some [] => serve sched' queues k reads
      | None =>
          match reads, queues !! k with
          | evs :: reads', Some [] => (evs ++ serve sched' queues (S k) reads')%list
          | _, _ => serve sched' queues k reads
          end
      end
  end.

(** [with ThreadPoolExecutor(...) as tp: convs = tp.map(func, files)]:
    the block is left when every call has ended, whatever it ended
    with; the outcomes are kept in the order of [files].  A call
    starts from no record of its own ([[]]). *)
Definition tp_map {A} (sched : list nat) (func : string -> M A)
    (files : list string) : M (list (result A)) :=
  fun t =>
    let futures := map (fun f => func f []) files in
    (Ret (map fst futures), (t ++ serve sched (map snd futures) 0 [])%list).

(** The rounds of a loop [for r in tp.map(...)], one for each result
    read: a round is the loop run on that result alone.  The loop ends
    with the first round that does not return. *)
Fixpoint rounds {A} (loop : list (result A) -> M unit) (rs : list (result A))
    : result unit * list (list event) :=
  match rs with
  | [] => (Ret tt, [])
  | r :: rs' =>
      match loop [r] [] with
      | (Ret _, evs) => let '(fin, reads) := rounds loop rs' in (fin, evs :: reads)
      | (other, evs) => (other, [evs])
      end
  end.

(** [with ThreadPoolExecutor(...) as tp: for r in tp.map(func, files): ...]:
    the loop reads the results while the calls are at work. *)
Definition tp_for {A} (sched : list nat) (func : string -> M A)
    (files : list string) (loop : list (result A) -> M unit) : M unit :=
  fun t =>
    let futures := map (fun f => func f []) files in
    let '(fin, reads) := rounds loop (map fst futures) in
    (fin, (t ++ serve sched (map snd futures) 0 reads)%list).

(** The first argument of a command, [args[0]]. *)
Definition arg0 (args : list string) : M string :=
  match args with
  | a :: _ => ret a
  | [] => raise IndexError
  end.

(** The argument of [checkfor]: one string or a list of strings. *)
Inductive command :=
| One (s : string)
| Many (l : list string).

(** [' ' in s] *)
Fixpoint has_space (s : string) : bool :=
  match s with
  | EmptyString => false
  | String c r => Ascii.eqb c " " || has_space r
  end.

End Logged.

(** ** vid2mkv.py *)

Module Vid2mkv.
Import Py Logged.

(** The parsed command line. *)
Record arguments := {
  videoquality : Z;
  audioquality : Z;
  files : list string
}.

(** Everything outside the script that it reads: what running a
    command gives, with the [strerror] of the [OSError] when it could
    not be started. *)
Record world := {
  call : list string -> call_outcome;
  strerror : list string -> string;
  schedule : list nat                   (* the turns of the pool's threads *)
}.

(** [subprocess.call(args, ...)] *)
Definition subprocess_call (w : world) (args : list string) : M Z :=
  emit (Call args);;
  match call w args with
  | Status rc => ret rc
  | NotStarted => raise OSError
  end.

Definition checkfor (w : world) (args : command) (rv : Z) : M unit :=
  args ← match args with
         | One s => if has_space s then raise ValueError else ret [s]
         | Many l => ret l
         end;
  try_except
    (rc ← subprocess_call w args;
     (if negb (rc =? rv)%Z then raise OSError else ret tt);;
     a ← arg0 args;
     emit (Log INFO ("found required program " +:+ quoted a)))
    (fun oops =>
       match oops with
       | OSError =>
           a ← arg0 args;
           let reason := match call w args with
                         | Status _ => "None"
                         | NotStarted => strerror w args
                         end in
           emit (Log ERROR ("required program " +:+ quoted a
                            +:+ " not found: " +:+ reason +:+ "."));;
           sys_exit 1
       | other => raise other
       end).

Definition known : list string :=
  [".mp4"; ".avi"; ".wmv"; ".flv"; ".mpg"; ".mpeg"; ".mov"; ".ogv";
   ".mkv"; ".webm"].

(** [x in l] for strings. *)
Definition mem (x : string) (l : list string) : bool :=
  existsb (String.eqb x) l.

(** The name of the output file, for a file that is converted. *)
Definition ofn_of (fname : string) : string :=
  let '(basename, ext) := splitext fname in
  basename +:+ ".mkv".

Definition runencoder (w : world) (fname : string) (vq aq : Z) : M (string * Z) :=
  let '(basename, ext) := splitext fname in
  if negb (mem (lower ext) known)
  then
    emit (Log WARNING ("file " +:+ quoted fname
                       +:+ " has unknown extension, ignoring it."));;
    ret (fname, 0%Z)
  else
    let ofn := basename +:+ ".mkv" in
    let args := ["ffmpeg"; "-i"; fname; "-c:v"; "libtheora"; "-q:v"; str vq;
                 "-c:a"; "libvorbis"; "-q:a"; str aq; "-sn"; "-y"; ofn] in
    emit (Log INFO ("starting conversion of " +:+ quoted fname
                    +:+ " to " +:+ quoted ofn));;
    rv ← subprocess_call w args;
    emit (Log INFO ("finished " +:+ quoted ofn));;
    ret (fname, rv).

(** Reading the results of [tp.map] after the block: the first call
    that raised makes the reader raise. *)
Fixpoint results {A} (convs : list (result A)) : result (list A) :=
  match convs with
  | [] => Ret []
  | Ret a :: convs' =>
      match results convs' with
      | Ret l => Ret (a :: l)
      | other => other
      end
  | Raise e :: _ => Raise e
  | Exit c :: _ => Exit c
  | Timeout :: _ => Timeout
  end.

(** [for fn, rv in convs: print(...)] *)
Fixpoint print_failures (convs : list (string * Z)) : M unit :=
  match convs with
  | [] => ret tt
  | (fn, rv) :: convs' =>
      emit (Print ("Conversion of " +:+ fn +:+ " failed, return code "
                   +:+ str rv));;
      print_failures convs'
  end.

(** [main], from the parsed arguments on. *)
Definition main (w : world) (args : arguments) : M unit :=
  checkfor w (Many ["ffmpeg"; "-version"]) 0;;
  let starter := fun fname => runencoder w fname (videoquality args) (audioquality args) in
  convs ← tp_map (schedule w) starter (files args);
  convs ← lift (results convs);
  let convs := List.filter (fun c => negb (snd c =? 0)%Z) convs in
  print_failures convs.

Definition run (w : world) (args : arguments) : result unit * list event :=
  main w args [].

(** The lines printed among the events, and the line for a file whose
    conversion failed. *)
Fixpoint printed (t : list event) : list string :=
  match t with
  | [] => []
  | Print line :: t' => line :: printed t'
  | _ :: t' => printed t'
  end.

Definition failure_line (c : string * Z) : string :=
  "Conversion of " +:+ fst c +:+ " failed, return code " +:+ str (snd c).

Definition failed (c : string * Z) : bool := negb (snd c =? 0)%Z.

End Vid2mkv.

(** ** tifftopdf.py *)

Module Tifftopdf.
Import Py Logged.

(** The parsed command line. *)
Record arguments := {
  jpeg : bool;
  quality : Z;
  files : list string
}.

(** What [subprocess.check_output(['tiffinfo', fname])] followed by
    [decode('utf-8')] gives: the text, or the exception raised on the
    way ([OSError], [CalledProcessError] for a non-zero exit status,
    [UnicodeDecodeError]). *)
Inductive probe_outcome :=
| Text (txt : string)
| ProbeRaises (e : exn).

Record world := {
  call : list string -> call_outcome;
  strerror : list string -> string;
  tiffinfo : string -> probe_outcome;
  schedule : list nat                   (* the turns of the pool's threads *)
}.

Definition subprocess_call (w : world) (args : list string) : M Z :=
  emit (Call args);;
  match call w args with
  | Status rc => ret rc
  | NotStarted => raise OSError
  end.

Definition checkfor (w : world) (args : command) (rv : Z) : M unit :=
  args ← match args with
         | One s => if has_space s then raise ValueError else ret [s]
         | Many l => ret l
         end;
  try_except
    (rc ← subprocess_call w args;
     (if negb (rc =? rv)%Z then raise OSError else ret tt);;
     a ← arg0 args;
     emit (Log INFO ("found required program " +:+ quoted a)))
    (fun oops =>
       match oops with
       | OSError =>
           a ← arg0 args;
           let reason := match call w args with
                         | Status _ => "None"
                         | NotStarted => strerror w args
                         end in
           emit (Log ERROR ("required program " +:+ quoted a
                            +:+ " not found: " +:+ reason +:+ "."));;
           sys_exit 1
       | other => raise other
       end).

(** [txt.index(x)]; [None] stands for [ValueError]. *)
Fixpoint index (x : string) (txt : list string) : option nat :=
  match txt with
  | [] => None
  | y :: r => if String.eqb y x then Some 0 else S <$> index x r
  end.

(** [txt[i]] *)
Definition item (txt : list string) (i : nat) : result string :=
  match txt !! i with
  | Some s => Ret s
  | None => Raise IndexError
  end.

(** [s[:-1]] *)
Definition drop_last (s : string) : string :=
  substring 0 (String.length s - 1) s.

(** The regular expression ['\.tif{1,2}?$'] with [re.IGNORECASE]. *)

(** [$]: at the end of the text, or before a newline that ends it. *)
Definition at_dollar (s : string) : bool :=
  match s with
  | EmptyString => true
  | String c EmptyString => Ascii.eqb c (ascii_of_nat 10)
  | _ => false
  end.

(** A letter of the pattern against a character, case ignored. *)
Definition same_letter (x c : ascii) : bool := Ascii.eqb (lower_char c) x.

(** A match starting at the first character of [s]: what follows the
    match.  The count [{1,2}?] is lazy: one [f] is tried first. *)
Definition match_here (s : string) : option string :=
  match s with
  | String d (String t (String i (String f r))) =>
      if Ascii.eqb d "." && same_letter "t" t && same_letter "i" i
         && same_letter "f" f
      then
        if at_dollar r then Some r
        else match r with
             | String f2 r2 =>
                 if same_letter "f" f2 && at_dollar r2 then Some r2 else None
             | EmptyString => None
             end
      else None
  | _ => None
  end.

(** [re.sub('\.tif{1,2}?$', '.pdf', fname, flags=re.IGNORECASE)]: the
    leftmost match is replaced.  What follows a match is at most a
    newline, where the pattern cannot match again. *)
Fixpoint re_sub (fname : string) : string :=
  match match_here fname with
  | Some rest => ".pdf" +:+ rest
  | None =>
      match fname with
      | EmptyString => EmptyString
      | String c r => String c (re_sub r)
      end
  end.

Section Floats.

(** Python's floating-point numbers, as far as [tiffconv] uses them. *)
Variable float : Type.
Variable float_of_str : string -> option float.  (* [float(s)], [None]: [ValueError] *)
Variable truth : float -> bool.                  (* [if x:] *)
Variable div : float -> float -> float.          (* [x / y] for a [y] that is not zero *)
Variable str_of_float : float -> string.         (* [str(x)] *)

Definition to_float (s : string) : result float :=
  match float_of_str s with
  | Some x => Ret x
  | None => Raise ValueError
  end.

(** The inner [try] of [tiffconv]: the resolution [(xres, yres)], or
    [None] for both when a [ValueError] was raised on the way. *)
Definition resolution (txt : list string) : result (option (float * float)) :=
  except_ValueError
    (index ← match index "Resolution:" txt with
             | Some index => Ret index
             | None => Raise ValueError
             end;
     s ← item txt (index + 1);
     xres ← to_float (drop_last s);
     s ← item txt (index + 2);
     yres ← to_float s;
     Ret (Some (xres, yres)))
    None.

(** The arguments of [tiff2pdf] after the program name and the
    compression flags, and whether the fall-back to A4 was taken. *)
Definition page_args (fname outname : string) (width length : float)
    (res : option (float * float)) : list string * bool :=
  match res with
  | Some (xres, yres) =>
      if truth xres
      then (["-w"; str_of_float (div width xres); "-l";
             str_of_float (div length xres); "-x"; str_of_float xres;
             "-y"; str_of_float yres; "-o"; outname; fname], false)
      else (["-o"; outname; "-z"; "-p"; "A4"; "-F"; fname], true)
  | None => (["-o"; outname; "-z"; "-p"; "A4"; "-F"; fname], true)
  end.

(** The body of the outer [try] of [tiffconv]. *)
Definition tiffconv_body (w : world) (fname : string) (jpeg : bool)
    (quality : Z) : M (string * Z) :=
  let args := ["tiffinfo"; fname] in
  emit (Call args);;
  txt ← match tiffinfo w fname with
        | Text txt => ret txt
        | ProbeRaises e => raise e
        end;
  let txt := split txt in
  index ← match index "Width:" txt with
          | None => raise ValueError
          | Some index => ret index
          end;
  width ← lift (s ← item txt (index + 1); to_float s);
  length ← lift (s ← item txt (index + 4); to_float s);
  res ← lift (resolution txt);
  let outname := re_sub fname in
  let program := ["tiff2pdf"] in
  let '(args, a4) := page_args fname outname width length res in
  (if a4
   then emit (Log WARNING ("no resolution in " +:+ fname +:+ ". Fitting to A4"))
   else ret tt);;
  let args := if jpeg
              then (program ++ ["-n"; "-j"; "-q"; str quality] ++ args)%list
              else (program ++ args)%list in
  emit (Log INFO ("calling " +:+ quoted (join " " args)));;
  rv ← subprocess_call w args;
  emit (Log INFO ("created " +:+ quoted outname));;
  ret (fname, rv).

Definition tiffconv (w : world) (fname : string) (jpeg : bool)
    (quality : Z) : M (string * Z) :=
  try_except (tiffconv_body w fname jpeg quality)
    (fun e =>
       emit (LogFailure fname e);;
       ret (fname, 0%Z)).

(** [for fn, rv in tp.map(func, args.files): ...] on the results
    [convs]: reading a result raises what the call raised. *)
Fixpoint report_all (convs : list (result (string * Z))) : M unit :=
  match convs with
  | [] => ret tt
  | r :: convs' =>
      '(fn, rv) ← lift r;
      (if (rv =? 0)%Z
       then emit (Log INFO ("finished " +:+ quoted fn))
       else emit (Log ERROR ("conversion of " +:+ fn
                             +:+ " failed, return code " +:+ str rv)));;
      report_all convs'
  end.

(** [main], from the parsed arguments on. *)
Definition main (w : world) (args : arguments) : M unit :=
  checkfor w (One "tiffinfo") 255;;
  checkfor w (Many ["tiff2pdf"; "-v"]) 0;;
  let func := fun fname =>
    if jpeg args
    then tiffconv w fname true (quality args)
    else tiffconv w fname false 85 in
  (if jpeg args then emit (Log INFO "using JPEG compression.") else ret tt);;
  tp_for (schedule w) func (files args) report_all.

Definition run (w : world) (args : arguments) : result unit * list event :=
  main w args [].

End Floats.

End Tifftopdf.

(** ** genotp.py *)

Module Genotp.
Import Py.
Import (notations) PrimFloat.

(** The bytes [os.urandom] hands out, in order; the scripts sees them
    from a position [pos] on. *)
Definition entropy : Type := nat -> ascii.

(** [urandom(n)]: the next [n] bytes, and the position after them. *)
Definition urandom (rng : entropy) (pos n : nat) : list ascii * nat :=
  (map rng (seq pos n), pos + n).

(** The float nearest to 10.2, which is what the literal denotes. *)
Definition ten_point_two : PrimFloat.float := 0x1.4666666666666p+3%float.

(** [ord(c)] as a float: exact, the number being below 256. *)
Definition float_of_ord (c : ascii) : PrimFloat.float :=
  PrimFloat.of_uint63 (Uint63.of_Z (Z.of_nat (nat_of_ascii c))).

(** [int(round(x))] in Python 2: the whole number nearest to [x],
    halves going away from zero; [None] stands for the error raised
    for an infinity or a NaN.  A finite float is [m * 2 ^ e]. *)
Definition int_round (x : PrimFloat.float) : option Z :=
  match FloatOps.Prim2SF x with
  | SpecFloat.S754_zero _ => Some 0%Z
  | SpecFloat.S754_finite sign m e =>
      let magnitude :=
        if (0 <=? e)%Z then (Z.pos m * 2 ^ e)%Z
        else ((Z.pos m + 2 ^ (- e - 1)) / 2 ^ (- e))%Z in
      Some (if sign then (- magnitude)%Z else magnitude)
  | SpecFloat.S754_infinity _ => None
  | SpecFloat.S754_nan => None
  end.

(** [chr(k)] in Python 2; [None] stands for [ValueError]. *)
Definition chr (k : Z) : option ascii :=
  if (0 <=? k)%Z && (k <? 256)%Z then Some (ascii_of_nat (Z.to_nat k)) else None.

(** [chr(int(round(ord(c)/10.2))+65)] *)
Definition letter (c : ascii) : option ascii :=
  k ← int_round (PrimFloat.div (float_of_ord c) ten_point_two);
  chr (k + 65).

(** The list comprehension of [rndcaps]. *)
Fixpoint letters (b : list ascii) : option (list ascii) :=
  match b with
  | [] => Some []
  | c :: b' =>
      l ← letter c;
      ls ← letters b';
      Some (l :: ls)
  end.

Definition rndcaps (rng : entropy) (pos n : nat) : option (string * nat) :=
  let '(b, pos) := urandom rng pos n in
  ls ← letters b;
  Some (string_of_list_ascii ls, pos).

(** [[rndcaps(5) for j in range(0, 12)]], for any number of groups. *)
Fixpoint groups (count : nat) (rng : entropy) (pos : nat) : option (list string * nat) :=
  match count with
  | O => Some ([], pos)
  | S count' =>
      '(g, pos) ← rndcaps rng pos 5;
      '(gs, pos) ← groups count' rng pos;
      Some (g :: gs, pos)
  end.

(** The loop [for num in range(1, 66)] of [otp], over the numbers
    [nums]. *)
Fixpoint otp_lines (nums : list Z) (rng : entropy) (pos : nat)
    : option (list string * nat) :=
  match nums with
  | [] => Some ([], pos)
  | num :: nums' =>
      let i := [format_02d num +:+ " "] in
      '(gs, pos) ← groups 12 rng pos;
      let i := (i ++ gs)%list in
      '(lines, pos) ← otp_lines nums' rng pos;
      Some (join " " i :: lines, pos)
  end.

Definition newline : string := String (ascii_of_nat 10) EmptyString.

(** [otp(n)]: the argument is not used. *)
Definition otp (n : Z) (rng : entropy) (pos : nat) : option (string * nat) :=
  '(lines, pos) ← otp_lines (map Z.of_nat (seq 1 65)) rng pos;
  Some (join newline lines, pos).

(** [main()]: what the two [print] calls write; [now] is the text of
    [datetime.utcnow()]. *)
Definition main (now : string) (rng : entropy) (pos : nat) : option (list string * nat) :=
  '(r, pos) ← rndcaps rng pos 10;
  let first := ">> " +:+ r +:+ ", " +:+ now +:+ " <<" in
  '(pad, pos) ← otp 65 rng pos;
  Some ([first; pad], pos).

(** A capital letter. *)
Definition is_capital (c : ascii) : bool :=
  (65 <=? nat_of_ascii c) && (nat_of_ascii c <=? 90).

End Genotp.

(** ** sha256.py *)

Module Sha256.
Import Py.

(** The parsed command line. *)
Record arguments := {
  checksum : option string;
  file : list string
}.

(** The file system: [os.path.isfile], and the contents [open(nm,
    'rb').read()] gives, [None] when opening raises [OSError]. *)
Record world := {
  isfile : string -> bool;
  read : string -> option string
}.

(** What goes to standard output: the help text of the parser, or a
    line of text.  A line is written by up to three [print] calls, the
    last of which ends it; nothing can fail between them. *)
Inductive output :=
| Help
| Line (text : string).

(** [setup()], after the arguments were parsed. *)
Definition setup (args : arguments) : result arguments * list output :=
  match file args with
  | [] => (Exit 0, [Help])
  | _ => (Ret args, [])
  end.

(** The truth of an optional string: [None] and the empty string are
    false. *)
Definition given (c : option string) : bool :=
  match c with
  | Some (String _ _) => true
  | _ => false
  end.

Section Hash.

(** [sha256(data).hexdigest()], from [hashlib]. *)
Variable hexdigest : string -> string.

(** The line printed for a file with digest [hexdat]. *)
Definition report (checksum : option string) (nm hexdat : string) : string :=
  let line := "SHA256 (" +:+ nm +:+ ") = " +:+ hexdat in
  if given checksum
  then match checksum with
       | Some c =>
           if negb (String.eqb c hexdat)
           then line +:+ " [ Failed ]"
           else line +:+ " [ OK ]"
       | None => line
       end
  else line.

(** The loop [for nm in args.file]; [out] is what was printed so far. *)
Fixpoint for_nm (w : world) (checksum : option string) (names : list string)
    (out : list output) : result unit * list output :=
  match names with
  | [] => (Ret tt, out)
  | nm :: names' =>
      if negb (isfile w nm) then for_nm w checksum names' out
      else
        match read w nm with
        | None => (Raise OSError, out)
        | Some data =>
            let hexdat := hexdigest data in
            for_nm w checksum names' (out ++ [Line (report checksum nm hexdat)])%list
        end
  end.

Definition main (w : world) (args : arguments) : result unit * list output :=
  match setup args with
  | (Ret args, out) =>
      let '(checksum, out) :=
        if given (checksum args)
           && negb (Z.of_nat (String.length (default "" (checksum args))) =? 64)%Z
        then (None, (out ++ [Line "Invalid checksum length. Skipping comparison."])%list)
        else (checksum args, out) in
      for_nm w checksum (file args) out
  | (Raise e, out) => (Raise e, out)
  | (Exit c, out) => (Exit c, out)
  | (Timeout, out) => (Timeout, out)
  end.

End Hash.

End Sha256.

(** * Properties *)

Local Open Scope list_scope.

(** ** make-mp3.py: the number of running processes *)

Section Mp3Bound.
Import Py MakeMp3.

(** Stepping through a sequence [x ← m; k]. *)
Lemma bind_run {A B} (m : M A) (k : A -> M B) s :
  (x ← m; k x) s =
    match m s with
    | (Ret a, s') => k a s'
    | (Raise e, s') => (Raise e, s')
    | (Exit c, s') => (Exit c, s')
    | (Timeout, s') => (Timeout, s')
    end.
Proof. reflexivity. Qed.

Lemma emit_run e s : emit e s = (Ret tt, St (out s ++ [e]) (started s)).
Proof. reflexivity. Qed.

Lemma launched_app t u : launched (t ++ u) = (launched t + launched u)%Z.
Proof. induction t as [|e t IH]; simpl; [|rewrite IH]; lia. Qed.

(** Every prefix of the trace [t] has at most [C] processes running. *)
Definition bounded (C : nat) (t : list event) : Prop :=
  forall pre suf, t = pre ++ suf -> (launched pre <= Z.of_nat C)%Z.

Lemma bounded_nil C : bounded C [].
Proof.
  intros pre suf H. symmetry in H. apply app_eq_nil in H as [-> _]. simpl. lia.
Qed.

Lemma bounded_snoc C t e :
  bounded C t -> (launched (t ++ [e]) <= Z.of_nat C)%Z -> bounded C (t ++ [e]).
Proof.
  intros Ht He pre suf Heq.
  destruct (decide (suf = [])) as [->|Hne].
  - rewrite app_nil_r in Heq. subst pre. exact He.
  - destruct (exists_last Hne) as (suf' & e' & ->).
    rewrite app_assoc in Heq. apply app_inj_tail in Heq as [Heq _].
    exact (Ht _ _ Heq).
Qed.

(** Outcome lines only lower the count. *)
Lemma bounded_outcomes C t evs :
  bounded C t -> Forall (fun e => is_outcome e = true) evs -> bounded C (t ++ evs).
Proof.
  intros Ht Hev. induction evs as [|e evs IH] using rev_ind.
  - now rewrite app_nil_r.
  - apply Forall_app in Hev as [Hev He]. rewrite app_assoc.
    apply bounded_snoc; [auto|].
    rewrite <- app_assoc, launched_app.
    specialize (Ht t [] (eq_sym (app_nil_r t))).
    clear IH. induction evs as [|e' evs IH]; simpl.
    + inversion He as [|? ? He1 _]; subst. destruct e; simpl in *; try discriminate; lia.
    + inversion Hev; subst. destruct e'; simpl in *; try discriminate;
        specialize (IH ltac:(assumption)); lia.
Qed.

Lemma launched_outcomes evs :
  Forall (fun e => is_outcome e = true) evs ->
  launched evs = (- Z.of_nat (length evs))%Z.
Proof.
  induction 1 as [|e evs He _ IH]; simpl; [lia|].
  destruct e; simpl in *; try discriminate; lia.
Qed.

Lemma is_outcome_report p fn rc : is_outcome (report p fn rc) = true.
Proof. unfold report. now destruct (rc =? 0)%Z. Qed.

Lemma remove_length it l l' : remove it l = Some l' -> length l = S (length l').
Proof.
  revert l'. induction l as [|x l IH]; simpl; intros l' H; [discriminate|].
  destruct (proc_eqb x it).
  - now inversion H.
  - destruct (remove it l) as [r|] eqn:E; simpl in H; [|discriminate].
    inversion H; subst. simpl. f_equal. now apply IH.
Qed.

(** One pass of [for it in proclist] only prints outcome lines, one
    for each entry it takes out of the list. *)
Lemma for_it_trace fuel : forall i procs s r s',
  for_it fuel i procs s = (r, s') ->
  started s' = started s /\
  exists evs, out s' = out s ++ evs /\
    Forall (fun e => is_outcome e = true) evs /\
    match r with
    | Ret procs' => length procs' + length evs = length procs
    | _ => True
    end.
Proof.
  induction fuel as [|fuel IH]; intros i procs s r s' H.
  - inversion H; subst. split; [done|]. exists []. now rewrite app_nil_r.
  - simpl in H. destruct (procs !! i) as [[fn pr]|] eqn:Ei.
    + destruct (poll pr) as [[rc|] pr'] eqn:Ep.
      * destruct (remove _ _) as [l|] eqn:Er.
        -- rewrite bind_run, emit_run in H.
           apply IH in H as (Hst & evs & Hout & Hev & Hr). simpl in *.
           split; [done|]. exists (report (pid pr') fn rc :: evs).
           split; [now rewrite Hout, <- app_assoc|].
           split; [constructor; auto using is_outcome_report|].
           destruct r; auto. apply remove_length in Er.
           rewrite length_insert in Er. simpl. lia.
        -- inversion H; subst. split; [done|]. exists []. now rewrite app_nil_r.
      * apply IH in H as (Hst & evs & Hout & Hev & Hr).
        split; [done|]. exists evs. repeat split; auto.
        destruct r; auto. now rewrite length_insert in Hr.
    + inversion H; subst. split; [done|]. exists []. rewrite app_nil_r.
      repeat split; auto; simpl; lia.
Qed.

(** The invariant of [main]'s loops: the processes counted as running
    are those of the list [procs], and there were never more than [C]. *)
Definition Inv (C : nat) (procs : list proc) (s : st) : Prop :=
  launched (out s) = Z.of_nat (length procs) /\
  bounded C (out s) /\ length procs <= C.

(** What holds when a piece of [main] has run. *)
Definition after (C : nat) (r : result (list proc)) (s : st) : Prop :=
  bounded C (out s) /\
  match r with
  | Ret procs => Inv C procs s
  | _ => True
  end.

Lemma manageprocs_inv C fuel procs s r s' :
  Inv C procs s -> manageprocs fuel procs s = (r, s') -> after C r s'.
Proof.
  intros (Hl & Hb & Hc) H. unfold manageprocs in H. rewrite bind_run in H.
  destruct (for_it fuel 0 procs s) as [r1 s1] eqn:E.
  apply for_it_trace in E as (_ & evs & Hout & Hev & Hr).
  assert (Hb1 : bounded C (out s1)) by (rewrite Hout; now apply bounded_outcomes).
  destruct r1 as [procs1| | |]; try (inversion H; subst; now split).
  rewrite bind_run, emit_run in H. inversion H; subst; clear H.
  assert (Hl1 : launched (out s1 ++ [Sleep]) = Z.of_nat (length procs1)).
  { rewrite Hout, !launched_app, (launched_outcomes evs Hev). simpl. lia. }
  assert (bounded C (out s1 ++ [Sleep])).
  { apply bounded_snoc; [done|]. rewrite Hl1. lia. }
  split; [done|]. split; [done|]. split; [done|]. lia.
Qed.

Lemma wait_for_slot_inv C fuel : forall procs s r s',
  Inv C procs s -> wait_for_slot fuel C procs s = (r, s') ->
  after C r s' /\
  match r with
  | Ret procs' => length procs' < C
  | _ => True
  end.
Proof.
  induction fuel as [|fuel IH]; intros procs s r s' HI H.
  - inversion H; subst. split; [split|]; auto. apply HI.
  - simpl in H. destruct (length procs =? C) eqn:E.
    + rewrite bind_run in H.
      destruct (manageprocs fuel procs s) as [r1 s1] eqn:E1.
      apply (manageprocs_inv C) in E1 as [Hb1 HI1]; [|done].
      destruct r1; try (inversion H; subst; now repeat split).
      now apply IH in H.
    + inversion H; subst. apply Nat.eqb_neq in E.
      split; [split; [apply HI|done]|]. destruct HI as (_ & _ & ?). lia.
Qed.

Lemma startmp3_inv C w t procs s :
  Inv C procs s -> length procs < C ->
  (exists p s', startmp3 w t s = (Ret p, s') /\ Inv C (procs ++ [p]) s') \/
  startmp3 w t s = (Raise OSError, s).
Proof.
  intros (Hl & Hb & _) Hlt. unfold startmp3. rewrite !bind_run. unfold popen.
  destruct (starts w (started s)); [left|now right].
  eexists _, _. split; [reflexivity|].
  simpl. set (sp := Spawn _ _). set (sy := Say _).
  assert (Hl1 : launched (out s ++ [sp]) = Z.of_nat (length procs + 1)).
  { rewrite launched_app. simpl. lia. }
  assert (Hb1 : bounded C (out s ++ [sp])).
  { apply bounded_snoc; [done|]. rewrite Hl1. lia. }
  split; [|split]; cbn [out].
  - rewrite length_app, launched_app, Hl1. simpl. lia.
  - apply bounded_snoc; [done|]. rewrite launched_app, Hl1. simpl. lia.
  - rewrite length_app. simpl. lia.
Qed.

Lemma for_track_inv C fuel w tracks : forall procs s r s',
  Inv C procs s -> for_track fuel w C tracks procs s = (r, s') -> after C r s'.
Proof.
  induction tracks as [|t tracks IH]; intros procs s r s' HI H.
  - inversion H; subst. split; [apply HI|done].
  - simpl in H. rewrite bind_run in H.
    destruct (wait_for_slot fuel C procs s) as [r1 s1] eqn:E1.
    apply wait_for_slot_inv in E1 as [[Hb1 HI1] Hlt]; [|done].
    destruct r1 as [procs1| | |]; try (inversion H; subst; now split).
    destruct (startmp3_inv C w t procs1 s1 HI1 Hlt) as [(p & s2 & E2 & HI2)|E2];
      rewrite bind_run, E2 in H.
    + now apply IH in H.
    + inversion H; subst. now split.
Qed.

Lemma drain_inv C fuel : forall procs s r s',
  Inv C procs s -> drain fuel procs s = (r, s') -> after C r s'.
Proof.
  induction fuel as [|fuel IH]; intros procs s r s' HI H.
  - inversion H; subst. split; [apply HI|done].
  - simpl in H. destruct (0 <? length procs).
    + rewrite bind_run in H.
      destruct (manageprocs fuel procs s) as [r1 s1] eqn:E1.
      apply (manageprocs_inv C) in E1 as [Hb1 HI1]; [|done].
      destruct r1; try (inversion H; subst; now split).
      now apply IH in H.
    + inversion H; subst. split; [apply HI|done].
Qed.

(** Before the first track is started nothing runs. *)
Lemma bounded_quiet C t :
  Forall (fun e => is_spawn e = false) t -> bounded C t /\ (launched t <= 0)%Z.
Proof.
  induction t as [|e t IH] using rev_ind; intros H.
  - split; [apply bounded_nil|simpl; lia].
  - apply Forall_app in H as [Ht He]. destruct (IH Ht) as [Hb Hl].
    inversion He as [|? ? He1 _]; subst.
    assert ((launched (t ++ [e]) <= 0)%Z).
    { rewrite launched_app. destruct e; simpl in *; try discriminate; lia. }
    split; [|done]. apply bounded_snoc; [done|]. lia.
Qed.

End Mp3Bound.

(** ** make-mp3.py: every process gets its outcome line *)

Section Mp3Outcomes.
Import Py MakeMp3.

(** The list [procs] holds distinct [Popen] objects, of processes that
    exit. *)
Definition good (procs : list proc) : Prop :=
  NoDup (map pidf procs) /\ Forall (fun p => exits (state (snd p))) procs.

Lemma proc_eqb_refl x : proc_eqb x x = true.
Proof.
  unfold proc_eqb. now rewrite String.eqb_refl, Nat.eqb_refl.
Qed.

Lemma proc_eqb_pid x y : proc_eqb x y = true -> pidf x = pidf y.
Proof.
  unfold proc_eqb, pidf. intros H. apply andb_prop in H as [_ H].
  now apply Nat.eqb_eq in H.
Qed.

(** With distinct objects, [remove] takes out the entry it is given. *)
Lemma remove_delete l : forall i x,
  NoDup (map pidf l) -> l !! i = Some x -> remove x l = Some (delete i l).
Proof.
  induction l as [|y l IH]; intros i x Hnd Hi; [done|].
  apply NoDup_cons in Hnd as [Hy Hnd]. destruct i as [|i]; simpl in *.
  - inversion Hi; subst. now rewrite proc_eqb_refl.
  - destruct (proc_eqb y x) eqn:E.
    + exfalso. apply Hy. rewrite (proc_eqb_pid _ _ E).
      apply list_elem_of_fmap. exists x. split; [done|].
      now apply list_elem_of_lookup_2 in Hi.
    + now rewrite (IH i x Hnd Hi).
Qed.

Lemma total_delete l : forall i x,
  l !! i = Some x -> total l = weight (state (snd x)) + total (delete i l).
Proof.
  induction l as [|y l IH]; intros [|i] x Hi; simpl in *; try done.
  - now inversion Hi.
  - rewrite (IH i x Hi). lia.
Qed.

Lemma total_insert l : forall i x y,
  l !! i = Some x ->
  total (<[i := y]> l) + weight (state (snd x)) = total l + weight (state (snd y)).
Proof.
  induction l as [|z l IH]; intros [|i] x y Hi; simpl in *; try done.
  - inversion Hi; subst. lia.
  - specialize (IH i x y Hi). lia.
Qed.

Lemma total_length l : length l <= total l.
Proof.
  induction l as [|[fn [p b]] l IH]; simpl; [lia|]. destruct b; simpl; lia.
Qed.

Lemma total_app l k : total (l ++ k) = total l + total k.
Proof. induction l as [|x l IH]; simpl; [done|]. rewrite IH. lia. Qed.

Lemma pending_app l k : pending (l ++ k) = pending l ++ pending k.
Proof. apply map_app. Qed.

(** A poll that answers [None] changes neither the identity of the
    object nor the line it will get. *)
Lemma good_insert l i fn p n rc :
  good l -> l !! i = Some (fn, {| pid := p; state := Exits (S n) rc |}) ->
  let l' := <[i := (fn, {| pid := p; state := Exits n rc |})]> l in
  good l' /\ map pidf l' = map pidf l /\ pending l' = pending l.
Proof.
  intros [Hnd Hex] Hi l'.
  assert (Hp : map pidf l' = map pidf l).
  { unfold l'. rewrite (list_fmap_insert pidf). apply list_insert_id.
    now rewrite (list_lookup_fmap pidf), Hi. }
  split; [split|split]; try done.
  - now rewrite Hp.
  - unfold l'. apply Forall_insert; [done|]. simpl. exact I.
  - unfold l', pending. rewrite list_fmap_insert. apply list_insert_id.
    now rewrite list_lookup_fmap, Hi.
Qed.

Lemma good_delete l i : good l -> good (delete i l).
Proof.
  intros [Hnd Hex]. split.
  - rewrite (list_fmap_delete pidf). apply (sublist_NoDup _ _ Hnd (sublist_delete _ i)).
  - now apply Forall_delete.
Qed.

Lemma for_it_S fuel i procs :
  for_it (S fuel) i procs =
    match procs !! i with
    | None => ret procs
    | Some (fn, pr) =>
        let '(result, pr) := poll pr in
        let proclist := <[i := (fn, pr)]> procs in
        match result with
        | Some result =>
            match remove (fn, pr) proclist with
            | None => raise ValueError
            | Some proclist =>
                emit (report (pid pr) fn result);;
                for_it fuel (S i) proclist
            end
        | None => for_it fuel (S i) proclist
        end
    end.
Proof. reflexivity. Qed.

(** One pass of [for it in proclist], given enough fuel: it ends, the
    lines it prints are the lines of the entries it takes out, and
    an entry at the starting index is polled. *)
Lemma for_it_ok fuel : forall i procs t n,
  good procs -> length procs - i < fuel ->
  exists procs' evs,
    for_it fuel i procs (St t n) = (Ret procs', St (t ++ evs) n) /\
    good procs' /\ map pidf procs' `sublist_of` map pidf procs /\
    Forall (fun e => is_outcome e = true) evs /\
    evs ++ pending procs' ≡ₚ pending procs /\
    total procs' <= total procs /\
    (i < length procs -> total procs' < total procs).
Proof.
  induction fuel as [|fuel IH]; intros i procs t n Hg Hf; [lia|].
  rewrite for_it_S. destruct (procs !! i) as [[fn [p b]]|] eqn:Ei.
  - assert (Hil : i < length procs) by (eapply lookup_lt_Some; eauto).
    assert (Hb : exits b).
    { destruct Hg as [_ Hex].
      apply (Forall_lookup_1 _ _ _ _ Hex Ei). }
    destruct b as [[|k] rc|]; [| |done]; unfold poll; cbn [state pid].
    + rewrite (list_insert_id _ _ _ Ei).
      rewrite (remove_delete _ _ _ (proj1 Hg) Ei).
      rewrite bind_run, emit_run. cbn [out started].
      destruct (IH (S i) (delete i procs) (t ++ [report p fn rc]) n)
        as (procs' & evs & Hrun & Hg' & Hsub & Hev & Hperm & Htot & _).
      { now apply good_delete. }
      { rewrite length_delete by eauto. lia. }
      exists procs', (report p fn rc :: evs).
      split; [now rewrite Hrun, <- app_assoc|].
      split; [done|].
      split.
      { etrans; [exact Hsub|]. rewrite (list_fmap_delete pidf).
        apply sublist_delete. }
      split; [constructor; auto using is_outcome_report|].
      split.
      { simpl. rewrite Hperm. unfold pending.
        now rewrite (delete_Permutation _ _ _ Ei) at 2. }
      rewrite (total_delete _ _ _ Ei). simpl. split; intros; lia.
    + set (x' := (fn, {| pid := p; state := Exits k rc |})).
      destruct (good_insert procs i fn p k rc Hg Ei) as (Hg1 & Hp1 & Hq1).
      destruct (IH (S i) (<[i := x']> procs) t n)
        as (procs' & evs & Hrun & Hg' & Hsub & Hev & Hperm & Htot & _).
      { done. }
      { rewrite length_insert. lia. }
      exists procs', evs. split; [done|]. split; [done|].
      split; [now rewrite <- Hp1|]. split; [done|].
      split; [now rewrite <- Hq1|].
      pose proof (total_insert procs i _ x' Ei) as Ht. simpl in Ht.
      split; intros; lia.
  - apply lookup_ge_None in Ei. exists procs, []. rewrite app_nil_r.
    repeat split; try apply Hg; try done; try lia.
Qed.

(** What a stretch of polling that printed [evs] has done to the list
    of processes: nothing was started, the lines printed are those of
    the entries that left the list, and no poll was lost. *)
Definition settled (procs : list proc) (evs : list event) (procs' : list proc) : Prop :=
  good procs' /\ map pidf procs' `sublist_of` map pidf procs /\
  spawned evs = [] /\
  List.filter is_outcome evs ++ pending procs' ≡ₚ pending procs /\
  total procs' <= total procs /\ length procs' <= length procs.

Lemma spawned_app t u : spawned (t ++ u) = spawned t ++ spawned u.
Proof.
  induction t as [|e t IH]; simpl; [done|]. destruct e; simpl; now rewrite IH.
Qed.

Lemma outcomes_only evs :
  Forall (fun e => is_outcome e = true) evs ->
  List.filter is_outcome evs = evs /\ spawned evs = [].
Proof.
  induction 1 as [|e evs He _ [IH1 IH2]]; simpl; [done|].
  rewrite He, IH1. split; [done|]. destruct e; simpl in *; done.
Qed.

Lemma settled_refl procs : good procs -> settled procs [] procs.
Proof. intros Hg. repeat split; try apply Hg; try done. Qed.

Lemma settled_trans a e1 b e2 c :
  settled a e1 b -> settled b e2 c -> settled a (e1 ++ e2) c.
Proof.
  intros (_ & Hs1 & Hn1 & Hp1 & Ht1 & Hl1) (Hg2 & Hs2 & Hn2 & Hp2 & Ht2 & Hl2).
  split; [done|]. split; [by trans (map pidf b)|].
  split; [now rewrite spawned_app, Hn1, Hn2|].
  split; [|lia].
  rewrite List.filter_app, <- app_assoc, Hp2. exact Hp1.
Qed.

Lemma manageprocs_ok fuel procs t n :
  good procs -> length procs < fuel ->
  exists procs' evs,
    manageprocs fuel procs (St t n) = (Ret procs', St (t ++ evs) n) /\
    settled procs evs procs' /\
    (procs <> [] -> total procs' < total procs).
Proof.
  intros Hg Hf.
  destruct (for_it_ok fuel 0 procs t n Hg ltac:(lia))
    as (procs' & evs & Hrun & Hg' & Hsub & Hev & Hperm & Htot & Hlt).
  exists procs', (evs ++ [Sleep]).
  unfold manageprocs. rewrite bind_run, Hrun, bind_run, emit_run. cbn [out started].
  split; [now rewrite <- app_assoc|].
  destruct (outcomes_only evs Hev) as [Hf1 Hf2].
  split.
  - split; [done|]. split; [done|].
    split; [now rewrite spawned_app, Hf2|].
    split; [now rewrite List.filter_app, Hf1, app_nil_r|].
    split; [done|]. apply sublist_length in Hsub. now rewrite !length_map in Hsub.
  - intros Hne. apply Hlt. destruct procs; [done|simpl; lia].
Qed.

Lemma wait_for_slot_ok C fuel : forall procs t n,
  good procs -> 0 < C -> total procs + length procs < fuel ->
  exists procs' evs,
    wait_for_slot fuel C procs (St t n) = (Ret procs', St (t ++ evs) n) /\
    settled procs evs procs'.
Proof.
  induction fuel as [|fuel IH]; intros procs t n Hg HC Hf; [lia|].
  simpl. destruct (length procs =? C) eqn:E.
  - apply Nat.eqb_eq in E. pose proof (total_length procs) as Htl.
    destruct (manageprocs_ok fuel procs t n Hg ltac:(lia))
      as (procs1 & evs1 & Hrun1 & Hs1 & Hlt).
    assert (Hlt1 : total procs1 < total procs).
    { apply Hlt. intros ->. simpl in E. lia. }
    pose proof Hs1 as (Hg1 & _ & _ & _ & _ & Hl1).
    destruct (IH procs1 (t ++ evs1) n Hg1 HC ltac:(lia))
      as (procs2 & evs2 & Hrun2 & Hs2).
    exists procs2, (evs1 ++ evs2). rewrite bind_run, Hrun1, Hrun2.
    split; [now rewrite <- app_assoc|]. eapply settled_trans; eauto.
  - exists procs, []. rewrite app_nil_r. split; [done|]. now apply settled_refl.
Qed.

Lemma drain_ok fuel : forall procs t n,
  good procs -> total procs + length procs < fuel ->
  exists evs,
    drain fuel procs (St t n) = (Ret [], St (t ++ evs) n) /\
    settled procs evs [].
Proof.
  induction fuel as [|fuel IH]; intros procs t n Hg Hf; [lia|].
  simpl. destruct (0 <? length procs) eqn:E.
  - apply Nat.ltb_lt in E. pose proof (total_length procs) as Htl.
    destruct (manageprocs_ok fuel procs t n Hg ltac:(lia))
      as (procs1 & evs1 & Hrun1 & Hs1 & Hlt).
    assert (Hlt1 : total procs1 < total procs).
    { apply Hlt. intros ->. simpl in E. lia. }
    pose proof Hs1 as (Hg1 & _ & _ & _ & _ & Hl1).
    destruct (IH procs1 (t ++ evs1) n Hg1 ltac:(lia)) as (evs2 & Hrun2 & Hs2).
    exists (evs1 ++ evs2). rewrite bind_run, Hrun1, Hrun2.
    split; [now rewrite <- app_assoc|]. eapply settled_trans; eauto.
  - apply Nat.ltb_ge in E. destruct procs; [|simpl in E; lia].
    exists []. rewrite app_nil_r. split; [done|]. now apply settled_refl.
Qed.

Lemma startmp3_run w t0 t n :
  starts w n = true ->
  exists args line,
    startmp3 w t0 (St t n) =
      (Ret (ofname t0, {| pid := n; state := lame w n |}),
       St (t ++ [Spawn n args; Say line]) (S n)).
Proof.
  intros Hst. eexists _, _. unfold startmp3. rewrite bind_run. unfold popen at 1.
  cbn [out started]. rewrite Hst, bind_run, emit_run. cbn [out started].
  now rewrite <- app_assoc.
Qed.

(** The loop over the tracks, given enough fuel and processes that
    can be started: every track is started, as the objects [n],
    [n + 1], ..., and the lines printed so far together with the lines
    still to come are the lines expected. *)
Lemma for_track_ok C fuel w : forall tracks procs t n,
  good procs -> Forall (fun p => p < n) (map pidf procs) ->
  (forall k, n <= k < n + length tracks -> exits (lame w k)) ->
  (forall k, n <= k < n + length tracks -> starts w k = true) ->
  0 < C ->
  total procs + length procs + budget w n tracks < fuel ->
  exists procs' evs,
    for_track fuel w C tracks procs (St t n)
      = (Ret procs', St (t ++ evs) (n + length tracks)) /\
    good procs' /\
    spawned evs = seq n (length tracks) /\
    List.filter is_outcome evs ++ pending procs'
      ≡ₚ pending procs ++ expected w n tracks /\
    total procs' + length procs' <= total procs + length procs + budget w n tracks.
Proof.
  induction tracks as [|t0 tracks IH]; intros procs t n Hg Hlt Hex Hgo HC Hf.
  - exists procs, []. simpl. rewrite !app_nil_r, Nat.add_0_r.
    repeat split; try apply Hg; try done. lia.
  - simpl in Hf. simpl for_track. rewrite bind_run.
    destruct (wait_for_slot_ok C fuel procs t n Hg HC ltac:(lia))
      as (procs1 & evs1 & Hrun1 & Hg1 & Hsub1 & Hsp1 & Hperm1 & Htot1 & Hlen1).
    rewrite Hrun1, bind_run.
    destruct (startmp3_run w t0 (t ++ evs1) n) as (args & line & Hrun2).
    { apply Hgo. simpl. lia. }
    rewrite Hrun2.
    set (p := (ofname t0, {| pid := n; state := lame w n |})).
    assert (Hlt1 : Forall (fun q => q < n) (map pidf procs1)).
    { apply Forall_forall. intros q Hq.
      apply (sublist_subseteq _ _ Hsub1) in Hq.
      revert q Hq. now apply Forall_forall. }
    destruct (IH (procs1 ++ [p]) (t ++ evs1 ++ [Spawn n args; Say line]) (S n))
      as (procs2 & evs2 & Hrun3 & Hg2 & Hsp2 & Hperm2 & Htot2).
    + destruct Hg1 as [Hnd1 Hex1]. split.
      * rewrite map_app. apply NoDup_app. split; [done|]. split.
        -- intros q Hq1 Hq2. apply list_elem_of_singleton in Hq2. subst q.
           apply (proj1 (Forall_forall _ _) Hlt1) in Hq1. unfold pidf, p in Hq1.
           simpl in Hq1. lia.
        -- apply NoDup_singleton.
      * apply Forall_app. split; [done|]. constructor; [|constructor].
        unfold p. simpl. apply Hex. simpl. lia.
    + rewrite map_app. apply Forall_app. split.
      * eapply Forall_impl; [exact Hlt1|]. simpl. intros; lia.
      * constructor; [|constructor]. unfold pidf, p. simpl. lia.
    + intros k Hk. apply Hex. simpl. lia.
    + intros k Hk. apply Hgo. simpl. lia.
    + done.
    + rewrite total_app, length_app. simpl. lia.
    + exists procs2, (evs1 ++ [Spawn n args; Say line] ++ evs2).
      rewrite <- !app_assoc in *. rewrite Hrun3.
      split; [simpl; do 3 f_equal; lia|].
      split; [done|].
      split; [rewrite !spawned_app, Hsp1, Hsp2; done|].
      split.
      * rewrite !List.filter_app. simpl. rewrite <- app_assoc, Hperm2.
        rewrite pending_app, <- Hperm1, <- !app_assoc. now unfold p.
      * rewrite total_app, length_app in Htot2. simpl in *. lia.
Qed.

(** The whole of [main] when the tool is there, tracks were found,
    and every process can be started and exits. *)
Lemma main_ok w argv tracks fuel :
  probe w ["lame"; "--help"] = Status 0 ->
  trackdata w = Ret tracks ->
  0 < length tracks ->
  0 < cpu_count w ->
  (forall k, k < length tracks -> starts w k = true) ->
  (forall k, k < length tracks -> exits (lame w k)) ->
  budget w 0 tracks < fuel ->
  exists trace,
    run fuel w argv = (Ret [], St trace (length tracks)) /\
    spawned trace = seq 0 (length tracks) /\
    List.filter is_outcome trace ≡ₚ expected w 0 tracks.
Proof.
  intros Hprobe Htd Hne HC Hgo Hex Hf. unfold run, main.
  rewrite bind_run. unfold checkfor at 1. rewrite bind_run, emit_run, Hprobe.
  cbn [out started Z.eqb]. unfold mret, M_ret, ret at 1.
  rewrite bind_run. unfold lift at 1. rewrite Htd.
  destruct tracks as [|t0 tracks]; [simpl in Hne; lia|].
  set (ts := t0 :: tracks) in *. rewrite bind_run.
  destruct (for_track_ok (cpu_count w) fuel w ts [] ([] ++ [Probe ["lame"; "--help"]]) 0)
    as (procs1 & evs1 & Hrun1 & Hg1 & Hsp1 & Hperm1 & Htot1).
  { split; [constructor|constructor]. }
  { constructor. }
  { intros k Hk. apply Hex. lia. }
  { intros k Hk. apply Hgo. lia. }
  { done. }
  { simpl total. simpl length. lia. }
  rewrite Hrun1.
  change (total [] + length [] + budget w 0 ts) with (budget w 0 ts) in Htot1.
  destruct (drain_ok fuel procs1 (([] ++ [Probe ["lame"; "--help"]]) ++ evs1)
              (0 + length ts) Hg1 ltac:(lia))
    as (evs2 & Hrun2 & _ & _ & Hsp2 & Hperm2 & _).
  rewrite Hrun2. eexists. split; [reflexivity|].
  split.
  - rewrite !spawned_app, Hsp1, Hsp2. simpl. now rewrite app_nil_r.
  - rewrite !List.filter_app. simpl. simpl in Hperm2, Hperm1.
    rewrite app_nil_r in Hperm2. now rewrite Hperm2.
Qed.

End Mp3Outcomes.

(** ** make-mp3.py: reading the outcome lines of a finished run *)

Section Mp3Lines.
Import Py MakeMp3.

Lemma is_outcome_of_report p q fn rc :
  is_outcome_of p (report q fn rc) = (q =? p).
Proof. unfold report. now destruct (rc =? 0)%Z. Qed.

Lemma filter_all {A} (f : A -> bool) l :
  Forall (fun x => f x = true) l -> List.filter f l = l.
Proof. induction 1 as [|x l Hx _ IH]; simpl; [done|]. now rewrite Hx, IH. Qed.

Lemma filter_none {A} (f : A -> bool) l :
  Forall (fun x => f x = false) l -> List.filter f l = [].
Proof. induction 1 as [|x l Hx _ IH]; simpl; [done|]. now rewrite Hx. Qed.

Lemma filter_within {A} (f g : A -> bool) l :
  (forall x, f x = true -> g x = true) ->
  List.filter f (List.filter g l) = List.filter f l.
Proof.
  intros Hfg. induction l as [|x l IH]; simpl; [done|].
  destruct (g x) eqn:Eg; simpl; rewrite IH; [done|].
  destruct (f x) eqn:Ef; [|done]. apply Hfg in Ef. congruence.
Qed.

Lemma filter_perm {A} (f : A -> bool) l k :
  l ≡ₚ k -> List.filter f l ≡ₚ List.filter f k.
Proof.
  induction 1 as [|x l k _ IH|x y l|l k m _ IH1 _ IH2]; simpl.
  - done.
  - destruct (f x); now rewrite IH.
  - destruct (f x), (f y); try done. apply perm_swap.
  - now rewrite IH1.
Qed.

Lemma expected_below w p : forall tracks n,
  p < n -> List.filter (is_outcome_of p) (expected w n tracks) = [].
Proof.
  induction tracks as [|t tracks IH]; intros n Hp; simpl; [done|].
  rewrite is_outcome_of_report.
  destruct (n =? p) eqn:E; [apply Nat.eqb_eq in E; lia|].
  apply IH. lia.
Qed.

(** Among the lines expected, track [j] has exactly its own. *)
Lemma expected_at w : forall tracks n j t,
  tracks !! j = Some t ->
  List.filter (is_outcome_of (n + j)) (expected w n tracks)
    = [report (n + j) (ofname t) (code (lame w (n + j)))].
Proof.
  induction tracks as [|t0 tracks IH]; intros n j t Hj; [done|].
  simpl. rewrite is_outcome_of_report. destruct j as [|j]; simpl in Hj.
  - inversion Hj; subst. rewrite Nat.add_0_r, Nat.eqb_refl.
    f_equal. apply expected_below. lia.
  - destruct (n =? n + S j) eqn:E; [apply Nat.eqb_eq in E; lia|].
    replace (n + S j) with (S n + j) by lia. now apply IH.
Qed.



(** In a trace whose outcome lines are the expected ones, track [j]
    has exactly one line, its own. *)
Lemma line_of_track w tracks trace j t :
  List.filter is_outcome trace ≡ₚ expected w 0 tracks ->
  tracks !! j = Some t ->
  List.filter (is_outcome_of j) trace
    = [report j (ofname t) (code (lame w j))].
Proof.
  intros Hperm Hj.
  rewrite <- (filter_within (is_outcome_of j) is_outcome).
  - apply (filter_perm (is_outcome_of j)) in Hperm.
    pose proof (expected_at w tracks 0 j t Hj) as He. simpl in He.
    rewrite He in Hperm. now apply Permutation_singleton_r in Hperm.
  - now intros [].
Qed.

End Mp3Lines.

(** ** make-mp3.py: the claims *)

Section Mp3Claims.
Import Py MakeMp3.

(** A directory with four tracks to encode on a machine with two
    processing units.  Track 2 has no WAV file; the process of the
    second track started ends with status 3. *)
Definition demo_line (s : string) : string := s +:+ String (ascii_of_nat 10) "".

Definition demo_world : world := {|
  probe := fun _ => Status 0;
  titels := Some [demo_line "Demo"; demo_line "Artist";
                  demo_line "01 First song"; demo_line "02 Second";
                  demo_line "03 Third"; demo_line "04 Fourth";
                  demo_line "05 Fifth"];
  access := fun name => negb (String.eqb name "track02.cdda.wav");
  cpu_count := 2;
  lame := fun n => Exits n (if n =? 1 then 3 else 0);
  starts := fun _ => true
|}.

Definition demo_tracks : list tinfo :=
  [Tinfo 1 "First song" "Artist" "Demo" "track01.cdda.wav" "track01.mp3";
   Tinfo 3 "Third" "Artist" "Demo" "track03.cdda.wav" "track03.mp3";
   Tinfo 4 "Fourth" "Artist" "Demo" "track04.cdda.wav" "track04.mp3";
   Tinfo 5 "Fifth" "Artist" "Demo" "track05.cdda.wav" "track05.mp3"].

(** C1: whatever the tracks, the processes and the limit
    [cpu_count], at every point of a run of [main] (every prefix
    [pre] of the events of a run of any length) the number of
    processes started whose end has not been seen is at most the
    limit. *)
Theorem launched_at_most_cpu_count fuel w argv pre suf :
  out (snd (run fuel w argv)) = pre ++ suf ->
  (launched pre <= Z.of_nat (cpu_count w))%Z.
Proof.
  revert pre suf. change (bounded (cpu_count w) (out (snd (run fuel w argv)))).
  unfold run, main. rewrite bind_run. unfold checkfor at 1.
  rewrite bind_run, emit_run. simpl out. simpl started.
  set (t0 := [Probe _]).
  assert (Hq0 : Forall (fun e => is_spawn e = false) t0) by (repeat constructor).
  destruct (probe w _) as [rc|]; [destruct (rc =? 0)%Z|];
    try (simpl; now apply bounded_quiet).
  unfold mret, M_ret, ret. rewrite bind_run. unfold lift at 1.
  destruct (trackdata w) as [tracks| | |]; try (simpl; now apply bounded_quiet).
  destruct tracks as [|t tracks].
  - destruct (argv !! 0); cbn; apply bounded_quiet; repeat constructor.
  - rewrite bind_run.
    destruct (for_track _ _ _ _ _ _) as [r1 s1] eqn:E1.
    apply (for_track_inv (cpu_count w)) in E1 as [Hb1 HI1].
    + destruct r1 as [procs1| | |]; try done.
      destruct (drain fuel procs1 s1) as [r2 s2] eqn:E2.
      now apply (drain_inv (cpu_count w)) in E2 as [Hb2 _].
    + split; [done|]. split; [now apply bounded_quiet|simpl; lia].
Qed.

Lemma launched_at_most_cpu_count_witness :
  (launched (firstn 5 (out (snd (run 30 demo_world ["make-mp3.py"]))))
    <= Z.of_nat (cpu_count demo_world))%Z.
Proof.
  apply (launched_at_most_cpu_count 30 demo_world ["make-mp3.py"] _
           (skipn 5 (out (snd (run 30 demo_world ["make-mp3.py"]))))).
  vm_compute. reflexivity.
Defined.



(** And one where, besides, the first process ends with status 3. *)
Definition failing_world : world := {|
  probe := probe demo_world;
  titels := titels demo_world;
  access := access demo_world;
  cpu_count := cpu_count demo_world;
  lame := fun n => Exits 0 3;
  starts := fun n => n =? 0
|}.




(** C3 as stated fails: a process that cannot be started stops the
    batch.  Here the process of the first track ends with status 3;
    the second [subprocess.Popen] raises [OSError] and the run ends
    with it: the first track gets no failure line, and the tracks
    after the second are never started. *)
Lemma failed_launch_stops_the_batch_counterexample :
  exists trace,
    trackdata failing_world = Ret demo_tracks /\
    code (lame failing_world 0) = 3%Z /\
    run 30 failing_world ["make-mp3.py"] = (Raise OSError, St trace 1) /\
    spawned trace = [0] /\
    List.filter is_outcome trace = [].
Proof.
  eexists. split; [vm_compute; reflexivity|]. split; [reflexivity|].
  split; [vm_compute; reflexivity|]. now split.
Qed.

(** C3, amended: when every process can be started and exits, a
    track whose process exits with a status other than 0 gets exactly
    one outcome line, the failure line with that status, and every
    other track still gets exactly one line of its own: 'Finished
    processing' when its process ended with status 0, and the failure
    line with its status otherwise.  The failure stops nothing: [main]
    returns with no process left. *)
Theorem failure_does_not_stop_the_others w argv tracks fuel k t :
  probe w ["lame"; "--help"] = Status 0 ->
  trackdata w = Ret tracks ->
  0 < cpu_count w ->
  (forall j, j < length tracks -> starts w j = true) ->
  (forall j, j < length tracks -> exits (lame w j)) ->
  budget w 0 tracks < fuel ->
  tracks !! k = Some t ->
  code (lame w k) <> 0%Z ->
  exists trace,
    run fuel w argv = (Ret [], St trace (length tracks)) /\
    List.filter (is_outcome_of k) trace
      = [Failed k (ofname t) (code (lame w k))] /\
    (forall j tj, j <> k -> tracks !! j = Some tj ->
       List.filter (is_outcome_of j) trace
         = [if (code (lame w j) =? 0)%Z
            then Finished j (ofname tj)
            else Failed j (ofname tj) (code (lame w j))]) /\
    omap stdout_line (List.filter (is_outcome_of k) trace)
      = ["The conversion of " +:+ ofname t +:+ " exited with error code "
         +:+ str (code (lame w k)) +:+ "."].
Proof.
  intros Hprobe Htd HC Hgo Hex Hf Hk Hrc.
  assert (Hne : 0 < length tracks).
  { apply lookup_lt_Some in Hk. lia. }
  destruct (main_ok w argv tracks fuel Hprobe Htd Hne HC Hgo Hex Hf)
    as (trace & Hrun & Hsp & Hperm).
  assert (Hline : List.filter (is_outcome_of k) trace
                  = [Failed k (ofname t) (code (lame w k))]).
  { rewrite (line_of_track w tracks trace k t Hperm Hk). unfold report.
    apply Z.eqb_neq in Hrc. now rewrite Hrc. }
  exists trace. split; [done|]. split; [done|]. split.
  - intros j tj _ Hj. exact (line_of_track w tracks trace j tj Hperm Hj).
  - now rewrite Hline.
Qed.

Lemma failure_does_not_stop_the_others_witness :
  exists trace,
    run 30 demo_world ["make-mp3.py"] = (Ret [], St trace 4) /\
    List.filter (is_outcome_of 1) trace = [Failed 1 "track03.mp3" 3] /\
    List.filter (is_outcome_of 0) trace = [Finished 0 "track01.mp3"] /\
    List.filter (is_outcome_of 2) trace = [Finished 2 "track04.mp3"] /\
    List.filter (is_outcome_of 3) trace = [Finished 3 "track05.mp3"] /\
    omap stdout_line (List.filter (is_outcome_of 1) trace)
      = ["The conversion of track03.mp3 exited with error code 3."].
Proof.
  destruct (failure_does_not_stop_the_others demo_world ["make-mp3.py"]
              demo_tracks 30 1
              (Tinfo 3 "Third" "Artist" "Demo" "track03.cdda.wav" "track03.mp3"))
    as (trace & Hrun & Hfailed & Hothers & Htext).
  - reflexivity.
  - vm_compute. reflexivity.
  - simpl. lia.
  - intros j _. reflexivity.
  - intros j _. simpl. exact I.
  - vm_compute. lia.
  - reflexivity.
  - simpl. lia.
  - exists trace. split; [exact Hrun|]. split; [exact Hfailed|].
    split; [exact (Hothers 0 _ ltac:(lia) eq_refl)|].
    split; [exact (Hothers 2 _ ltac:(lia) eq_refl)|].
    split; [exact (Hothers 3 _ ltac:(lia) eq_refl)|].
    exact Htext.
Defined.

End Mp3Claims.

(** ** make-mp3.py: the list of tracks *)

Section Mp3Tracks.
Import Py MakeMp3.

(** The loop over the lines adds, in order, the tracks whose WAV file
    can be read. *)
Lemma track_lines_ok w album artist : forall lines tracks,
  Forall readable_line lines ->
  exists more,
    track_lines w album artist lines tracks = Ret (tracks ++ more) /\
    Forall (fun t => access w (ifname t) = true) more /\
    map num more
      = List.filter (fun n => access w (wav_name n)) (omap line_number lines).
Proof.
  induction lines as [|l lines IH]; intros tracks Hall.
  - exists []. now rewrite app_nil_r.
  - apply Forall_cons in Hall as [Hl Hall]. simpl. unfold line_number at 1.
    destruct (split l) as [|word words] eqn:Es.
    + destruct (IH tracks Hall) as (more & Hrun & Hacc & Hnum). now exists more.
    + destruct Hl as [Hl|[n Hn]]; [congruence|].
      unfold line_number in Hn. rewrite Es in Hn. rewrite Hn. simpl.
      fold (wav_name n). destruct (access w (wav_name n)) eqn:Ea.
      * destruct (IH (tracks ++ [Tinfo n (join " " words) artist album (wav_name n)
                                   ("track" +:+ format_02d n +:+ ".mp3")]) Hall)
          as (more & Hrun & Hacc & Hnum).
        eexists (_ :: more). rewrite Hrun, <- app_assoc.
        split; [done|]. split; [now constructor|]. simpl. now rewrite Hnum.
      * destruct (IH tracks Hall) as (more & Hrun & Hacc & Hnum). now exists more.
Qed.

(** A directory with the listing of the scenario: album "Demo",
    artist "Artist", tracks 01 and 02, and only the WAV file of
    track 1. *)
Definition scenario_world : world := {|
  probe := fun _ => Status 0;
  titels := Some [demo_line "Demo"; demo_line "Artist";
                  demo_line "01 First"; demo_line "02 Second"];
  access := fun name => String.eqb name "track01.cdda.wav";
  cpu_count := 2;
  lame := fun n => Exits 0 0;
  starts := fun _ => true
|}.

(** C8: [trackdata] gives the empty list when the listing cannot be
    opened; for a listing with its two heading lines and track lines
    it can read, it ends without error, every track it gives has a
    readable WAV file, and the numbers of the tracks it gives are, in
    the order of the listing, those whose WAV file is readable; in
    the scenario it gives track 1 alone. *)
Theorem trackdata_omits_unreadable_tracks :
  (forall w, titels w = None -> trackdata w = Ret []) /\
  (forall w l1 l2 lines,
     titels w = Some (l1 :: l2 :: lines) ->
     Forall readable_line lines ->
     exists tracks,
       trackdata w = Ret tracks /\
       Forall (fun t => access w (ifname t) = true) tracks /\
       map num tracks
         = List.filter (fun n => access w (wav_name n)) (omap line_number lines)) /\
  trackdata scenario_world
    = Ret [Tinfo 1 "First" "Artist" "Demo" "track01.cdda.wav" "track01.mp3"].
Proof.
  split; [|split].
  - intros w H. unfold trackdata. now rewrite H.
  - intros w l1 l2 lines H Hall. unfold trackdata. rewrite H. simpl.
    destruct (track_lines_ok w (strip l1) (strip l2) lines [] Hall)
      as (more & Hrun & Hacc & Hnum).
    exists more. now rewrite Hrun.
  - vm_compute. reflexivity.
Qed.

Lemma trackdata_omits_unreadable_tracks_witness :
  exists tracks,
    trackdata scenario_world = Ret tracks /\
    Forall (fun t => access scenario_world (ifname t) = true) tracks /\
    map num tracks
      = List.filter (fun n => access scenario_world (wav_name n))
          (omap line_number [demo_line "01 First"; demo_line "02 Second"]).
Proof.
  apply (proj1 (proj2 trackdata_omits_unreadable_tracks) scenario_world
           (demo_line "Demo") (demo_line "Artist")
           [demo_line "01 First"; demo_line "02 Second"]).
  - reflexivity.
  - constructor; [right; eexists; vm_compute; reflexivity|].
    constructor; [right; eexists; vm_compute; reflexivity|].
    constructor.
Defined.

(** C10: when the listing can be opened but has fewer than two
    lines, [trackdata] raises [IndexError] instead of returning. *)
Theorem trackdata_short_listing_raises w lines :
  titels w = Some lines ->
  length lines < 2 ->
  trackdata w = Raise IndexError.
Proof.
  intros H Hlen. unfold trackdata. rewrite H.
  destruct lines as [|l1 [|l2 lines]]; simpl in *; try done. lia.
Qed.

Definition empty_listing_world : world := {|
  probe := fun _ => Status 0;
  titels := Some [];
  access := fun _ => true;
  cpu_count := 2;
  lame := fun n => Exits 0 0;
  starts := fun _ => true
|}.

Lemma trackdata_short_listing_raises_witness :
  trackdata empty_listing_world = Raise IndexError.
Proof.
  apply (trackdata_short_listing_raises empty_listing_world []).
  - reflexivity.
  - simpl. lia.
Defined.

(** A directory without the file 'titels'. *)
Definition no_listing_world : world := {|
  probe := fun _ => Status 0;
  titels := None;
  access := fun _ => true;
  cpu_count := 2;
  lame := fun n => Exits 0 0;
  starts := fun _ => true
|}.

(** C5 as stated fails: with nothing to do, the exit status is not 0. *)
Lemma nothing_to_do_exit_status_counterexample :
  trackdata no_listing_world = Ret [] /\
  exit_status (fst (run 10 no_listing_world ["make-mp3.py"])) <> Some 0%Z.
Proof. split; [reflexivity|]. vm_compute. discriminate. Qed.

(** C5, amended: when no track is found, [main] starts no process,
    prints 'No tracks found.' and the usage text, and exits with
    status 1. *)
Theorem nothing_to_do_exits_with_1 w fuel argv0 argv :
  trackdata w = Ret [] ->
  let binary := basename argv0 in
  let trace := [Probe ["lame"; "--help"];
                Say "No tracks found.";
                Err (binary +:+ " version ");
                Err ("Usage: " +:+ binary);
                Err "In a directory where a file 'titels' and WAV files are present"] in
  exit_status (fst (run fuel w (argv0 :: argv))) = Some 1%Z /\
  spawned (out (snd (run fuel w (argv0 :: argv)))) = [] /\
  (probe w ["lame"; "--help"] = Status 0 ->
   run fuel w (argv0 :: argv) = (Exit 1, St trace 0)).
Proof.
  intros Htd binary trace.
  assert (Hrun : run fuel w (argv0 :: argv)
                 = if match probe w ["lame"; "--help"] with
                      | Status rc => (rc =? 0)%Z
                      | NotStarted => false
                      end
                   then (Exit 1, St trace 0)
                   else (Exit 1, St [Probe ["lame"; "--help"]] 0)).
  { unfold run, main. rewrite bind_run. unfold checkfor at 1.
    rewrite bind_run, emit_run. cbn [out started].
    destruct (probe w _) as [rc|]; [destruct (rc =? 0)%Z|]; try reflexivity.
    unfold mret, M_ret, ret at 1. rewrite bind_run. unfold lift at 1.
    rewrite Htd. reflexivity. }
  rewrite Hrun. split; [|split].
  - now destruct (probe w _) as [rc|]; [destruct (rc =? 0)%Z|].
  - now destruct (probe w _) as [rc|]; [destruct (rc =? 0)%Z|].
  - now intros ->.
Qed.

Lemma nothing_to_do_exits_with_1_witness :
  exit_status (fst (run 10 no_listing_world ["/usr/bin/make-mp3.py"])) = Some 1%Z.
Proof.
  apply (nothing_to_do_exits_with_1 no_listing_world 10 "/usr/bin/make-mp3.py" []).
  reflexivity.
Defined.

End Mp3Tracks.

(** ** vid2mkv.py and tifftopdf.py: the required tools *)

Section Tools.
Import Py Logged.

Lemma wbind_run {A B} (m : M A) (k : A -> M B) t :
  (x ← m; k x) t =
    match m t with
    | (Ret a, t') => k a t'
    | (Raise e, t') => (Raise e, t')
    | (Exit c, t') => (Exit c, t')
    | (Timeout, t') => (Timeout, t')
    end.
Proof. reflexivity. Qed.

(** [checkfor] on a list of strings: it runs the command, and either
    logs that it found the program or logs an error and exits with
    status 1. *)
Lemma vid2mkv_checkfor_found w a args rv t :
  Vid2mkv.call w (a :: args) = Status rv ->
  Vid2mkv.checkfor w (Many (a :: args)) rv t
    = (Ret tt, t ++ [Call (a :: args);
                     Log INFO ("found required program " +:+ quoted a)]).
Proof.
  intros H. unfold Vid2mkv.checkfor, try_except, Vid2mkv.subprocess_call.
  cbv [mbind M_bind bind mret M_ret ret raise lift emit arg0 sys_exit].
  rewrite H, Z.eqb_refl. cbn. now rewrite <- app_assoc.
Qed.

Lemma vid2mkv_checkfor_missing w a args rv t :
  Vid2mkv.call w (a :: args) <> Status rv ->
  exists msg,
    Vid2mkv.checkfor w (Many (a :: args)) rv t
      = (Exit 1, t ++ [Call (a :: args); Log ERROR msg]).
Proof.
  intros H. unfold Vid2mkv.checkfor, try_except, Vid2mkv.subprocess_call.
  cbv [mbind M_bind bind mret M_ret ret raise lift emit arg0 sys_exit].
  destruct (Vid2mkv.call w (a :: args)) as [rc|] eqn:Ec.
  - destruct (rc =? rv)%Z eqn:E; [apply Z.eqb_eq in E; congruence|].
    cbn. rewrite <- app_assoc. now eexists.
  - cbn. rewrite <- app_assoc. now eexists.
Qed.

Lemma tifftopdf_checkfor_found w a args rv t :
  Tifftopdf.call w (a :: args) = Status rv ->
  Tifftopdf.checkfor w (Many (a :: args)) rv t
    = (Ret tt, t ++ [Call (a :: args);
                     Log INFO ("found required program " +:+ quoted a)]).
Proof.
  intros H. unfold Tifftopdf.checkfor, try_except, Tifftopdf.subprocess_call.
  cbv [mbind M_bind bind mret M_ret ret raise lift emit arg0 sys_exit].
  rewrite H, Z.eqb_refl. cbn. now rewrite <- app_assoc.
Qed.

Lemma tifftopdf_checkfor_missing w a args rv t :
  Tifftopdf.call w (a :: args) <> Status rv ->
  exists msg,
    Tifftopdf.checkfor w (Many (a :: args)) rv t
      = (Exit 1, t ++ [Call (a :: args); Log ERROR msg]).
Proof.
  intros H. unfold Tifftopdf.checkfor, try_except, Tifftopdf.subprocess_call.
  cbv [mbind M_bind bind mret M_ret ret raise lift emit arg0 sys_exit].
  destruct (Tifftopdf.call w (a :: args)) as [rc|] eqn:Ec.
  - destruct (rc =? rv)%Z eqn:E; [apply Z.eqb_eq in E; congruence|].
    cbn. rewrite <- app_assoc. now eexists.
  - cbn. rewrite <- app_assoc. now eexists.
Qed.

(** A single string without a space is the command made of it. *)
Lemma tifftopdf_checkfor_one w a rv t :
  has_space a = false ->
  Tifftopdf.checkfor w (One a) rv t = Tifftopdf.checkfor w (Many [a]) rv t.
Proof. intros H. unfold Tifftopdf.checkfor. now rewrite H. Qed.

(** A machine without ffmpeg, and one where tiff2pdf is missing. *)
Definition no_ffmpeg : Vid2mkv.world := {|
  Vid2mkv.call := fun _ => NotStarted;
  Vid2mkv.strerror := fun _ => "No such file or directory";
  Vid2mkv.schedule := []
|}.

Definition no_tiff2pdf : Tifftopdf.world := {|
  Tifftopdf.call := fun args =>
    match args with
    | ["tiffinfo"] => Status 255
    | "tiff2pdf" :: _ => NotStarted
    | _ => Status 0
    end;
  Tifftopdf.strerror := fun _ => "No such file or directory";
  Tifftopdf.tiffinfo := fun _ => Tifftopdf.ProbeRaises CalledProcessError;
  Tifftopdf.schedule := []
|}.

(** Whole numbers standing in for floats where a run is evaluated. *)
Definition whole_truth (x : Z) : bool := negb (x =? 0)%Z.

(** C7: when the check for a required tool fails, because the tool
    cannot be started or answers the probe with another status than
    the expected one, [main] exits with status 1 and the only
    commands run are the probes: no file is converted. *)
Theorem missing_tool_exits_before_any_launch :
  (forall (w : Vid2mkv.world) args,
     Vid2mkv.call w ["ffmpeg"; "-version"] <> Status 0 ->
     exists msg,
       Vid2mkv.run w args
         = (Exit 1, [Call ["ffmpeg"; "-version"]; Log ERROR msg])) /\
  (forall float float_of_str truth div str_of_float (w : Tifftopdf.world) args,
     Tifftopdf.call w ["tiffinfo"] <> Status 255 ->
     exists msg,
       Tifftopdf.run float float_of_str truth div str_of_float w args
         = (Exit 1, [Call ["tiffinfo"]; Log ERROR msg])) /\
  (forall float float_of_str truth div str_of_float (w : Tifftopdf.world) args,
     Tifftopdf.call w ["tiffinfo"] = Status 255 ->
     Tifftopdf.call w ["tiff2pdf"; "-v"] <> Status 0 ->
     exists msg1 msg2,
       Tifftopdf.run float float_of_str truth div str_of_float w args
         = (Exit 1, [Call ["tiffinfo"]; Log INFO msg1;
                    Call ["tiff2pdf"; "-v"]; Log ERROR msg2])).
Proof.
  split; [|split].
  - intros w args H. unfold Vid2mkv.run, Vid2mkv.main.
    destruct (vid2mkv_checkfor_missing w _ _ 0 [] H) as [msg Hc].
    exists msg. now rewrite wbind_run, Hc.
  - intros float fos truth div sof w args H.
    unfold Tifftopdf.run, Tifftopdf.main.
    destruct (tifftopdf_checkfor_missing w _ _ 255 [] H) as [msg Hc].
    exists msg. rewrite wbind_run, tifftopdf_checkfor_one by reflexivity.
    now rewrite Hc.
  - intros float fos truth div sof w args H1 H2.
    unfold Tifftopdf.run, Tifftopdf.main.
    rewrite wbind_run, tifftopdf_checkfor_one by reflexivity.
    rewrite (tifftopdf_checkfor_found w _ _ 255 [] H1).
    destruct (tifftopdf_checkfor_missing w _ _ 0
                ([] ++ [Call ["tiffinfo"];
                        Log INFO ("found required program " +:+ quoted "tiffinfo")]) H2)
      as [msg Hc].
    eexists _, msg. now rewrite wbind_run, Hc.
Qed.

Lemma missing_tool_exits_before_any_launch_witness :
  (exists msg,
     Vid2mkv.run no_ffmpeg
         {| Vid2mkv.videoquality := 6; Vid2mkv.audioquality := 3;
            Vid2mkv.files := ["a.avi"; "b.mp4"] |}
       = (Exit 1, [Call ["ffmpeg"; "-version"]; Log ERROR msg])) /\
  (exists msg1 msg2,
     Tifftopdf.run Z int whole_truth Z.div str no_tiff2pdf
         {| Tifftopdf.jpeg := false; Tifftopdf.quality := 85;
            Tifftopdf.files := ["scan.tif"] |}
       = (Exit 1, [Call ["tiffinfo"]; Log INFO msg1;
                  Call ["tiff2pdf"; "-v"]; Log ERROR msg2])).
Proof.
  split.
  - apply (proj1 missing_tool_exits_before_any_launch no_ffmpeg).
    simpl. discriminate.
  - apply (proj2 (proj2 missing_tool_exits_before_any_launch)
             Z int whole_truth Z.div str no_tiff2pdf).
    + reflexivity.
    + simpl. discriminate.
Defined.

End Tools.

(** ** tifftopdf.py: one file *)

Section Tiffconv.
Import Py Logged Tifftopdf.

Variable float : Type.
Variable float_of_str : string -> option float.
Variable truth : float -> bool.
Variable div : float -> float -> float.
Variable str_of_float : float -> string.

Let tiffconv := Tifftopdf.tiffconv float float_of_str truth div str_of_float.
Let tiffconv_body := Tifftopdf.tiffconv_body float float_of_str truth div str_of_float.
Let resolution := Tifftopdf.resolution float float_of_str.

(** Code that returns a value satisfying [P] or raises, and neither
    exits nor runs out of fuel. *)
Definition yields {A} (P : A -> Prop) (m : M A) : Prop :=
  forall t,
    match fst (m t) with
    | Ret a => P a
    | Raise _ => True
    | _ => False
    end.

Definition ryields {A} (P : A -> Prop) (r : result A) : Prop :=
  match r with
  | Ret a => P a
  | Raise _ => True
  | _ => False
  end.

Lemma yields_bind {A B} (Q : A -> Prop) (P : B -> Prop) (m : M A) (k : A -> M B) :
  yields Q m -> (forall a, Q a -> yields P (k a)) -> yields P (x ← m; k x).
Proof.
  intros Hm Hk t. specialize (Hm t).
  cbv [mbind M_bind bind]. destruct (m t) as [[a|e|c|] t1]; simpl in *; try done.
  now apply Hk.
Qed.

Lemma ryields_bind {A B} (Q : A -> Prop) (P : B -> Prop) (r : result A) (k : A -> result B) :
  ryields Q r -> (forall a, Q a -> ryields P (k a)) -> ryields P (x ← r; k x).
Proof. intros Hr Hk. destruct r; simpl in *; try done. now apply Hk. Qed.

Lemma yields_emit e : yields (fun _ => True) (emit e).
Proof. now intros t. Qed.

Lemma yields_lift {A} (P : A -> Prop) r : ryields P r -> yields P (lift r).
Proof. intros H t. exact H. Qed.

Lemma ryields_item txt i : ryields (fun _ => True) (item txt i).
Proof. unfold item. now destruct (txt !! i). Qed.

Lemma ryields_to_float s : ryields (fun _ => True) (to_float float float_of_str s).
Proof. unfold to_float. now destruct (float_of_str s). Qed.

Lemma ryields_resolution txt : ryields (fun _ => True) (resolution txt).
Proof.
  unfold resolution, Tifftopdf.resolution, except_ValueError.
  match goal with |- ryields _ (match ?r with _ => _ end) =>
    assert (H : ryields (fun _ => True) r); [|destruct r as [?|[]| |]; done] end.
  eapply (ryields_bind (fun _ => True)); [now destruct (index _ txt)|]. intros i _.
  eapply (ryields_bind (fun _ => True)); [apply ryields_item|]. intros s1 _.
  eapply (ryields_bind (fun _ => True)); [apply ryields_to_float|]. intros x _.
  eapply (ryields_bind (fun _ => True)); [apply ryields_item|]. intros s2 _.
  eapply (ryields_bind (fun _ => True)); [apply ryields_to_float|]. now intros y _.
Qed.

Lemma yields_subprocess_call w args : yields (fun _ => True) (subprocess_call w args).
Proof.
  unfold subprocess_call. eapply (yields_bind (fun _ => True)); [apply yields_emit|]. intros _ _ t.
  now destruct (call w args).
Qed.

(** The body of [tiffconv] returns a pair for its file, or raises. *)
Lemma yields_tiffconv_body w fname jpeg quality :
  yields (fun r => fst r = fname) (tiffconv_body w fname jpeg quality).
Proof.
  unfold tiffconv_body, Tifftopdf.tiffconv_body.
  eapply (yields_bind (fun _ => True)); [apply yields_emit|]. intros _ _.
  eapply (yields_bind (fun _ => True)); [intros t; now destruct (tiffinfo w fname)|].
  intros txt _.
  eapply (yields_bind (fun _ => True)); [intros t; now destruct (index _ _)|].
  intros i _.
  eapply (yields_bind (fun _ => True)).
  { apply yields_lift. eapply (ryields_bind (fun _ => True)); [apply ryields_item|].
    intros; apply ryields_to_float. }
  intros width _.
  eapply (yields_bind (fun _ => True)).
  { apply yields_lift. eapply (ryields_bind (fun _ => True)); [apply ryields_item|].
    intros; apply ryields_to_float. }
  intros length _.
  eapply (yields_bind (fun _ => True)); [apply yields_lift, ryields_resolution|].
  intros res _. destruct (page_args _ _ _ _ _ _ _ _ _) as [args a4].
  eapply (yields_bind (fun _ => True)); [destruct a4; [apply yields_emit|done]|].
  intros _ _.
  eapply (yields_bind (fun _ => True)); [apply yields_emit|]. intros _ _.
  eapply (yields_bind (fun _ => True)); [apply yields_subprocess_call|]. intros rv _.
  eapply (yields_bind (fun _ => True)); [apply yields_emit|]. now intros _ _ t.
Qed.

(** [tiffconv] never raises: whatever happens inside, it returns a
    pair for its file. *)
Lemma tiffconv_returns w fname jpeg quality t :
  exists rv t', tiffconv w fname jpeg quality t = (Ret (fname, rv), t').
Proof.
  unfold tiffconv, Tifftopdf.tiffconv, try_except.
  pose proof (yields_tiffconv_body w fname jpeg quality t) as H.
  fold tiffconv_body.
  destruct (tiffconv_body w fname jpeg quality t) as [[[fn rv]|e|c|] t'];
    simpl in H; try done.
  - subst. now eexists _, _.
  - now eexists _, _.
Qed.

(** C4, on the code: when anything raised while the conversion of
    a file was being started, [tiffconv] does not raise, but the pair
    it returns carries the status 0 of a success, and [main] logs the
    file as finished. *)
Theorem launch_failure_reported_as_success w fname jpeg quality t e t' :
  tiffconv_body w fname jpeg quality t = (Raise e, t') ->
  tiffconv w fname jpeg quality t
    = (Ret (fname, 0%Z), t' ++ [LogFailure fname e]) /\
  forall u,
    report_all [Ret (fname, 0%Z)] u
      = (Ret tt, u ++ [Log INFO ("finished " +:+ quoted fname)]).
Proof.
  intros H. split.
  - unfold tiffconv, Tifftopdf.tiffconv, try_except. fold tiffconv_body.
    now rewrite H.
  - intros u. reflexivity.
Qed.




End Tiffconv.

Section TiffconvRuns.
Import Py Logged Tifftopdf.

(** A machine where both tools answer the probes but tiff2pdf cannot
    be started for a conversion, as when the system has run out of
    processes.  tiffinfo describes every file as a 800 by 600 image at
    300 dots per inch, except 'fax.tif', which has no resolution. *)
Definition unstartable : world := {|
  call := fun args =>
    match args with
    | ["tiffinfo"] => Status 255
    | ["tiff2pdf"; "-v"] => Status 0
    | _ => NotStarted
    end;
  strerror := fun _ => "Resource temporarily unavailable";
  tiffinfo := fun _ =>
    Text "Image Width: 800 Image Length: 600 Resolution: 300, 300 pixels/inch";
  schedule := []
|}.


Lemma launch_failure_reported_as_success_witness :
  tiffconv Z int whole_truth Z.div str unstartable "scan.tif" false 85 []
    = (Ret ("scan.tif", 0%Z),
       [Call ["tiffinfo"; "scan.tif"];
        Log INFO ("calling " +:+ quoted "tiff2pdf -w 2 -l 2 -x 300 -y 300 -o scan.pdf scan.tif");
        Call ["tiff2pdf"; "-w"; "2"; "-l"; "2"; "-x"; "300"; "-y"; "300";
              "-o"; "scan.pdf"; "scan.tif"]]
       ++ [LogFailure "scan.tif" OSError]) /\
  forall u,
    report_all [Ret ("scan.tif", 0%Z)] u
      = (Ret tt, u ++ [Log INFO ("finished " +:+ quoted "scan.tif")]).
Proof.
  apply (launch_failure_reported_as_success Z int whole_truth Z.div str
           unstartable "scan.tif" false 85 [] OSError).
  vm_compute. reflexivity.
Defined.




End TiffconvRuns.

(** ** The names of the output files *)

Section OutputNames.
Import Py Logged.

Lemma append_nil t : "" +:+ t = t.
Proof. reflexivity. Qed.

Lemma append_cons c s t : String c s +:+ t = String c (s +:+ t).
Proof. reflexivity. Qed.

Lemma length_append s t :
  String.length (s +:+ t) = String.length s + String.length t.
Proof.
  induction s as [|c s IH]; [done|]. rewrite append_cons. simpl. now rewrite IH.
Qed.

Lemma append_inv_head s : forall a b, s +:+ a = s +:+ b -> a = b.
Proof.
  induction s as [|c s IH]; intros a b H.
  - now rewrite !append_nil in H.
  - rewrite !append_cons in H. inversion H. auto.
Qed.

Lemma substring_all s : substring 0 (String.length s) s = s.
Proof. induction s as [|c s IH]; simpl; [done|]. now rewrite IH. Qed.

(** A text is its first [n] characters followed by the others. *)
Lemma substring_split s : forall n,
  n <= String.length s ->
  substring 0 n s +:+ substring n (String.length s - n) s = s.
Proof.
  induction s as [|c s IH]; intros [|n] Hn; simpl in *; try lia; try done.
  - now rewrite append_nil, substring_all.
  - rewrite append_cons, IH by lia. done.
Qed.

Lemma rfind_from_range c s : forall i,
  rfind_from i c s = (-1)%Z \/
  (i <= rfind_from i c s < i + Z.of_nat (String.length s))%Z.
Proof.
  induction s as [|d s IH]; intros i; simpl; [now left|].
  destruct (IH (i + 1)%Z) as [H|H].
  - rewrite H. simpl. destruct (Ascii.eqb d c); [right; lia|now left].
  - destruct (0 <=? rfind_from (i + 1) c s)%Z eqn:E; [right; lia|].
    destruct (Ascii.eqb d c); [right; lia|now left].
Qed.

(** [os.path.splitext] cuts the name in two. *)
Lemma splitext_concat p : fst (splitext p) +:+ snd (splitext p) = p.
Proof.
  unfold splitext.
  destruct ((rfind "/" p <? rfind "." p)%Z && has_non_dot _ _ _ _) eqn:E; simpl.
  - apply andb_prop in E as [E _]. apply Z.ltb_lt in E.
    unfold rfind in *.
    destruct (rfind_from_range "/" p 0) as [Hs|Hs],
             (rfind_from_range "." p 0) as [Hd|Hd]; try lia;
      unfold slice, len;
      set (d := rfind_from 0 "." p) in *;
      replace (Z.to_nat 0) with 0 by lia;
      replace (Z.to_nat (d - 0)) with (Z.to_nat d) by lia;
      replace (Z.to_nat (Z.of_nat (String.length p) - d))
        with (String.length p - Z.to_nat d) by lia;
      apply substring_split; lia.
  - clear E. induction p as [|c p IH]; [done|]. now rewrite append_cons, IH.
Qed.

(** What [runencoder] passes to ffmpeg as the output file. *)
Lemma ofn_of_splitext fname :
  Vid2mkv.ofn_of fname = fst (splitext fname) +:+ ".mkv".
Proof. unfold Vid2mkv.ofn_of. now destruct (splitext fname). Qed.

Lemma runencoder_output w fname vq aq t :
  Vid2mkv.mem (lower (snd (splitext fname))) Vid2mkv.known = true ->
  exists r line rest,
    Vid2mkv.runencoder w fname vq aq t
      = (r, t ++ [Log INFO line;
                  Call ["ffmpeg"; "-i"; fname; "-c:v"; "libtheora"; "-q:v"; str vq;
                        "-c:a"; "libvorbis"; "-q:a"; str aq; "-sn"; "-y";
                        Vid2mkv.ofn_of fname]] ++ rest).
Proof.
  intros H. rewrite ofn_of_splitext. unfold Vid2mkv.runencoder.
  destruct (splitext fname) as [base ext]. simpl in *. rewrite H. simpl.
  unfold Vid2mkv.subprocess_call.
  cbv [mbind M_bind bind mret M_ret ret raise lift emit].
  destruct (Vid2mkv.call w _).
  - eexists _, _, [_]. rewrite <- !app_assoc. reflexivity.
  - eexists _, _, []. rewrite <- !app_assoc. reflexivity.
Qed.

Lemma lower_char_dot a : lower_char a = "."%char -> a = "."%char.
Proof.
  destruct a as [[] [] [] [] [] [] [] []]; vm_compute; intros H;
    first [reflexivity | discriminate H].
Qed.

(** The pattern cannot match at the start of a text of seven
    characters or more: its match is followed by a newline at most. *)
Lemma match_here_long s : 7 <= String.length s -> Tifftopdf.match_here s = None.
Proof.
  intros H.
  destruct s as [|c1 [|c2 [|c3 [|c4 [|c5 [|c6 [|c7 s]]]]]]]; simpl in H; try lia.
  unfold Tifftopdf.match_here.
  destruct (_ && _); [|done]. simpl.
  now destruct (Tifftopdf.same_letter "f" c5).
Qed.

Lemma re_sub_cons c s :
  Tifftopdf.match_here (String c s) = None ->
  Tifftopdf.re_sub (String c s) = String c (Tifftopdf.re_sub s).
Proof.
  intros H. change (Tifftopdf.re_sub (String c s))
    with (match Tifftopdf.match_here (String c s) with
          | Some rest => ".pdf" +:+ rest
          | None => String c (Tifftopdf.re_sub s)
          end).
  now rewrite H.
Qed.

Lemma re_sub_match s rest :
  Tifftopdf.match_here s = Some rest -> Tifftopdf.re_sub s = ".pdf" +:+ rest.
Proof.
  intros H. destruct s as [|c s]; [discriminate H|].
  change (Tifftopdf.re_sub (String c s))
    with (match Tifftopdf.match_here (String c s) with
          | Some rest => ".pdf" +:+ rest
          | None => String c (Tifftopdf.re_sub s)
          end).
  now rewrite H.
Qed.

Lemma lower_char_not_newline e x :
  lower_char e = x -> x <> ascii_of_nat 10 -> Ascii.eqb e (ascii_of_nat 10) = false.
Proof.
  intros H Hx. destruct (Ascii.eqb_spec e (ascii_of_nat 10)) as [->|]; [|done].
  exfalso. apply Hx. now rewrite <- H.
Qed.

Lemma re_sub_tif b c d : forall stem,
  lower_char b = "t"%char -> lower_char c = "i"%char -> lower_char d = "f"%char ->
  Tifftopdf.re_sub (stem +:+ String "." (String b (String c (String d ""))))
    = stem +:+ ".pdf".
Proof.
  intros stem Hb Hc Hd. induction stem as [|x stem IH].
  - rewrite !append_nil. apply re_sub_match.
    unfold Tifftopdf.match_here, Tifftopdf.same_letter.
    rewrite Hb, Hc, Hd. reflexivity.
  - rewrite !append_cons, re_sub_cons; [now rewrite IH|].
    destruct stem as [|y [|z stem]].
    + rewrite append_nil. unfold Tifftopdf.match_here.
      now destruct (Ascii.eqb x ".").
    + rewrite append_cons, append_nil. unfold Tifftopdf.match_here.
      now destruct (Ascii.eqb x "."), (Tifftopdf.same_letter "t" y).
    + apply match_here_long. rewrite !append_cons. simpl.
      rewrite length_append. simpl. lia.
Qed.

Lemma re_sub_tiff b c d e : forall stem,
  lower_char b = "t"%char -> lower_char c = "i"%char ->
  lower_char d = "f"%char -> lower_char e = "f"%char ->
  Tifftopdf.re_sub (stem +:+ String "." (String b (String c (String d (String e "")))))
    = stem +:+ ".pdf".
Proof.
  intros stem Hb Hc Hd He. induction stem as [|x stem IH].
  - rewrite !append_nil. apply re_sub_match.
    unfold Tifftopdf.match_here, Tifftopdf.same_letter, Tifftopdf.at_dollar.
    rewrite Hb, Hc, Hd, He, (lower_char_not_newline e "f" He) by discriminate.
    reflexivity.
  - rewrite !append_cons, re_sub_cons; [now rewrite IH|].
    destruct stem as [|y stem].
    + rewrite append_nil. unfold Tifftopdf.match_here.
      now destruct (Ascii.eqb x ".").
    + apply match_here_long. rewrite !append_cons. simpl.
      rewrite length_append. simpl. lia.
Qed.

(** A name that ends in .tif or .tiff, in any case, gets .pdf instead. *)
Lemma re_sub_extension stem ext :
  lower ext = ".tif" \/ lower ext = ".tiff" ->
  Tifftopdf.re_sub (stem +:+ ext) = stem +:+ ".pdf".
Proof.
  intros [H|H].
  - destruct ext as [|a [|b [|c [|d [|e ext]]]]]; try discriminate H.
    simpl in H. injection H as Ha Hb Hc Hd.
    apply lower_char_dot in Ha. subst a. now apply re_sub_tif.
  - destruct ext as [|a [|b [|c [|d [|e [|f ext]]]]]]; try discriminate H.
    simpl in H. injection H as Ha Hb Hc Hd He.
    apply lower_char_dot in Ha. subst a. now apply re_sub_tiff.
Qed.

(** The two names [trackdata] gives a track are built on the same
    number. *)
Definition named (t : MakeMp3.tinfo) : Prop :=
  exists f, MakeMp3.ifname t = "track" +:+ f +:+ ".cdda.wav" /\
            MakeMp3.ofname t = "track" +:+ f +:+ ".mp3".

Lemma track_lines_named w album artist : forall lines tracks r,
  Forall named tracks ->
  MakeMp3.track_lines w album artist lines tracks = Ret r ->
  Forall named r.
Proof.
  induction lines as [|l lines IH]; intros tracks r Hn H; simpl in H.
  - inversion H; subst. exact Hn.
  - destruct (split l) as [|word words]; [eauto|].
    destruct (int word) as [n|]; [|discriminate H].
    destruct (MakeMp3.access w _); [|eauto].
    eapply IH; [|exact H]. apply Forall_app. split; [done|].
    constructor; [|constructor]. now exists (format_02d n).
Qed.

Lemma named_differ t : named t -> MakeMp3.ofname t <> MakeMp3.ifname t.
Proof.
  intros (f & Hi & Ho) H. rewrite Hi, Ho in H.
  apply append_inv_head, append_inv_head in H. discriminate H.
Qed.

(** C6 as stated fails: vid2mkv.py accepts a file named 'film.mkv'
    and tells ffmpeg to write the file 'film.mkv'. *)
Lemma output_name_collision_counterexample :
  Vid2mkv.mem (lower (snd (splitext "film.mkv"))) Vid2mkv.known = true /\
  Vid2mkv.ofn_of "film.mkv" = "film.mkv" /\
  fst (Vid2mkv.runencoder no_ffmpeg "film.mkv" 6 3 [])
    = Raise OSError /\
  Call ["ffmpeg"; "-i"; "film.mkv"; "-c:v"; "libtheora"; "-q:v"; "6";
        "-c:a"; "libvorbis"; "-q:a"; "3"; "-sn"; "-y"; "film.mkv"]
    ∈ snd (Vid2mkv.runencoder no_ffmpeg "film.mkv" 6 3 []).
Proof.
  split; [reflexivity|]. split; [reflexivity|]. split; [reflexivity|].
  vm_compute. apply list_elem_of_further, list_elem_of_here.
Qed.

(** C6, amended: the name of the output file is a function of the
    name of the input file.  For the tracks of make-mp3.py the two
    differ.  vid2mkv.py puts '.mkv' in place of the extension and hands
    that name to ffmpeg for every file it accepts, so that the two
    names are equal exactly when the extension is '.mkv' already.
    tifftopdf.py puts '.pdf' in place of an ending '.tif' or '.tiff',
    in any case, and then the two differ. *)
Theorem output_name_differs_unless_mkv :
  (forall w tracks,
     MakeMp3.trackdata w = Ret tracks ->
     Forall (fun t => MakeMp3.ofname t <> MakeMp3.ifname t) tracks) /\
  (forall fname,
     Vid2mkv.ofn_of fname = fst (splitext fname) +:+ ".mkv" /\
     (Vid2mkv.ofn_of fname = fname <-> snd (splitext fname) = ".mkv")) /\
  (forall w fname vq aq t,
     Vid2mkv.mem (lower (snd (splitext fname))) Vid2mkv.known = true ->
     exists r line rest,
       Vid2mkv.runencoder w fname vq aq t
         = (r, t ++ [Log INFO line;
                     Call ["ffmpeg"; "-i"; fname; "-c:v"; "libtheora"; "-q:v"; str vq;
                           "-c:a"; "libvorbis"; "-q:a"; str aq; "-sn"; "-y";
                           Vid2mkv.ofn_of fname]] ++ rest)) /\
  (forall stem ext,
     lower ext = ".tif" \/ lower ext = ".tiff" ->
     Tifftopdf.re_sub (stem +:+ ext) = stem +:+ ".pdf" /\
     Tifftopdf.re_sub (stem +:+ ext) <> stem +:+ ext).
Proof.
  split; [|split; [|split]].
  - intros w tracks H. unfold MakeMp3.trackdata in H.
    assert (Hn : Forall named tracks).
    { destruct (MakeMp3.titels w) as [lines|]; [|inversion H; constructor].
      destruct lines as [|l1 [|l2 lines]]; try discriminate H.
      simpl in H. eapply track_lines_named; [|exact H]. constructor. }
    eapply Forall_impl; [exact Hn|]. apply named_differ.
  - intros fname. split; [apply ofn_of_splitext|].
    rewrite ofn_of_splitext. pose proof (splitext_concat fname) as Hc.
    split.
    + intros H. apply (append_inv_head (fst (splitext fname))).
      rewrite Hc. now symmetry.
    + intros H. now rewrite <- H, Hc.
  - apply runencoder_output.
  - intros stem ext H. rewrite (re_sub_extension stem ext H).
    split; [done|]. intros Heq. apply append_inv_head in Heq. subst ext.
    destruct H as [H|H]; discriminate H.
Qed.

Lemma output_name_differs_unless_mkv_witness :
  (Vid2mkv.ofn_of "holiday.AVI" = "holiday.mkv") /\
  (Tifftopdf.re_sub ("scan" +:+ ".TIF") = "scan" +:+ ".pdf" /\
   Tifftopdf.re_sub ("scan" +:+ ".TIF") <> "scan" +:+ ".TIF") /\
  Forall (fun t => MakeMp3.ofname t <> MakeMp3.ifname t) demo_tracks.
Proof.
  split; [|split].
  - apply (proj1 (proj1 (proj2 output_name_differs_unless_mkv) "holiday.AVI")).
  - apply (proj2 (proj2 (proj2 output_name_differs_unless_mkv)) "scan" ".TIF").
    left. reflexivity.
  - apply (proj1 output_name_differs_unless_mkv demo_world demo_tracks).
    vm_compute. reflexivity.
Defined.

End OutputNames.

(** ** vid2mkv.py: the failures are listed *)

Section Pool.
Import Py Logged.

(** A call that writes its next record: the records still to come are
    the same, but for that one. *)
Lemma concat_insert_head (queues : list (list event)) i e q :
  queues !! i = Some (e :: q) ->
  concat queues ≡ₚ e :: concat (<[i := q]> queues).
Proof.
  revert i. induction queues as [|q0 queues IH]; intros [|i] H; simpl in *; try done.
  - now inversion H.
  - rewrite (IH i H). symmetry. apply Permutation_middle.
Qed.

(** Whatever the schedule, the pool writes the records of the calls
    and of the rounds of the loop, each once. *)
Lemma serve_perm sched : forall queues k reads,
  serve sched queues k reads ≡ₚ concat queues ++ concat reads.
Proof.
  induction sched as [|i sched IH]; intros queues k reads; [done|].
  simpl. destruct (queues !! i) as [[|e q]|] eqn:Ei.
  - apply IH.
  - rewrite IH, (concat_insert_head queues i e q Ei). done.
  - destruct reads as [|evs reads]; [apply IH|].
    destruct (queues !! k) as [[|e q]|]; try apply IH.
    rewrite IH. simpl. rewrite !app_assoc. apply Permutation_app_tail.
    apply Permutation_app_comm.
Qed.

(** The records of the loop come in the order of its rounds: what the
    schedule changes is only where the records of the calls fall
    between them. *)
Lemma serve_filter (P : event -> bool) sched : forall queues k reads,
  Forall (Forall (fun e => P e = false)) queues ->
  Forall (Forall (fun e => P e = true)) reads ->
  List.filter P (serve sched queues k reads) = concat reads.
Proof.
  assert (Hq : forall queues : list (list event),
            Forall (Forall (fun e => P e = false)) queues ->
            List.filter P (concat queues) = []).
  { intros queues H. apply filter_none. now apply Forall_concat. }
  assert (Hr : forall reads : list (list event),
            Forall (Forall (fun e => P e = true)) reads ->
            List.filter P (concat reads) = concat reads).
  { intros reads H. apply filter_all. now apply Forall_concat. }
  induction sched as [|i sched IH]; intros queues k reads Hqueues Hreads.
  - simpl. now rewrite List.filter_app, Hq, Hr.
  - simpl. destruct (queues !! i) as [[|e q]|] eqn:Ei.
    + now apply IH.
    + pose proof (Forall_lookup_1 _ _ _ _ Hqueues Ei) as He.
      apply Forall_cons in He as [He Hrest]. simpl. rewrite He.
      apply IH; [|done]. now apply Forall_insert.
    + destruct reads as [|evs reads]; [now apply IH|].
      destruct (queues !! k) as [[|e q]|]; try now apply IH.
      apply Forall_cons in Hreads as [Hevs Hreads].
      rewrite List.filter_app, (filter_all _ _ Hevs). simpl. f_equal.
      now apply IH.
Qed.

End Pool.

Section Vid2mkvFailures.
Import Py Logged Vid2mkv.

Lemma printed_app t u : printed (t ++ u) = printed t ++ printed u.
Proof.
  induction t as [|e t IH]; simpl; [done|]. destruct e; simpl; now rewrite IH.
Qed.

(** The commands run among the events. *)
Fixpoint calls (t : list event) : list (list string) :=
  match t with
  | [] => []
  | Call args :: t' => args :: calls t'
  | _ :: t' => calls t'
  end.

(** The files [runencoder] converts, the command it runs for one, and
    what a call of it comes to. *)
Definition is_known (fname : string) : bool :=
  mem (lower (snd (splitext fname))) known.

Definition ffmpeg_args (vq aq : Z) (fname : string) : list string :=
  ["ffmpeg"; "-i"; fname; "-c:v"; "libtheora"; "-q:v"; str vq;
   "-c:a"; "libvorbis"; "-q:a"; str aq; "-sn"; "-y"; ofn_of fname].

Definition conv (w : world) (vq aq : Z) (fname : string) : result (string * Z) :=
  if is_known fname
  then match call w (ffmpeg_args vq aq fname) with
       | Status rv => Ret (fname, rv)
       | NotStarted => Raise OSError
       end
  else Ret (fname, 0%Z).

Lemma calls_app t u : calls (t ++ u) = calls t ++ calls u.
Proof.
  induction t as [|e t IH]; simpl; [done|]. destruct e; simpl; now rewrite IH.
Qed.

Lemma runencoder_run w fname vq aq t :
  exists evs,
    runencoder w fname vq aq t = (conv w vq aq fname, t ++ evs) /\
    printed evs = [] /\
    calls evs = if is_known fname then [ffmpeg_args vq aq fname] else [].
Proof.
  unfold runencoder, conv, is_known, ffmpeg_args. rewrite ofn_of_splitext.
  destruct (splitext fname) as [base ext]. cbn [fst snd].
  destruct (mem (lower ext) known); cbn [negb].
  - unfold subprocess_call.
    cbv [mbind M_bind bind mret M_ret ret raise lift emit].
    destruct (call w _) as [rc|].
    + eexists [_; _; _]. rewrite <- !app_assoc. now repeat split.
    + eexists [_; _]. rewrite <- !app_assoc. now repeat split.
  - eexists [_]. now repeat split.
Qed.

(** The lines printed and the commands run do not depend on the
    order of the other records. *)
Lemma printed_perm t u : t ≡ₚ u -> printed t ≡ₚ printed u.
Proof.
  induction 1 as [|e t u _ IH|e1 e2 t|t u v _ IH1 _ IH2]; simpl.
  - done.
  - destruct e; simpl; now rewrite IH.
  - destruct e1, e2; simpl; try done. apply perm_swap.
  - now rewrite IH1.
Qed.

Lemma calls_perm t u : t ≡ₚ u -> calls t ≡ₚ calls u.
Proof.
  induction 1 as [|e t u _ IH|e1 e2 t|t u v _ IH1 _ IH2]; simpl.
  - done.
  - destruct e; simpl; now rewrite IH.
  - destruct e1, e2; simpl; try done. apply perm_swap.
  - now rewrite IH1.
Qed.

(** The calls of [runencoder] the pool makes, each on its own. *)
Lemma futures_run w vq aq : forall names,
  let futures := map (fun f => runencoder w f vq aq []) names in
  map fst futures = map (conv w vq aq) names /\
  printed (concat (map snd futures)) = [] /\
  calls (concat (map snd futures))
    = map (ffmpeg_args vq aq) (List.filter is_known names).
Proof.
  induction names as [|f names (IH1 & IH2 & IH3)]; [done|].
  destruct (runencoder_run w f vq aq []) as (evs & Hrun & Hp & Hc).
  simpl in *. rewrite Hrun. simpl. rewrite IH1, printed_app, calls_app, Hp, Hc, IH2, IH3.
  split; [done|]. split; [done|]. now destruct (is_known f).
Qed.

(** The pool runs [runencoder] on every file; the results come back
    in the order of the files, whatever the order in which the calls
    got to run. *)
Lemma tp_map_run w vq aq sched names t :
  exists evs,
    tp_map sched (fun fname => runencoder w fname vq aq) names t
      = (Ret (map (conv w vq aq) names), t ++ evs) /\
    printed evs = [] /\
    calls evs ≡ₚ map (ffmpeg_args vq aq) (List.filter is_known names).
Proof.
  destruct (futures_run w vq aq names) as (H1 & H2 & H3).
  eexists. unfold tp_map. rewrite H1. split; [reflexivity|].
  pose proof (serve_perm sched
                (map snd (map (fun f => runencoder w f vq aq []) names)) 0 [])
    as Hperm.
  simpl in Hperm. rewrite app_nil_r in Hperm. split.
  - apply Permutation_nil_r. rewrite <- H2. now apply printed_perm.
  - rewrite <- H3. now apply calls_perm.
Qed.

(** The status kept for a file: that of ffmpeg, or 0 for a file that
    is not converted. *)
Definition status (w : world) (vq aq : Z) (fname : string) : Z :=
  if is_known fname
  then match call w (ffmpeg_args vq aq fname) with
       | Status rv => rv
       | NotStarted => 0%Z
       end
  else 0%Z.

(** A conversion that could not be started. *)
Definition unstarted (w : world) (vq aq : Z) (fname : string) : bool :=
  is_known fname &&
  match call w (ffmpeg_args vq aq fname) with
  | Status _ => false
  | NotStarted => true
  end.

Lemma results_conv w vq aq : forall names,
  results (map (conv w vq aq) names)
    = if existsb (unstarted w vq aq) names
      then Raise OSError
      else Ret (map (fun f => (f, status w vq aq f)) names).
Proof.
  induction names as [|f names IH]; [done|].
  simpl. rewrite IH. unfold conv, unstarted, status.
  destruct (is_known f); simpl.
  - destruct (call w _); simpl; [|done]. now destruct (existsb _ names).
  - now destruct (existsb _ names).
Qed.

Lemma existsb_false {A} (f : A -> bool) l :
  (forall x, x ∈ l -> f x = false) -> existsb f l = false.
Proof.
  induction l as [|x l IH]; intros H; simpl; [done|].
  rewrite (H x) by apply list_elem_of_here. apply IH.
  intros y Hy. apply H. now apply list_elem_of_further.
Qed.

Lemma existsb_true {A} (f : A -> bool) l x :
  x ∈ l -> f x = true -> existsb f l = true.
Proof.
  intros Hx Hf. induction l as [|y l IH]; [now apply elem_of_nil in Hx|].
  apply elem_of_cons in Hx as [->|Hx]; simpl; [now rewrite Hf|].
  rewrite IH by done. now destruct (f y).
Qed.

Lemma results_all {A} (convs : list A) : results (map Ret convs) = Ret convs.
Proof. induction convs as [|c convs IH]; simpl; [done|]. now rewrite IH. Qed.

Lemma print_failures_run : forall convs t,
  print_failures convs t = (Ret tt, t ++ map Print (map failure_line convs)).
Proof.
  induction convs as [|[fn rv] convs IH]; intros t; simpl.
  - now rewrite app_nil_r.
  - cbv [mbind M_bind bind emit]. rewrite IH, <- app_assoc. reflexivity.
Qed.

Lemma printed_prints lines : printed (map Print lines) = lines.
Proof. induction lines as [|l lines IH]; simpl; [done|]. now rewrite IH. Qed.

(** Only converted files can have failed. *)
Lemma failed_known w vq aq : forall l,
  List.filter failed (map (fun f => (f, status w vq aq f)) l)
    = List.filter failed
        (map (fun f => (f, status w vq aq f)) (List.filter is_known l)).
Proof.
  induction l as [|f l IH]; [done|]. simpl.
  destruct (is_known f) eqn:E; simpl.
  - destruct (failed _); now rewrite IH.
  - unfold failed at 1, status at 1. rewrite E. exact IH.
Qed.

(** What [main] does once ffmpeg is found. *)
Lemma main_found w args :
  call w ["ffmpeg"; "-version"] = Status 0 ->
  exists evs rest,
    printed evs = [] /\
    calls evs = ["ffmpeg"; "-version"] :: rest /\
    rest ≡ₚ map (ffmpeg_args (videoquality args) (audioquality args))
              (List.filter is_known (files args)) /\
    run w args =
      if existsb (unstarted w (videoquality args) (audioquality args)) (files args)
      then (Raise OSError, evs)
      else (Ret tt,
            evs ++ map Print
                     (map failure_line
                        (List.filter failed
                           (map (fun f => (f, status w (videoquality args)
                                                (audioquality args) f))
                                (files args))))).
Proof.
  intros Hprobe. unfold run, main.
  rewrite wbind_run, (vid2mkv_checkfor_found w _ _ 0 [] Hprobe), wbind_run.
  destruct (tp_map_run w (videoquality args) (audioquality args) (schedule w)
              (files args)
              ([] ++ [Call ["ffmpeg"; "-version"];
                      Log INFO ("found required program " +:+ quoted "ffmpeg")]))
    as (evs & Hrun & Hp & Hc).
  rewrite Hrun, wbind_run. unfold lift at 1. rewrite results_conv.
  eexists _, (calls evs). split; [|split; [|split]]; cycle 3.
  - destruct (existsb _ (files args)); [reflexivity|].
    now rewrite print_failures_run.
  - now rewrite printed_app, Hp.
  - now rewrite calls_app.
  - exact Hc.
Qed.

(** With ffmpeg in place, [main] converts every file, whatever the
    status of the others, and prints one line for each conversion that
    ended with a status other than 0, in the order of the files. *)
Lemma every_failure_printed w args :
  call w ["ffmpeg"; "-version"] = Status 0 ->
  (forall a, call w a <> NotStarted) ->
  exists convs trace,
    run w args = (Ret tt, trace) /\
    map fst convs = files args /\
    printed trace = map failure_line (List.filter failed convs).
Proof.
  intros Hprobe Hstart.
  destruct (main_found w args Hprobe) as (evs & rest & Hp & _ & _ & Hrun).
  rewrite Hrun, existsb_false.
  - exists (map (fun f => (f, status w (videoquality args) (audioquality args) f))
                (files args)).
    eexists. split; [reflexivity|]. split.
    + rewrite map_map. simpl. apply map_id.
    + now rewrite printed_app, Hp, printed_prints.
  - intros f _. unfold unstarted. destruct (is_known f); [|done]. simpl.
    specialize (Hstart (ffmpeg_args (videoquality args) (audioquality args) f)).
    now destruct (call w (ffmpeg_args _ _ f)).
Qed.

(** X14: once 'ffmpeg -version' has answered 0, vid2mkv.py runs ffmpeg
    exactly once for every file whose extension, in lower case, is one
    of the known ones, with the command built from the file and the
    two quality options and the output name as last argument; files
    with another extension get no call.  The probe comes first; the
    order of the conversions among themselves is the pool's.  This
    holds whatever the calls come to, and the run then either returns
    or ends with an [OSError]. *)
Theorem ffmpeg_called_for_known_files w args :
  call w ["ffmpeg"; "-version"] = Status 0 ->
  exists r trace rest,
    run w args = (r, trace) /\
    calls trace = ["ffmpeg"; "-version"] :: rest /\
    rest ≡ₚ map (ffmpeg_args (videoquality args) (audioquality args))
              (List.filter is_known (files args)) /\
    (r = Ret tt \/ r = Raise OSError).
Proof.
  intros Hprobe.
  destruct (main_found w args Hprobe) as (evs & rest & Hp & Hc & Hrest & Hrun).
  rewrite Hrun. destruct (existsb _ (files args)).
  - exists (Raise OSError), evs, rest. split; [done|]. split; [done|].
    split; [done|]. now right.
  - eexists (Ret tt), _, rest. split; [reflexivity|]. split; [|split; [done|now left]].
    rewrite calls_app, Hc.
    assert (Hnone : forall lines, calls (map Print lines) = []).
    { induction lines as [|l lines IH]; [done|]. exact IH. }
    now rewrite Hnone, app_nil_r.
Qed.

(** X15: when ffmpeg is found and every conversion can be started,
    vid2mkv.py returns normally whatever the conversions come to, and
    prints exactly one line 'Conversion of <file> failed, return code
    <status>' for each file whose ffmpeg ended with a status other
    than 0, in the order of the command line, and nothing else: no
    line for a conversion that ended with 0 nor for a file that was
    ignored for its extension. *)
Theorem failures_printed_in_order w args :
  call w ["ffmpeg"; "-version"] = Status 0 ->
  (forall f, f ∈ files args ->
     call w (ffmpeg_args (videoquality args) (audioquality args) f) <> NotStarted) ->
  exists trace,
    run w args = (Ret tt, trace) /\
    printed trace
      = map failure_line
          (List.filter failed
             (map (fun f => (f, status w (videoquality args) (audioquality args) f))
                  (List.filter is_known (files args)))).
Proof.
  intros Hprobe Hstart.
  destruct (main_found w args Hprobe) as (evs & rest & Hp & _ & _ & Hrun).
  rewrite Hrun, existsb_false.
  - eexists. split; [reflexivity|].
    now rewrite printed_app, Hp, printed_prints, failed_known.
  - intros f Hf. unfold unstarted. specialize (Hstart f Hf).
    destruct (is_known f); [|done]. simpl.
    now destruct (call w (ffmpeg_args _ _ f)).
Qed.

(** X16: when one of the conversions cannot be started, vid2mkv.py
    still runs ffmpeg for all the other files, but ends with the
    [OSError] of that conversion before it prints anything: the
    failures of the conversions that did run are not reported. *)
Theorem unstartable_conversion_hides_failures w args f :
  call w ["ffmpeg"; "-version"] = Status 0 ->
  f ∈ files args ->
  is_known f = true ->
  call w (ffmpeg_args (videoquality args) (audioquality args) f) = NotStarted ->
  exists trace rest,
    run w args = (Raise OSError, trace) /\
    printed trace = [] /\
    calls trace = ["ffmpeg"; "-version"] :: rest /\
    rest ≡ₚ map (ffmpeg_args (videoquality args) (audioquality args))
              (List.filter is_known (files args)).
Proof.
  intros Hprobe Hf Hk Hcall.
  destruct (main_found w args Hprobe) as (evs & rest & Hp & Hc & Hrest & Hrun).
  rewrite Hrun, (existsb_true _ _ f Hf).
  - now exists evs, rest.
  - unfold unstarted. now rewrite Hk, Hcall.
Qed.

End Vid2mkvFailures.

Section Vid2mkvRuns.
Import Py Logged Vid2mkv.

(** Four files on the command line: ffmpeg fails on the second, and in
    [ffmpeg_gone] it cannot be started any more for the last. *)
Definition four_files : arguments := {|
  videoquality := 6;
  audioquality := 3;
  files := ["a.mp4"; "holiday.AVI"; "notes.txt"; "clip.mov"]
|}.

Definition one_fails : world := {|
  call := fun a => if String.eqb (nth 2 a EmptyString) "holiday.AVI"
                   then Status 1 else Status 0;
  strerror := fun _ => "No such file or directory";
  schedule := [1; 0; 3; 1; 0; 0; 3; 1]
|}.

Definition ffmpeg_gone : world := {|
  call := fun a => if String.eqb (nth 2 a EmptyString) "holiday.AVI" then Status 1
                   else if String.eqb (nth 2 a EmptyString) "clip.mov" then NotStarted
                   else Status 0;
  strerror := fun _ => "No such file or directory";
  schedule := [3; 3; 0; 1; 3; 0; 1]
|}.

Lemma ffmpeg_called_for_known_files_witness :
  exists r trace rest,
    run one_fails four_files = (r, trace) /\
    calls trace = ["ffmpeg"; "-version"] :: rest /\
    rest ≡ₚ map (ffmpeg_args 6 3) ["a.mp4"; "holiday.AVI"; "clip.mov"] /\
    (r = Ret tt \/ r = Raise OSError).
Proof.
  apply (ffmpeg_called_for_known_files one_fails four_files). reflexivity.
Defined.

Lemma failures_printed_in_order_witness :
  exists trace,
    run one_fails four_files = (Ret tt, trace) /\
    printed trace = ["Conversion of holiday.AVI failed, return code 1"].
Proof.
  apply (failures_printed_in_order one_fails four_files).
  - reflexivity.
  - intros f Hf. unfold call, one_fails, ffmpeg_args, nth.
    destruct (String.eqb f "holiday.AVI"); discriminate.
Defined.

Lemma unstartable_conversion_hides_failures_witness :
  exists trace rest,
    run ffmpeg_gone four_files = (Raise OSError, trace) /\
    printed trace = [] /\
    calls trace = ["ffmpeg"; "-version"] :: rest /\
    rest ≡ₚ map (ffmpeg_args 6 3) ["a.mp4"; "holiday.AVI"; "clip.mov"].
Proof.
  apply (unstartable_conversion_hides_failures ffmpeg_gone four_files "clip.mov").
  - reflexivity.
  - apply (bool_decide_unpack _). vm_compute. exact I.
  - reflexivity.
  - reflexivity.
Defined.

End Vid2mkvRuns.

(** ** tifftopdf.py: the output name, the page size, and [main] *)

Section TifftopdfNames.
Import Py Logged Tifftopdf.

(** A text that is '.tif' or '.tiff', with a newline after it or not. *)
Definition is_tif_tail (s : string) : bool :=
  existsb (String.eqb s)
    [".tif"; ".tiff";
     ".tif" +:+ String (ascii_of_nat 10) EmptyString;
     ".tiff" +:+ String (ascii_of_nat 10) EmptyString].

(** A name with such an ending, in any case. *)
Fixpoint tif_ending (s : string) : bool :=
  match s with
  | EmptyString => false
  | String c r => is_tif_tail (lower s) || tif_ending r
  end.

Lemma same_letter_lower x c : same_letter x c = true -> lower_char c = x.
Proof. unfold same_letter. intros H. now apply Ascii.eqb_eq in H. Qed.

Lemma at_dollar_tail r :
  at_dollar r = true ->
  r = EmptyString \/ r = String (ascii_of_nat 10) EmptyString.
Proof.
  destruct r as [|c [|c' r]]; simpl; intros H; try done; [now left|].
  apply Ascii.eqb_eq in H. subst c. now right.
Qed.

(** Where the pattern matches, the text is one of the four endings. *)
Lemma match_here_tail s rest :
  match_here s = Some rest -> is_tif_tail (lower s) = true.
Proof.
  unfold match_here.
  destruct s as [|d [|t [|i [|f r]]]]; try discriminate.
  destruct (Ascii.eqb d ".") eqn:Ed; [|discriminate]. apply Ascii.eqb_eq in Ed.
  destruct (same_letter "t" t) eqn:Et; [|discriminate].
  destruct (same_letter "i" i) eqn:Ei; [|discriminate].
  destruct (same_letter "f" f) eqn:Ef; [|discriminate].
  apply same_letter_lower in Et, Ei, Ef. subst d. cbn [andb].
  destruct (at_dollar r) eqn:Er.
  - intros _. simpl lower. rewrite Et, Ei, Ef.
    now destruct (at_dollar_tail r Er) as [->| ->].
  - destruct r as [|f2 r2]; [discriminate|].
    destruct (same_letter "f" f2) eqn:Ef2; [|discriminate].
    destruct (at_dollar r2) eqn:Er2; [|discriminate].
    apply same_letter_lower in Ef2.
    intros _. simpl lower. rewrite Et, Ei, Ef, Ef2.
    now destruct (at_dollar_tail r2 Er2) as [->| ->].
Qed.

Lemma lower_char_newline c :
  lower_char c = ascii_of_nat 10 -> c = ascii_of_nat 10.
Proof.
  destruct c as [[] [] [] [] [] [] [] []]; vm_compute; intros H;
    first [reflexivity | discriminate H].
Qed.

(** And the pattern matches at each of the four endings. *)
Lemma tail_match_here s :
  is_tif_tail (lower s) = true -> exists rest, match_here s = Some rest.
Proof.
  unfold is_tif_tail. cbn [existsb]. rewrite !orb_true_iff, !String.eqb_eq.
  intros [H|[H|[H|[H|H]]]]; [| | | |done].
  - destruct s as [|d [|t [|i [|f [|x r]]]]]; try discriminate H.
    simpl in H. injection H as Hd Ht Hi Hf. apply lower_char_dot in Hd. subst d.
    unfold match_here, same_letter. rewrite Ht, Hi, Hf. now eexists.
  - destruct s as [|d [|t [|i [|f [|f2 [|x r]]]]]]; try discriminate H.
    simpl in H. injection H as Hd Ht Hi Hf Hf2. apply lower_char_dot in Hd. subst d.
    unfold match_here, same_letter, at_dollar.
    rewrite Ht, Hi, Hf, Hf2, (lower_char_not_newline f2 "f" Hf2) by discriminate.
    now eexists.
  - destruct s as [|d [|t [|i [|f [|n [|x r]]]]]]; try discriminate H.
    simpl in H. injection H as Hd Ht Hi Hf Hn. apply lower_char_dot in Hd.
    apply lower_char_newline in Hn. subst d n.
    unfold match_here, same_letter. rewrite Ht, Hi, Hf. now eexists.
  - destruct s as [|d [|t [|i [|f [|f2 [|n [|x r]]]]]]]; try discriminate H.
    simpl in H. injection H as Hd Ht Hi Hf Hf2 Hn. apply lower_char_dot in Hd.
    apply lower_char_newline in Hn. subst d n.
    unfold match_here, same_letter, at_dollar.
    rewrite Ht, Hi, Hf, Hf2. now eexists.
Qed.

(** What replaces a match differs from it in its second character. *)
Lemma match_here_changes s rest :
  match_here s = Some rest -> ".pdf" +:+ rest <> s.
Proof.
  unfold match_here.
  destruct s as [|d [|t [|i [|f r]]]]; try discriminate.
  destruct (Ascii.eqb d "."); [|discriminate].
  destruct (same_letter "t" t) eqn:Et; [|discriminate].
  intros _ H. rewrite !append_cons in H. injection H as _ Hp _.
  apply same_letter_lower in Et. subst t. discriminate Et.
Qed.

(** X17: the output name [tiffconv] gives to tiff2pdf is the name of
    the input file itself exactly when that name does not end in
    '.tif' or '.tiff' (in any case, a newline after it allowed).
    [tiffconv] does not look at the extension otherwise, so that for
    such a file tiff2pdf is told to write its output over its input. *)
Theorem output_is_input_unless_tif fname :
  re_sub fname = fname <-> tif_ending fname = false.
Proof.
  induction fname as [|c r IH]; [done|].
  cbn [tif_ending]. rewrite orb_false_iff.
  destruct (match_here (String c r)) as [rest|] eqn:Em.
  - rewrite (re_sub_match _ _ Em), (match_here_tail _ _ Em). split.
    + intros H. now destruct (match_here_changes _ _ Em).
    + now intros [H _].
  - rewrite (re_sub_cons _ _ Em). split.
    + intros H. injection H as H. split; [|now apply IH].
      destruct (is_tif_tail _) eqn:Et; [|done].
      destruct (tail_match_here _ Et) as [rest Hr]. congruence.
    + intros [_ H]. f_equal. now apply IH.
Qed.

End TifftopdfNames.

Section TifftopdfPages.
Import Py Logged Tifftopdf.

Variable float : Type.
Variable float_of_str : string -> option float.
Variable truth : float -> bool.
Variable div : float -> float -> float.
Variable str_of_float : float -> string.

Let tiffconv := Tifftopdf.tiffconv float float_of_str truth div str_of_float.
Let main := Tifftopdf.main float float_of_str truth div str_of_float.
Let run := Tifftopdf.run float float_of_str truth div str_of_float.

(** X18: when the output of tiffinfo gives the width, the length and
    a resolution that is not zero, [tiffconv] runs tiff2pdf with the
    page size computed from them and logs no warning.  Both the page
    width and the page length are divided by the horizontal
    resolution: the vertical one is handed on with '-y' but is not
    used for the page length. *)
Theorem resolution_sets_page_size
    w fname (jpeg : bool) quality t txt i sw sl width length j sx sy xres yres rv :
  tiffinfo w fname = Text txt ->
  index "Width:" (split txt) = Some i ->
  split txt !! (i + 1) = Some sw -> float_of_str sw = Some width ->
  split txt !! (i + 4) = Some sl -> float_of_str sl = Some length ->
  index "Resolution:" (split txt) = Some j ->
  split txt !! (j + 1) = Some sx -> float_of_str (drop_last sx) = Some xres ->
  split txt !! (j + 2) = Some sy -> float_of_str sy = Some yres ->
  truth xres = true ->
  let args :=
    ["tiff2pdf"] ++ (if jpeg then ["-n"; "-j"; "-q"; str quality] else [])
    ++ ["-w"; str_of_float (div width xres); "-l"; str_of_float (div length xres);
        "-x"; str_of_float xres; "-y"; str_of_float yres;
        "-o"; re_sub fname; fname] in
  call w args = Status rv ->
  tiffconv w fname jpeg quality t
    = (Ret (fname, rv),
       t ++ [Call ["tiffinfo"; fname];
             Log INFO ("calling " +:+ quoted (join " " args));
             Call args;
             Log INFO ("created " +:+ quoted (re_sub fname))]).
Proof.
  intros Hinfo Hw Hsw Hfw Hsl Hfl Hres Hsx Hfx Hsy Hfy Htruth args Hcall.
  unfold tiffconv, Tifftopdf.tiffconv, try_except, Tifftopdf.tiffconv_body.
  unfold Tifftopdf.resolution, subprocess_call, item, to_float.
  cbv [mbind M_bind bind mret M_ret ret raise lift emit result_mbind result_bind].
  rewrite Hinfo, Hw, Hsw, Hfw, Hsl, Hfl, Hres, Hsx, Hfx, Hsy, Hfy.
  cbv [except_ValueError page_args]. rewrite Htruth.
  destruct jpeg; cbn [app] in *; subst args; rewrite Hcall;
    now rewrite <- !app_assoc.
Qed.

(** X19: a resolution that [if xres:] takes for false, as 0.0 is, is
    treated like a missing one: [tiffconv] logs the warning 'no
    resolution in ...', fits the page to A4 and returns the status of
    tiff2pdf. *)
Theorem zero_resolution_falls_back_to_A4
    w fname (jpeg : bool) quality t txt i sw sl width length j sx sy xres yres rv :
  tiffinfo w fname = Text txt ->
  index "Width:" (split txt) = Some i ->
  split txt !! (i + 1) = Some sw -> float_of_str sw = Some width ->
  split txt !! (i + 4) = Some sl -> float_of_str sl = Some length ->
  index "Resolution:" (split txt) = Some j ->
  split txt !! (j + 1) = Some sx -> float_of_str (drop_last sx) = Some xres ->
  split txt !! (j + 2) = Some sy -> float_of_str sy = Some yres ->
  truth xres = false ->
  let args :=
    ["tiff2pdf"] ++ (if jpeg then ["-n"; "-j"; "-q"; str quality] else [])
    ++ ["-o"; re_sub fname; "-z"; "-p"; "A4"; "-F"; fname] in
  call w args = Status rv ->
  tiffconv w fname jpeg quality t
    = (Ret (fname, rv),
       t ++ [Call ["tiffinfo"; fname];
             Log WARNING ("no resolution in " +:+ fname +:+ ". Fitting to A4");
             Log INFO ("calling " +:+ quoted (join " " args));
             Call args;
             Log INFO ("created " +:+ quoted (re_sub fname))]).
Proof.
  intros Hinfo Hw Hsw Hfw Hsl Hfl Hres Hsx Hfx Hsy Hfy Htruth args Hcall.
  unfold tiffconv, Tifftopdf.tiffconv, try_except, Tifftopdf.tiffconv_body.
  unfold Tifftopdf.resolution, subprocess_call, item, to_float.
  cbv [mbind M_bind bind mret M_ret ret raise lift emit result_mbind result_bind].
  rewrite Hinfo, Hw, Hsw, Hfw, Hsl, Hfl, Hres, Hsx, Hfx, Hsy, Hfy.
  cbv [except_ValueError page_args]. rewrite Htruth.
  destruct jpeg; cbn [app] in *; subst args; rewrite Hcall;
    now rewrite <- !app_assoc.
Qed.

(** The record [main] logs for a result. *)
Definition verdict (c : string * Z) : event :=
  if (snd c =? 0)%Z
  then Log INFO ("finished " +:+ quoted (fst c))
  else Log ERROR ("conversion of " +:+ fst c +:+ " failed, return code "
                  +:+ str (snd c)).

Lemma report_all_run : forall convs t,
  report_all (map Ret convs) t = (Ret tt, t ++ map verdict convs).
Proof.
  induction convs as [|[fn rv] convs IH]; intros t; simpl.
  - now rewrite app_nil_r.
  - cbv [mbind M_bind bind lift emit]. unfold verdict at 1. simpl.
    destruct (rv =? 0)%Z; rewrite IH, <- app_assoc; reflexivity.
Qed.

(** The records of [main]'s loop among the records of a run: they
    are told from the others by how their text begins. *)
Definition is_verdict (e : event) : bool :=
  match e with
  | Log INFO msg => String.prefix "finished" msg
  | Log ERROR msg => String.prefix "conversion of" msg
  | _ => false
  end.

Lemma is_verdict_verdict c : is_verdict (verdict c) = true.
Proof. unfold verdict. destruct (snd c =? 0)%Z; vm_compute; reflexivity. Qed.

(** Code that writes no record of the loop of [main]. *)
Definition quiet {A} (m : M A) : Prop :=
  forall t,
    Forall (fun e => is_verdict e = false) t ->
    Forall (fun e => is_verdict e = false) (snd (m t)).

Lemma quiet_bind {A B} (m : M A) (k : A -> M B) :
  quiet m -> (forall a, quiet (k a)) -> quiet (x ← m; k x).
Proof.
  intros Hm Hk t Ht. specialize (Hm t Ht). rewrite wbind_run.
  destruct (m t) as [[a|e|c|] t1]; simpl in *; try done. now apply Hk.
Qed.

Lemma quiet_emit e : is_verdict e = false -> quiet (emit e).
Proof.
  intros He t Ht. unfold emit. simpl. apply Forall_app. split; [done|].
  now constructor.
Qed.

Lemma quiet_lift {A} (r : result A) : quiet (lift r).
Proof. now intros t Ht. Qed.

Lemma quiet_subprocess_call w args : quiet (subprocess_call w args).
Proof.
  unfold subprocess_call. apply quiet_bind; [now apply quiet_emit|].
  intros _. destruct (call w args); apply quiet_lift.
Qed.

Lemma quiet_tiffconv w fname (jpeg : bool) quality :
  quiet (tiffconv w fname jpeg quality).
Proof.
  unfold tiffconv, Tifftopdf.tiffconv, try_except. intros t Ht.
  assert (Hbody : quiet (Tifftopdf.tiffconv_body float float_of_str truth div
                           str_of_float w fname jpeg quality)).
  { unfold Tifftopdf.tiffconv_body.
    apply quiet_bind; [now apply quiet_emit|]. intros _.
    apply quiet_bind; [destruct (tiffinfo w fname); apply quiet_lift|]. intros txt.
    apply quiet_bind; [destruct (index _ _); apply quiet_lift|]. intros i.
    apply quiet_bind; [apply quiet_lift|]. intros width.
    apply quiet_bind; [apply quiet_lift|]. intros length.
    apply quiet_bind; [apply quiet_lift|]. intros res.
    destruct (page_args _ _ _ _ _ _ _ _ _) as [args a4].
    apply quiet_bind.
    { destruct a4; [now apply quiet_emit|apply quiet_lift]. }
    intros _. apply quiet_bind; [now apply quiet_emit|]. intros _.
    apply quiet_bind; [apply quiet_subprocess_call|]. intros rv.
    apply quiet_bind; [now apply quiet_emit|]. intros _. apply quiet_lift. }
  specialize (Hbody t Ht).
  destruct (Tifftopdf.tiffconv_body _ _ _ _ _ _ _ _ _ t) as [[c|e|c|] t1];
    simpl in *; try done.
  apply Forall_app. split; [done|]. now constructor.
Qed.

(** The status [tiffconv] returns for a file of the command line, run
    as [main] runs it. *)
Definition returned (w : world) (args : arguments) (fname : string) : Z :=
  match fst ((if Tifftopdf.jpeg args
              then tiffconv w fname true (quality args)
              else tiffconv w fname false 85) []) with
  | Ret (_, rv) => rv
  | _ => 0%Z
  end.

(** The rounds of [main]'s loop on results that are all there. *)
Lemma rounds_report_all : forall convs,
  rounds report_all (map Ret convs)
    = (Ret tt, map (fun c => [verdict c]) convs).
Proof.
  induction convs as [|[fn rv] convs IH]; [done|].
  cbn [rounds map].
  change [Ret (fn, rv)] with (map (@Ret (string * Z)) [(fn, rv)]).
  now rewrite report_all_run, IH.
Qed.

Lemma concat_singletons {A} (l : list A) : concat (map (fun x => [x]) l) = l.
Proof. induction l as [|x l IH]; simpl; [done|]. now rewrite IH. Qed.

(** The pool and the loop of [main], after whatever was logged
    before. *)
Lemma tp_for_verdicts w args T :
  let func := fun fname : string =>
    if Tifftopdf.jpeg args
    then tiffconv w fname true (quality args)
    else tiffconv w fname false 85 in
  exists work,
    tp_for (schedule w) func (files args) report_all T = (Ret tt, T ++ work) /\
    List.filter is_verdict work
      = map (fun f => verdict (f, returned w args f)) (files args).
Proof.
  intros func. unfold tp_for.
  assert (Hfst : map fst (map (fun f => func f []) (files args))
                 = map Ret (map (fun f => (f, returned w args f)) (files args))).
  { rewrite !map_map. apply map_ext. intros f. unfold returned. fold (func f).
    assert (H : exists rv t', func f [] = (Ret (f, rv), t')).
    { unfold func. destruct (Tifftopdf.jpeg args); apply tiffconv_returns. }
    destruct H as (rv & t' & ->). reflexivity. }
  rewrite Hfst, rounds_report_all. eexists. split; [reflexivity|].
  rewrite (serve_filter is_verdict).
  - now rewrite map_map, <- (map_map _ (fun x => [x])), concat_singletons.
  - apply Forall_forall. intros q Hq.
    apply list_elem_of_fmap in Hq as ([r t'] & -> & Hq).
    apply list_elem_of_fmap in Hq as (f & Hf & _). simpl.
    replace t' with (snd (func f [])) by now rewrite <- Hf.
    unfold func. destruct (Tifftopdf.jpeg args); now apply quiet_tiffconv.
  - apply Forall_forall. intros q Hq.
    apply list_elem_of_fmap in Hq as (c & -> & _).
    constructor; [apply is_verdict_verdict|constructor].
Qed.

(** X20: once both tools have answered their probes, tifftopdf.py ends
    normally whatever happens to the conversions: nothing that goes
    wrong with a file, nor a tiff2pdf that fails, makes [main] raise or
    exit with an error status.  Whatever the order in which the
    threads of the pool get to run, the records of [main]'s loop in
    the log are exactly one for each file, in the order of the command
    line, each for the status that [tiffconv] returned for the file:
    'finished' for status 0 and 'conversion of ... failed, return code
    ...' otherwise. *)
Theorem tifftopdf_always_ends_normally w args :
  call w ["tiffinfo"] = Status 255 ->
  call w ["tiff2pdf"; "-v"] = Status 0 ->
  exists trace,
    run w args = (Ret tt, trace) /\
    List.filter is_verdict trace
      = map (fun f => verdict (f, returned w args f)) (files args).
Proof.
  intros Hinfo Hpdf. unfold run, Tifftopdf.run, Tifftopdf.main.
  rewrite wbind_run, tifftopdf_checkfor_one by reflexivity.
  rewrite (tifftopdf_checkfor_found w _ _ 255 [] Hinfo), wbind_run.
  rewrite (tifftopdf_checkfor_found w _ _ 0 _ Hpdf), wbind_run.
  match goal with |- context [(if Tifftopdf.jpeg args then ?a else ?b) ?T] =>
    assert (Hpre : exists T',
              (if Tifftopdf.jpeg args then a else b) T = (Ret tt, T') /\
              List.filter is_verdict T' = [])
      by (destruct (Tifftopdf.jpeg args); eexists; split; reflexivity)
  end.
  destruct Hpre as (T' & -> & Hquiet).
  destruct (tp_for_verdicts w args T') as (work & Hrun & Hv).
  exists (T' ++ work). split; [exact Hrun|].
  now rewrite List.filter_app, Hquiet, Hv.
Qed.

End TifftopdfPages.

Section TifftopdfRuns.
Import Py Logged Tifftopdf.

(** A machine with both tools, where tiff2pdf fails on 'torn.tif'.
    tiffinfo describes 'fax.tif' as a fax page with unequal
    resolutions and 'blank.tif' as an image with resolution zero. *)
Definition scanner : world := {|
  call := fun args =>
    match args with
    | ["tiffinfo"] => Status 255
    | _ => if String.eqb (List.last args EmptyString) "torn.tif"
           then Status 1 else Status 0
    end;
  strerror := fun _ => "No such file or directory";
  tiffinfo := fun fname =>
    if String.eqb fname "fax.tif"
    then Text "Image Width: 1728 Image Length: 2200 Resolution: 204, 98 pixels/inch"
    else if String.eqb fname "blank.tif"
    then Text "Image Width: 800 Image Length: 600 Resolution: 0, 0 pixels/inch"
    else Text "Image Width: 800 Image Length: 600 Resolution: 300, 300 pixels/inch";
  schedule := [0; 1; 0; 0; 0; 3; 2; 1; 1; 3; 0; 2; 3]
|}.

Definition three_scans : arguments := {|
  jpeg := true;
  quality := 70;
  files := ["fax.tif"; "torn.tif"; "blank.tif"]
|}.

Lemma resolution_sets_page_size_witness :
  tiffconv Z int whole_truth Z.div str scanner "fax.tif" false 85 []
    = (Ret ("fax.tif", 0%Z),
       [] ++ [Call ["tiffinfo"; "fax.tif"];
        Log INFO ("calling " +:+ quoted (join " " (["tiff2pdf"] ++ []
                    ++ ["-w"; str (1728 / 204)%Z; "-l"; str (2200 / 204)%Z;
                        "-x"; str 204%Z; "-y"; str 98%Z;
                        "-o"; re_sub "fax.tif"; "fax.tif"])));
        Call (["tiff2pdf"] ++ []
              ++ ["-w"; str (1728 / 204)%Z; "-l"; str (2200 / 204)%Z;
                  "-x"; str 204%Z; "-y"; str 98%Z;
                  "-o"; re_sub "fax.tif"; "fax.tif"]);
        Log INFO ("created " +:+ quoted (re_sub "fax.tif"))]).
Proof.
  apply (resolution_sets_page_size Z int whole_truth Z.div str
           scanner "fax.tif" false 85 []
           "Image Width: 1728 Image Length: 2200 Resolution: 204, 98 pixels/inch"
           1 "1728" "2200" 1728%Z 2200%Z 6 "204," "98" 204%Z 98%Z 0%Z).
  - reflexivity.
  - vm_compute. reflexivity.
  - vm_compute. reflexivity.
  - vm_compute. reflexivity.
  - vm_compute. reflexivity.
  - vm_compute. reflexivity.
  - vm_compute. reflexivity.
  - vm_compute. reflexivity.
  - vm_compute. reflexivity.
  - vm_compute. reflexivity.
  - vm_compute. reflexivity.
  - vm_compute. reflexivity.
  - vm_compute. reflexivity.
Defined.

Lemma zero_resolution_falls_back_to_A4_witness :
  tiffconv Z int whole_truth Z.div str scanner "blank.tif" false 85 []
    = (Ret ("blank.tif", 0%Z),
       [] ++ [Call ["tiffinfo"; "blank.tif"];
        Log WARNING ("no resolution in " +:+ "blank.tif" +:+ ". Fitting to A4");
        Log INFO ("calling " +:+ quoted (join " " (["tiff2pdf"] ++ []
                    ++ ["-o"; re_sub "blank.tif"; "-z"; "-p"; "A4"; "-F"; "blank.tif"])));
        Call (["tiff2pdf"] ++ []
              ++ ["-o"; re_sub "blank.tif"; "-z"; "-p"; "A4"; "-F"; "blank.tif"]);
        Log INFO ("created " +:+ quoted (re_sub "blank.tif"))]).
Proof.
  apply (zero_resolution_falls_back_to_A4 Z int whole_truth Z.div str
           scanner "blank.tif" false 85 []
           "Image Width: 800 Image Length: 600 Resolution: 0, 0 pixels/inch"
           1 "800" "600" 800%Z 600%Z 6 "0," "0" 0%Z 0%Z 0%Z).
  - reflexivity.
  - vm_compute. reflexivity.
  - vm_compute. reflexivity.
  - vm_compute. reflexivity.
  - vm_compute. reflexivity.
  - vm_compute. reflexivity.
  - vm_compute. reflexivity.
  - vm_compute. reflexivity.
  - vm_compute. reflexivity.
  - vm_compute. reflexivity.
  - vm_compute. reflexivity.
  - vm_compute. reflexivity.
  - vm_compute. reflexivity.
Defined.

Lemma tifftopdf_always_ends_normally_witness :
  exists trace,
    run Z int whole_truth Z.div str scanner three_scans = (Ret tt, trace) /\
    List.filter is_verdict trace
      = [verdict ("fax.tif", 0%Z); verdict ("torn.tif", 1%Z);
         verdict ("blank.tif", 0%Z)].
Proof.
  destruct (tifftopdf_always_ends_normally Z int whole_truth Z.div str
              scanner three_scans) as (trace & Hrun & Hverdicts).
  - reflexivity.
  - reflexivity.
  - exists trace. split; [exact Hrun|]. rewrite Hverdicts. vm_compute. reflexivity.
Defined.

End TifftopdfRuns.

(** ** genotp.py *)

Section GenotpFacts.
Import Py Genotp.

(** All the values of a byte. *)
Definition all_bytes : list ascii := map ascii_of_nat (seq 0 256).

Lemma all_bytes_complete c : In c all_bytes.
Proof.
  unfold all_bytes. rewrite <- (ascii_nat_embedding c).
  apply in_map, in_seq. pose proof (nat_ascii_bounded c). lia.
Qed.

(** A property checked on every value of a byte holds of every byte. *)
Lemma for_all_bytes (P : ascii -> bool) :
  forallb P all_bytes = true -> forall c, P c = true.
Proof.
  intros H c. exact (proj1 (forallb_forall P all_bytes) H c (all_bytes_complete c)).
Qed.

(** Every byte gives a capital letter. *)
Lemma letter_capital c : exists l, letter c = Some l /\ is_capital l = true.
Proof.
  assert (H : match letter c with Some l => is_capital l | None => false end = true).
  { revert c. apply for_all_bytes. vm_compute. reflexivity. }
  destruct (letter c) as [l|]; [|discriminate H]. now exists l.
Qed.

Lemma letters_capital : forall b,
  exists ls, letters b = Some ls /\ length ls = length b /\
             Forall (fun l => is_capital l = true) ls.
Proof.
  induction b as [|c b (ls & Hls & Hlen & Hcap)].
  - exists []. now repeat split.
  - destruct (letter_capital c) as (l & Hl & Hc).
    exists (l :: ls). simpl letters. rewrite Hl, Hls. simpl.
    split; [done|]. split; [now rewrite Hlen|now constructor].
Qed.

Lemma length_string_of_list_ascii l :
  String.length (string_of_list_ascii l) = length l.
Proof. induction l as [|c l IH]; simpl; [done|]. now rewrite IH. Qed.

(** [rndcaps(n)] returns [n] characters and uses [n] bytes. *)
Lemma rndcaps_length rng pos n :
  exists s, rndcaps rng pos n = Some (s, pos + n) /\ String.length s = n.
Proof.
  unfold rndcaps, urandom.
  destruct (letters_capital (map rng (seq pos n))) as (ls & Hls & Hlen & _).
  exists (string_of_list_ascii ls). rewrite Hls. simpl. split; [done|].
  now rewrite length_string_of_list_ascii, Hlen, length_map, length_seq.
Qed.

(** X1: whatever bytes [urandom] gives, [rndcaps(n)] uses [n] of
    them and returns [n] characters, all of them capital letters. *)
Theorem rndcaps_gives_capitals rng pos n :
  exists s,
    rndcaps rng pos n = Some (s, pos + n) /\
    String.length s = n /\
    Forall (fun c => is_capital c = true) (list_ascii_of_string s).
Proof.
  unfold rndcaps, urandom.
  destruct (letters_capital (map rng (seq pos n))) as (ls & Hls & Hlen & Hcap).
  exists (string_of_list_ascii ls). rewrite Hls. simpl.
  split; [done|]. split.
  - now rewrite length_string_of_list_ascii, Hlen, length_map, length_seq.
  - now rewrite list_ascii_of_string_of_list_ascii.
Qed.

(** How many values of a byte give the letter [l]. *)
Definition gives (l c : ascii) : bool :=
  match letter c with
  | Some l' => Ascii.eqb l' l
  | None => false
  end.

Definition bytes_for (l : ascii) : nat := length (List.filter (gives l) all_bytes).

(** X2: the letters are not equally likely: of the 256 values of a
    byte, 6 give 'A' and 6 give 'Z', while each of the letters between
    is given by 10 or 11. *)
Theorem rndcaps_letters_not_uniform :
  bytes_for "A" = 6 /\ bytes_for "Z" = 6 /\
  forall l, is_capital l = true -> l <> "A"%char -> l <> "Z"%char ->
            10 <= bytes_for l <= 11.
Proof.
  split; [vm_compute; reflexivity|]. split; [vm_compute; reflexivity|].
  intros l Hcap HA HZ.
  assert (H : (if is_capital l
               then if Ascii.eqb l "A" then true
                    else if Ascii.eqb l "Z" then true
                    else (10 <=? bytes_for l) && (bytes_for l <=? 11)
               else true) = true).
  { revert l Hcap HA HZ. intros l _ _ _. revert l.
    apply for_all_bytes. vm_compute. reflexivity. }
  rewrite Hcap in H.
  destruct (Ascii.eqb l "A") eqn:EA; [exfalso; apply HA; now apply Ascii.eqb_eq|].
  destruct (Ascii.eqb l "Z") eqn:EZ; [exfalso; apply HZ; now apply Ascii.eqb_eq|].
  apply andb_prop in H as [H1 H2].
  apply Nat.leb_le in H1. apply Nat.leb_le in H2. split; assumption.
Qed.

(** The length of [sep.join(words)]. *)
Fixpoint text_length (words : list string) : nat :=
  match words with
  | [] => 0
  | w :: ws => String.length w + text_length ws
  end.

Lemma join_cons sep w v ws :
  join sep (w :: v :: ws) = w +:+ sep +:+ join sep (v :: ws).
Proof. reflexivity. Qed.

Lemma join_length sep : forall words,
  String.length (join sep words)
    = text_length words + String.length sep * (length words - 1).
Proof.
  induction words as [|w [|v ws] IH].
  - simpl. lia.
  - simpl. lia.
  - rewrite join_cons, !length_append, IH. simpl. lia.
Qed.

Lemma text_length_same n : forall words,
  Forall (fun w => String.length w = n) words ->
  text_length words = n * length words.
Proof.
  induction 1 as [|w ws Hw _ IH]; simpl; [lia|]. rewrite Hw, IH. lia.
Qed.

Lemma groups_ok rng : forall count pos,
  exists gs,
    groups count rng pos = Some (gs, pos + 5 * count) /\
    length gs = count /\
    Forall (fun g => String.length g = 5) gs.
Proof.
  induction count as [|count IH]; intros pos.
  - exists []. simpl. rewrite Nat.add_0_r. now repeat split.
  - destruct (rndcaps_length rng pos 5) as (g & Hg & Hlen).
    destruct (IH (pos + 5)) as (gs & Hgs & Hcount & Hall).
    exists (g :: gs). simpl groups. rewrite Hg. simpl. rewrite Hgs. simpl.
    split; [do 2 f_equal; lia|]. split; [now rewrite Hcount|now constructor].
Qed.

Lemma append_assoc a b c : (a +:+ b) +:+ c = a +:+ b +:+ c.
Proof.
  induction a as [|x a IH]; [done|]. now rewrite !append_cons, IH.
Qed.

Lemma option_bind_some {A B} (a : A) (k : A -> option B) : (Some a ≫= k) = k a.
Proof. reflexivity. Qed.

Lemma otp_lines_cons num nums rng pos :
  otp_lines (num :: nums) rng pos =
    '(gs, pos) ← groups 12 rng pos;
    '(lines, pos) ← otp_lines nums rng pos;
    Some (join " " ([format_02d num +:+ " "] ++ gs) :: lines, pos).
Proof. reflexivity. Qed.

(** The lines of the pad: each is the number, two spaces, and twelve
    groups of five letters one space apart. *)
Lemma otp_lines_ok rng : forall nums pos,
  Forall (fun num => String.length (format_02d num) = 2) nums ->
  exists lines,
    otp_lines nums rng pos = Some (lines, pos + 60 * length nums) /\
    Forall2 (fun num line =>
               String.length line = 75 /\
               exists body, line = format_02d num +:+ "  " +:+ body)
            nums lines.
Proof.
  induction nums as [|num nums IH]; intros pos Hnums.
  - exists []. simpl. rewrite Nat.add_0_r. split; [done|constructor].
  - apply Forall_cons in Hnums as [Hnum Hnums].
    destruct (groups_ok rng 12 pos) as (gs & Hgs & Hcount & Hall).
    destruct (IH (pos + 5 * 12) Hnums) as (lines & Hlines & Hshape).
    exists (join " " ([format_02d num +:+ " "] ++ gs) :: lines).
    rewrite otp_lines_cons, Hgs, option_bind_some, Hlines, option_bind_some.
    split; [f_equal; f_equal; simpl; lia|].
    constructor; [|done]. split.
    + rewrite join_length. simpl. rewrite length_append, Hnum.
      rewrite (text_length_same 5 gs Hall), Hcount. reflexivity.
    + destruct gs as [|g gs]; [discriminate Hcount|].
      exists (join " " (g :: gs)). change ([format_02d num +:+ " "] ++ g :: gs)
        with ((format_02d num +:+ " ") :: g :: gs).
      rewrite join_cons. now rewrite append_assoc.
Qed.

(** X3: whatever its argument and the bytes it is given, [otp]
    returns 65 lines, joined by newlines, using 3900 bytes.  The
    lines go with the numbers 1 to 65: each is its number in two
    digits followed by two spaces and has 75 characters; the whole has
    4939. *)
Theorem otp_shape n rng pos :
  exists lines,
    otp n rng pos = Some (join newline lines, pos + 3900) /\
    length lines = 65 /\
    Forall2 (fun num line =>
               String.length line = 75 /\
               exists body, line = format_02d num +:+ "  " +:+ body)
            (map Z.of_nat (seq 1 65)) lines /\
    String.length (join newline lines) = 4939.
Proof.
  assert (Hnums : Forall (fun num => String.length (format_02d num) = 2)
                         (map Z.of_nat (seq 1 65))).
  { apply Forall_forall. intros num Hnum.
    assert (H : forallb (fun num => String.length (format_02d num) =? 2)
                        (map Z.of_nat (seq 1 65)) = true)
      by (vm_compute; reflexivity).
    apply Nat.eqb_eq.
    apply (proj1 (forallb_forall _ _) H). now apply list_elem_of_In. }
  destruct (otp_lines_ok rng _ pos Hnums) as (lines & Hlines & Hshape).
  exists lines. unfold otp. rewrite Hlines, option_bind_some.
  assert (Hlen : length lines = 65).
  { apply Forall2_length in Hshape. now rewrite <- Hshape, length_map, length_seq. }
  split; [done|]. split; [done|]. split; [done|].
  rewrite join_length, Hlen.
  rewrite (text_length_same 75 lines); [rewrite Hlen; reflexivity|].
  clear -Hshape. induction Hshape as [|? ? ? ? [H _] _ IH]; constructor; auto.
Qed.

Lemma rndcaps_letters_not_uniform_witness : 10 <= bytes_for "M" <= 11.
Proof.
  apply (proj2 (proj2 rndcaps_letters_not_uniform) "M"%char).
  - reflexivity.
  - intros H. discriminate H.
  - intros H. discriminate H.
Defined.

End GenotpFacts.

(** ** sha256.py *)

Section Sha256Facts.
Import Py Sha256.

Variable hexdigest : string -> string.

Let main := Sha256.main hexdigest.
Let for_nm := Sha256.for_nm hexdigest.

(** The text before the verdict, in a line for the file [nm]. *)
Definition digest_text (nm data : string) : string :=
  "SHA256 (" +:+ nm +:+ ") = " +:+ hexdigest data.

Definition notice : output := Line "Invalid checksum length. Skipping comparison.".

(** Every regular file among [names] can be read. *)
Definition all_readable (w : world) (names : list string) : Prop :=
  Forall (fun nm => isfile w nm = true -> read w nm <> None) names.

Lemma append_nil_r s : s +:+ "" = s.
Proof. induction s as [|c s IH]; [done|]. now rewrite append_cons, IH. Qed.

(** The loop adds to what was printed before, whatever that was. *)
Lemma for_nm_prefix w cs : forall names pre out,
  for_nm w cs names (pre ++ out)
    = (fst (for_nm w cs names out), pre ++ snd (for_nm w cs names out)).
Proof.
  induction names as [|nm names IH]; intros pre out; simpl; [done|].
  destruct (negb (isfile w nm)); [apply IH|].
  destruct (read w nm) as [data|]; [|done].
  rewrite <- app_assoc. apply IH.
Qed.

(** With every regular file readable, the loop prints one line for
    each regular file, in the order of the names, and returns. *)
Lemma for_nm_lines w cs : forall names out,
  all_readable w names ->
  exists lines,
    for_nm w cs names out = (Ret tt, out ++ map Line lines) /\
    Forall2 (fun nm line =>
               exists data, read w nm = Some data /\
                            line = report cs nm (hexdigest data))
            (List.filter (isfile w) names) lines.
Proof.
  induction names as [|nm names IH]; intros out Hall.
  - exists []. simpl. rewrite app_nil_r. split; [done|constructor].
  - apply Forall_cons in Hall as [Hnm Hall]. simpl.
    destruct (isfile w nm) eqn:Ef; simpl.
    + destruct (read w nm) as [data|] eqn:Er; [|now destruct Hnm].
      destruct (IH (out ++ [Line (report cs nm (hexdigest data))]) Hall)
        as (lines & Hrun & Hlines).
      exists (report cs nm (hexdigest data) :: lines).
      fold for_nm. rewrite Hrun, <- app_assoc. split; [done|].
      constructor; [|done]. now exists data.
    + destruct (IH out Hall) as (lines & Hrun & Hlines). now exists lines.
Qed.

(** The checksum the loop compares with. *)
Lemma main_run w args nm names :
  file args = nm :: names ->
  main w args =
    if given (checksum args)
       && negb (Z.of_nat (String.length (default "" (checksum args))) =? 64)%Z
    then for_nm w None (file args) [notice]
    else for_nm w (checksum args) (file args) [].
Proof.
  intros Hf. unfold main, Sha256.main, setup. rewrite Hf.
  destruct (given (checksum args) && _); cbn; now rewrite ?Hf.
Qed.

(** X4: given at least one name and regular files that can be read,
    [main] returns normally, whatever the verdicts; after the notice
    about the checksum, if any, it prints exactly one line for each
    name that is a regular file, in the order given, made of the name,
    the digest of the contents and possibly a verdict. *)
Theorem sha256_one_line_per_regular_file w args :
  0 < length (file args) ->
  all_readable w (file args) ->
  exists before lines,
    main w args = (Ret tt, before ++ map Line lines) /\
    (before = [] \/ before = [notice]) /\
    Forall2 (fun nm line =>
               exists data verdict,
                 read w nm = Some data /\
                 line = digest_text nm data +:+ verdict /\
                 (verdict = "" \/ verdict = " [ OK ]" \/ verdict = " [ Failed ]"))
            (List.filter (isfile w) (file args)) lines.
Proof.
  intros Hne Hall.
  destruct (file args) as [|nm names] eqn:Hf; [simpl in Hne; lia|].
  rewrite (main_run w args nm names Hf), Hf.
  assert (Hform : forall cs out,
    exists lines,
      for_nm w cs (nm :: names) out = (Ret tt, out ++ map Line lines) /\
      Forall2 (fun nm line =>
                 exists data verdict,
                   read w nm = Some data /\
                   line = digest_text nm data +:+ verdict /\
                   (verdict = "" \/ verdict = " [ OK ]" \/ verdict = " [ Failed ]"))
              (List.filter (isfile w) (nm :: names)) lines).
  { intros cs out. destruct (for_nm_lines w cs (nm :: names) out Hall)
      as (lines & Hrun & Hlines).
    exists lines. split; [done|].
    eapply Forall2_impl; [exact Hlines|].
    intros f line (data & Hr & ->). exists data. unfold report, digest_text.
    destruct (given cs); [|exists ""; now rewrite append_nil_r; auto].
    destruct cs as [c|]; [|exists ""; now rewrite append_nil_r; auto].
    destruct (negb (String.eqb c (hexdigest data))); eexists; eauto. }
  destruct (given (checksum args) && _).
  - destruct (Hform None [notice]) as (lines & Hrun & Hlines).
    exists [notice], lines. rewrite Hrun. auto.
  - destruct (Hform (checksum args) []) as (lines & Hrun & Hlines).
    exists [], lines. rewrite Hrun. auto.
Qed.

(** With a checksum of 64 characters the loop compares with it. *)
Lemma main_valid_checksum w args c :
  0 < length (file args) ->
  checksum args = Some c ->
  String.length c = 64 ->
  main w args = for_nm w (Some c) (file args) [] /\ given (Some c) = true.
Proof.
  intros Hne Hc Hlen.
  destruct (file args) as [|nm names] eqn:Hf; [simpl in Hne; lia|].
  rewrite (main_run w args nm names Hf), Hf, Hc. simpl default.
  rewrite Hlen. change (Z.of_nat 64 =? 64)%Z with true.
  rewrite andb_false_r. split; [done|].
  now destruct c as [|x c]; [discriminate Hlen|].
Qed.

(** X5: with a checksum of 64 characters, the line of every regular
    file ends in ' [ OK ]' when the digest of its contents is that
    checksum, character for character, and in ' [ Failed ]' otherwise;
    [main] returns normally in both cases. *)
Theorem sha256_verdicts w args c :
  0 < length (file args) ->
  all_readable w (file args) ->
  checksum args = Some c ->
  String.length c = 64 ->
  exists lines,
    main w args = (Ret tt, map Line lines) /\
    Forall2 (fun nm line =>
               exists data,
                 read w nm = Some data /\
                 line = digest_text nm data
                        +:+ (if String.eqb c (hexdigest data)
                             then " [ OK ]" else " [ Failed ]"))
            (List.filter (isfile w) (file args)) lines.
Proof.
  intros Hne Hall Hc Hlen.
  destruct (main_valid_checksum w args c Hne Hc Hlen) as [Hmain Hgiven].
  destruct (for_nm_lines w (Some c) (file args) [] Hall) as (lines & Hrun & Hlines).
  exists lines. rewrite Hmain. split; [exact Hrun|].
  eapply Forall2_impl; [exact Hlines|].
  intros f line (data & Hr & ->). exists data. split; [done|].
  unfold report, digest_text. rewrite Hgiven.
  now destruct (String.eqb c (hexdigest data)).
Qed.

(** X6: a checksum that is not empty and has not 64 characters
    changes nothing but for the notice printed first: the rest of the
    output and the way [main] ends are those of a run without
    checksum. *)
Theorem sha256_bad_checksum_is_ignored w c names :
  0 < length names ->
  0 < String.length c ->
  String.length c <> 64 ->
  main w {| checksum := Some c; file := names |}
    = (fst (main w {| checksum := None; file := names |}),
       notice :: snd (main w {| checksum := None; file := names |})).
Proof.
  intros Hne Hc Hlen.
  destruct names as [|nm names]; [simpl in Hne; lia|].
  rewrite (main_run w {| checksum := Some c; file := nm :: names |} nm names eq_refl),
    (main_run w {| checksum := None; file := nm :: names |} nm names eq_refl).
  cbn [checksum file]. destruct c as [|x c]; [simpl in Hc; lia|].
  cbn [given default andb]. unfold id.
  destruct (Z.of_nat (String.length (String x c)) =? 64)%Z eqn:E;
    [apply Z.eqb_eq in E; lia|].
  cbn [negb]. exact (for_nm_prefix w None (nm :: names) [notice] []).
Qed.

(** X7: a regular file that cannot be opened ends the run with
    [OSError]: the lines of the files before it were printed, and no
    name after it is looked at. *)
Theorem sha256_unreadable_file_aborts w args before bad after :
  file args = before ++ bad :: after ->
  all_readable w before ->
  isfile w bad = true ->
  read w bad = None ->
  exists first lines,
    main w args = (Raise OSError, first ++ map Line lines) /\
    (first = [] \/ first = [notice]) /\
    length lines = length (List.filter (isfile w) before).
Proof.
  intros Hf Hall Hbad Hread.
  assert (Hloop : forall cs out,
    exists lines,
      for_nm w cs (before ++ bad :: after) out
        = (Raise OSError, out ++ map Line lines) /\
      length lines = length (List.filter (isfile w) before)).
  { intros cs. clear Hf. induction before as [|nm names IH]; intros out.
    - exists []. simpl. rewrite Hbad, Hread, app_nil_r. now simpl.
    - apply Forall_cons in Hall as [Hnm Hall]. simpl.
      destruct (isfile w nm) eqn:Ef; simpl.
      + destruct (read w nm) as [data|] eqn:Er; [|now destruct Hnm].
        destruct (IH Hall (out ++ [Line (report cs nm (hexdigest data))]))
          as (lines & Hrun & Hlen).
        exists (report cs nm (hexdigest data) :: lines).
        fold for_nm. rewrite Hrun, <- app_assoc. simpl. now rewrite Hlen.
      + destruct (IH Hall out) as (lines & Hrun & Hlen). now exists lines. }
  destruct (before ++ bad :: after) as [|nm names] eqn:Hn;
    [now destruct before|].
  rewrite (main_run w args nm names Hf), Hf.
  destruct (given (checksum args) && _).
  - destruct (Hloop None [notice]) as (lines & Hrun & Hlen).
    exists [notice], lines. rewrite Hrun. auto.
  - destruct (Hloop (checksum args) []) as (lines & Hrun & Hlen).
    exists [], lines. rewrite Hrun. auto.
Qed.

(** X8: the comparison tells capitals from small letters.  When
    digests are in lower case, as those of [hashlib] are, a checksum of
    64 characters with a capital in it matches no file. *)
Theorem sha256_capitals_never_match w args c :
  (forall data, lower (hexdigest data) = hexdigest data) ->
  0 < length (file args) ->
  all_readable w (file args) ->
  checksum args = Some c ->
  String.length c = 64 ->
  lower c <> c ->
  exists lines,
    main w args = (Ret tt, map Line lines) /\
    Forall2 (fun nm line =>
               exists data,
                 read w nm = Some data /\
                 line = digest_text nm data +:+ " [ Failed ]")
            (List.filter (isfile w) (file args)) lines.
Proof.
  intros Hlower Hne Hall Hc Hlen Hcap.
  destruct (main_valid_checksum w args c Hne Hc Hlen) as [Hmain Hgiven].
  destruct (for_nm_lines w (Some c) (file args) [] Hall) as (lines & Hrun & Hlines).
  exists lines. rewrite Hmain. split; [exact Hrun|].
  eapply Forall2_impl; [exact Hlines|].
  intros f line (data & Hr & ->). exists data. split; [done|].
  unfold report, digest_text. rewrite Hgiven.
  destruct (String.eqb_spec c (hexdigest data)) as [->|]; [|done].
  exfalso. apply Hcap, Hlower.
Qed.

End Sha256Facts.

Section Sha256Runs.
Import Py Sha256.

(** A stand-in for [hashlib] where a run is evaluated: every input
    gets the digest of the empty input. *)
Definition stand_in_digest (data : string) : string :=
  "e3b0c44298fc1c149afbf4c8996fb92427ae41e4649b934ca495991b7852b855".

(** A directory 'dir', a file 'locked' that cannot be opened, and
    empty files under every other name. *)
Definition some_files : world := {|
  isfile := fun nm => negb (String.eqb nm "dir");
  read := fun nm => if String.eqb nm "locked" then None else Some ""
|}.

Lemma sha256_one_line_per_regular_file_witness :
  exists before lines,
    main stand_in_digest some_files {| checksum := Some "abc"; file := ["a"; "dir"; "b"] |}
      = (Ret tt, before ++ map Line lines) /\
    (before = [] \/ before = [notice]) /\
    Forall2 (fun nm line =>
               exists data verdict,
                 read some_files nm = Some data /\
                 line = digest_text stand_in_digest nm data +:+ verdict /\
                 (verdict = "" \/ verdict = " [ OK ]" \/ verdict = " [ Failed ]"))
            (List.filter (isfile some_files) ["a"; "dir"; "b"]) lines.
Proof.
  apply (sha256_one_line_per_regular_file stand_in_digest some_files
           {| checksum := Some "abc"; file := ["a"; "dir"; "b"] |}).
  - simpl. lia.
  - repeat (constructor; [intros _ H; discriminate H|]). constructor.
Defined.

Lemma sha256_verdicts_witness :
  exists lines,
    main stand_in_digest some_files
         {| checksum := Some (stand_in_digest ""); file := ["a"; "dir"] |}
      = (Ret tt, map Line lines) /\
    Forall2 (fun nm line =>
               exists data,
                 read some_files nm = Some data /\
                 line = digest_text stand_in_digest nm data
                        +:+ (if String.eqb (stand_in_digest "") (stand_in_digest data)
                             then " [ OK ]" else " [ Failed ]"))
            (List.filter (isfile some_files) ["a"; "dir"]) lines.
Proof.
  apply (sha256_verdicts stand_in_digest some_files
           {| checksum := Some (stand_in_digest ""); file := ["a"; "dir"] |}).
  - simpl. lia.
  - repeat (constructor; [intros _ H; discriminate H|]). constructor.
  - reflexivity.
  - reflexivity.
Defined.

Lemma sha256_bad_checksum_is_ignored_witness :
  main stand_in_digest some_files {| checksum := Some "abc"; file := ["a"; "locked"] |}
    = (fst (main stand_in_digest some_files {| checksum := None; file := ["a"; "locked"] |}),
       notice :: snd (main stand_in_digest some_files
                        {| checksum := None; file := ["a"; "locked"] |})).
Proof.
  apply (sha256_bad_checksum_is_ignored stand_in_digest some_files "abc" ["a"; "locked"]).
  - simpl. lia.
  - simpl. lia.
  - simpl. lia.
Defined.

Lemma sha256_unreadable_file_aborts_witness :
  exists first lines,
    main stand_in_digest some_files
         {| checksum := None; file := ["a"; "dir"; "locked"; "b"] |}
      = (Raise OSError, first ++ map Line lines) /\
    (first = [] \/ first = [notice]) /\
    length lines = length (List.filter (isfile some_files) ["a"; "dir"]).
Proof.
  apply (sha256_unreadable_file_aborts stand_in_digest some_files
           {| checksum := None; file := ["a"; "dir"; "locked"; "b"] |}
           ["a"; "dir"] "locked" ["b"]).
  - reflexivity.
  - repeat (constructor; [intros _ H; discriminate H|]). constructor.
  - reflexivity.
  - reflexivity.
Defined.

Lemma sha256_capitals_never_match_witness :
  exists lines,
    main stand_in_digest some_files
         {| checksum := Some "E3B0C44298FC1C149AFBF4C8996FB92427AE41E4649B934CA495991B7852B855";
            file := ["a"] |}
      = (Ret tt, map Line lines) /\
    Forall2 (fun nm line =>
               exists data,
                 read some_files nm = Some data /\
                 line = digest_text stand_in_digest nm data +:+ " [ Failed ]")
            (List.filter (isfile some_files) ["a"]) lines.
Proof.
  apply (sha256_capitals_never_match stand_in_digest some_files
           {| checksum := Some "E3B0C44298FC1C149AFBF4C8996FB92427AE41E4649B934CA495991B7852B855";
              file := ["a"] |}
           "E3B0C44298FC1C149AFBF4C8996FB92427AE41E4649B934CA495991B7852B855").
  - intros data. vm_compute. reflexivity.
  - simpl. lia.
  - repeat (constructor; [intros _ H; discriminate H|]). constructor.
  - reflexivity.
  - reflexivity.
  - vm_compute. intros H. discriminate H.
Defined.

End Sha256Runs.

(** ** make-mp3.py: what holds of every run *)

Section Mp3Safety.
Import Py MakeMp3.

(** The processes that got an outcome line, and the [Popen] calls with
    their command lines, in the order of the events. *)
Fixpoint reported (t : list event) : list nat :=
  match t with
  | [] => []
  | Finished p _ :: t' => p :: reported t'
  | Failed p _ _ :: t' => p :: reported t'
  | _ :: t' => reported t'
  end.

Fixpoint spawns (t : list event) : list (nat * list string) :=
  match t with
  | [] => []
  | Spawn p args :: t' => (p, args) :: spawns t'
  | _ :: t' => spawns t'
  end.

(** The command line [startmp3] builds for a track. *)
Definition lame_command (t : tinfo) : list string :=
  ["lame"; "-S"; "--preset"; "standard"; "--tt"; title t; "--ta";
   artist t; "--tl"; album t; "--tn"; format_02d (num t);
   ifname t; ofname t].

Lemma reported_app t u : reported (t ++ u) = reported t ++ reported u.
Proof.
  induction t as [|e t IH]; simpl; [done|]. destruct e; simpl; now rewrite IH.
Qed.

Lemma spawns_app t u : spawns (t ++ u) = spawns t ++ spawns u.
Proof.
  induction t as [|e t IH]; simpl; [done|]. destruct e; simpl; now rewrite IH.
Qed.

Lemma spawned_spawns t : spawned t = map fst (spawns t).
Proof.
  induction t as [|e t IH]; simpl; [done|]. destruct e; simpl; now rewrite IH.
Qed.

Lemma reported_report p fn rc : reported [report p fn rc] = [p].
Proof. unfold report. now destruct (rc =? 0)%Z. Qed.

Lemma spawns_report p fn rc : spawns [report p fn rc] = [].
Proof. unfold report. now destruct (rc =? 0)%Z. Qed.

(** What a stretch of polling that printed [evs] and ended as [r] has
    done, whatever the processes do: it started nothing, it reported
    processes of the list, each once, it did not raise, and the list it
    hands back holds distinct processes of the old list that were not
    reported, among them all that hang. *)
Definition polled (procs : list proc) (evs : list event)
    (r : result (list proc)) : Prop :=
  spawns evs = [] /\
  NoDup (reported evs) /\
  (forall p, p ∈ reported evs -> p ∈ map pidf procs) /\
  match r with
  | Ret procs' =>
      NoDup (map pidf procs') /\
      (forall p, p ∈ map pidf procs' -> p ∈ map pidf procs /\ p ∉ reported evs) /\
      (forall x, x ∈ procs -> state (snd x) = Hangs -> x ∈ procs')
  | Timeout => True
  | _ => False
  end.

Lemma polled_nothing procs : NoDup (map pidf procs) -> polled procs [] (Ret procs).
Proof.
  intros Hnd. split; [done|]. split; [constructor|]. split.
  - intros p Hp. now apply elem_of_nil in Hp.
  - split; [done|]. split; [|done]. intros p Hp. split; [done|].
    apply not_elem_of_nil.
Qed.

Lemma polled_timeout procs : polled procs [] Timeout.
Proof.
  split; [done|]. split; [constructor|]. split; [|done].
  intros p Hp. now apply elem_of_nil in Hp.
Qed.

Lemma polled_trans a e1 b e2 r :
  polled a e1 (Ret b) -> polled b e2 r -> polled a (e1 ++ e2) r.
Proof.
  intros (Hs1 & Hn1 & Hr1 & Hb & Hsub & Hh1) (Hs2 & Hn2 & Hr2 & Hres).
  split; [now rewrite spawns_app, Hs1, Hs2|].
  split.
  { rewrite reported_app. apply NoDup_app. split; [done|]. split; [|done].
    intros p Hp1 Hp2. apply Hr2, Hsub in Hp2 as [_ Hp2]. now apply Hp2. }
  split.
  { intros p Hp. rewrite reported_app in Hp. apply elem_of_app in Hp as [Hp|Hp].
    - now apply Hr1.
    - now apply Hr2, Hsub in Hp as [Hp _]. }
  destruct r as [c| | |]; try done.
  destruct Hres as (Hc & Hsub2 & Hh2).
  split; [done|]. split.
  - intros p Hp. apply Hsub2 in Hp as [Hp Hn].
    apply Hsub in Hp as [Hp Hn']. split; [done|].
    rewrite reported_app. intros Hin. apply elem_of_app in Hin as [Hin|Hin]; auto.
  - intros x Hx Hhang. apply Hh2; [|done]. now apply Hh1.
Qed.

Lemma elem_of_delete_other {A} (l : list A) i x y :
  l !! i = Some y -> x ∈ l -> x <> y -> x ∈ delete i l.
Proof.
  intros Hi Hx Hne. apply list_elem_of_lookup in Hx as [j Hj].
  destruct (decide (j = i)) as [->|Hji]; [congruence|].
  apply list_elem_of_lookup.
  destruct (decide (j < i)).
  - exists j. now rewrite list_lookup_delete_lt.
  - exists (j - 1). rewrite list_lookup_delete_ge by lia.
    now replace (S (j - 1)) with j by lia.
Qed.

Lemma elem_of_insert_other {A} (l : list A) i x y z :
  l !! i = Some y -> x ∈ l -> x <> y -> x ∈ <[i := z]> l.
Proof.
  intros Hi Hx Hne. apply list_elem_of_lookup in Hx as [j Hj].
  destruct (decide (j = i)) as [->|Hji]; [congruence|].
  apply list_elem_of_lookup. exists j. now rewrite list_lookup_insert_ne by done.
Qed.

Lemma pid_not_in_delete l i x :
  NoDup (map pidf l) -> l !! i = Some x -> pidf x ∉ map pidf (delete i l).
Proof.
  intros Hnd Hi. rewrite (delete_Permutation l i x Hi) in Hnd.
  simpl in Hnd. now apply NoDup_cons in Hnd as [Hx _].
Qed.

(** One pass of [for it in proclist], for any processes and any fuel. *)
Lemma for_it_any fuel : forall i procs t n,
  NoDup (map pidf procs) ->
  exists evs,
    snd (for_it fuel i procs (St t n)) = St (t ++ evs) n /\
    polled procs evs (fst (for_it fuel i procs (St t n))).
Proof.
  induction fuel as [|fuel IH]; intros i procs t n Hnd.
  - exists []. simpl. rewrite app_nil_r. split; [done|apply polled_timeout].
  - rewrite for_it_S. destruct (procs !! i) as [[fn [p b]]|] eqn:Ei.
    + destruct b as [[|k] rc|]; unfold poll; cbn [state pid].
      * rewrite (list_insert_id _ _ _ Ei), (remove_delete _ _ _ Hnd Ei).
        rewrite bind_run, emit_run. cbn [out started].
        assert (Hnd' : NoDup (map pidf (delete i procs))).
        { rewrite (list_fmap_delete pidf).
          apply (sublist_NoDup _ _ Hnd (sublist_delete _ i)). }
        destruct (IH (S i) (delete i procs) (t ++ [report p fn rc]) n Hnd')
          as (evs & Hst & Hpol).
        exists ([report p fn rc] ++ evs). rewrite Hst, app_assoc.
        split; [done|].
        apply (polled_trans procs _ (delete i procs)); [|done].
        pose proof (pid_not_in_delete procs i _ Hnd Ei) as Hnot.
        split; [apply spawns_report|]. rewrite reported_report.
        split; [apply NoDup_singleton|]. split.
        { intros q Hq. apply list_elem_of_singleton in Hq. subst q.
          apply list_elem_of_fmap. eexists. split; [|eapply list_elem_of_lookup_2, Ei].
          done. }
        split; [done|]. split.
        { intros q Hq. split.
          - rewrite (list_fmap_delete pidf) in Hq.
            now apply list_elem_of_delete_inv in Hq.
          - intros Hin. apply list_elem_of_singleton in Hin. subst q.
            now apply Hnot. }
        intros x Hx Hhang. apply (elem_of_delete_other _ _ _ _ Ei Hx).
        intros ->. discriminate Hhang.
      * set (x' := (fn, {| pid := p; state := Exits k rc |})).
        assert (Hp1 : map pidf (<[i := x']> procs) = map pidf procs).
        { rewrite (list_fmap_insert pidf). apply list_insert_id.
          now rewrite (list_lookup_fmap pidf), Ei. }
        destruct (IH (S i) (<[i := x']> procs) t n ltac:(now rewrite Hp1))
          as (evs & Hst & Hpol).
        exists evs. split; [done|].
        destruct Hpol as (Hs & Hn & Hr & Hres). rewrite Hp1 in Hr.
        split; [done|]. split; [done|]. split; [done|].
        destruct (for_it fuel (S i) _ _).1 as [procs'| | |]; try done.
        destruct Hres as (Hc & Hsub & Hh). rewrite Hp1 in Hsub.
        split; [done|]. split; [done|].
        intros x Hx Hhang. apply Hh; [|done].
        apply (elem_of_insert_other _ _ _ _ _ Ei Hx).
        intros ->. discriminate Hhang.
      * rewrite (list_insert_id _ _ _ Ei). apply IH, Hnd.
    + exists []. simpl. rewrite app_nil_r. split; [done|]. now apply polled_nothing.
Qed.

Lemma polled_sleep procs :
  NoDup (map pidf procs) -> polled procs [Sleep] (Ret procs).
Proof.
  intros Hnd. split; [done|]. split; [constructor|]. split.
  - intros p Hp. now apply elem_of_nil in Hp.
  - split; [done|]. split; [|done]. intros p Hp. split; [done|].
    apply not_elem_of_nil.
Qed.

Lemma polled_NoDup procs evs procs' :
  polled procs evs (Ret procs') -> NoDup (map pidf procs').
Proof. now intros (_ & _ & _ & H & _). Qed.

Lemma manageprocs_any fuel procs t n :
  NoDup (map pidf procs) ->
  exists evs,
    snd (manageprocs fuel procs (St t n)) = St (t ++ evs) n /\
    polled procs evs (fst (manageprocs fuel procs (St t n))).
Proof.
  intros Hnd. unfold manageprocs. rewrite bind_run.
  destruct (for_it_any fuel 0 procs t n Hnd) as (evs & Hst & Hpol).
  destruct (for_it fuel 0 procs (St t n)) as [r1 s1]. simpl in Hst, Hpol. subst s1.
  destruct r1 as [procs1| | |].
  - rewrite bind_run, emit_run. cbn [out started].
    exists (evs ++ [Sleep]). rewrite app_assoc. split; [done|].
    apply (polled_trans _ _ procs1); [done|].
    apply polled_sleep. eapply polled_NoDup, Hpol.
  - now destruct Hpol as (_ & _ & _ & ?).
  - now destruct Hpol as (_ & _ & _ & ?).
  - now exists evs.
Qed.

Lemma wait_for_slot_any C fuel : forall procs t n,
  NoDup (map pidf procs) ->
  exists evs,
    snd (wait_for_slot fuel C procs (St t n)) = St (t ++ evs) n /\
    polled procs evs (fst (wait_for_slot fuel C procs (St t n))).
Proof.
  induction fuel as [|fuel IH]; intros procs t n Hnd.
  - exists []. simpl. rewrite app_nil_r. split; [done|apply polled_timeout].
  - simpl. destruct (length procs =? C).
    + rewrite bind_run.
      destruct (manageprocs_any fuel procs t n Hnd) as (evs1 & Hst1 & Hpol1).
      destruct (manageprocs fuel procs (St t n)) as [r1 s1].
      simpl in Hst1, Hpol1. subst s1.
      destruct r1 as [procs1| | |].
      * destruct (IH procs1 (t ++ evs1) n (polled_NoDup _ _ _ Hpol1))
          as (evs2 & Hst2 & Hpol2).
        exists (evs1 ++ evs2). rewrite app_assoc. split; [done|].
        now apply (polled_trans _ _ procs1).
      * now destruct Hpol1 as (_ & _ & _ & ?).
      * now destruct Hpol1 as (_ & _ & _ & ?).
      * now exists evs1.
    + exists []. simpl. rewrite app_nil_r. split; [done|]. now apply polled_nothing.
Qed.

Lemma drain_any fuel : forall procs t n,
  NoDup (map pidf procs) ->
  exists evs,
    snd (drain fuel procs (St t n)) = St (t ++ evs) n /\
    polled procs evs (fst (drain fuel procs (St t n))) /\
    (forall procs', fst (drain fuel procs (St t n)) = Ret procs' -> procs' = []).
Proof.
  induction fuel as [|fuel IH]; intros procs t n Hnd.
  - exists []. simpl. rewrite app_nil_r. split; [done|]. split; [apply polled_timeout|done].
  - simpl. destruct (0 <? length procs) eqn:E.
    + rewrite bind_run.
      destruct (manageprocs_any fuel procs t n Hnd) as (evs1 & Hst1 & Hpol1).
      destruct (manageprocs fuel procs (St t n)) as [r1 s1].
      simpl in Hst1, Hpol1. subst s1.
      destruct r1 as [procs1| | |].
      * destruct (IH procs1 (t ++ evs1) n (polled_NoDup _ _ _ Hpol1))
          as (evs2 & Hst2 & Hpol2 & Hempty).
        exists (evs1 ++ evs2). rewrite app_assoc. split; [done|].
        split; [now apply (polled_trans _ _ procs1)|done].
      * now destruct Hpol1 as (_ & _ & _ & ?).
      * now destruct Hpol1 as (_ & _ & _ & ?).
      * exists evs1. split; [done|]. split; [done|]. intros ? H. discriminate H.
    + exists []. simpl. rewrite app_nil_r. split; [done|].
      split; [now apply polled_nothing|].
      intros procs' H. inversion H; subst. apply Nat.ltb_ge in E.
      destruct procs'; [done|simpl in E; lia].
Qed.

(** What holds of the events at any point: no process has two
    outcome lines, and the [n] processes started so far are numbered
    in the order they were started. *)
Definition sound (t : list event) (n : nat) : Prop :=
  NoDup (reported t) /\ (forall p, p ∈ reported t -> p < n) /\
  map fst (spawns t) = seq 0 n.

(** What holds between the rounds of [main]'s loops: the list holds
    distinct processes that were started and not reported, among them
    every process that hangs. *)
Definition steady (w : world) (procs : list proc) (t : list event) (n : nat) : Prop :=
  sound t n /\
  NoDup (map pidf procs) /\
  (forall p, p ∈ map pidf procs -> p < n /\ p ∉ reported t) /\
  (forall j, j < n -> lame w j = Hangs ->
             exists fn, (fn, {| pid := j; state := Hangs |}) ∈ procs).

Lemma steady_polled w procs t n evs r :
  steady w procs t n -> polled procs evs r ->
  sound (t ++ evs) n /\
  match r with
  | Ret procs' => steady w procs' (t ++ evs) n
  | Timeout => True
  | _ => False
  end.
Proof.
  intros ((Hnd & Hlt & Hsp) & Hpd & Hin & Hh) (Hs & Hn & Hr & Hres).
  assert (Hsound : sound (t ++ evs) n).
  { split; [|split].
    - rewrite reported_app. apply NoDup_app. split; [done|]. split; [|done].
      intros p Hp1 Hp2. apply Hr, Hin in Hp2 as [_ Hp2]. now apply Hp2.
    - intros p Hp. rewrite reported_app in Hp. apply elem_of_app in Hp as [Hp|Hp].
      + now apply Hlt.
      + now apply Hr, Hin in Hp as [Hp _].
    - now rewrite spawns_app, Hs, app_nil_r. }
  split; [done|]. destruct r as [procs'| | |]; try done.
  destruct Hres as (Hc & Hsub & Hkeep).
  split; [done|]. split; [done|]. split.
  - intros p Hp. apply Hsub in Hp as [Hp Hnot]. apply Hin in Hp as [Hp Hnot'].
    split; [done|]. rewrite reported_app. intros H.
    apply elem_of_app in H as [H|H]; auto.
  - intros j Hj Hhang. destruct (Hh j Hj Hhang) as [fn Hfn].
    exists fn. now apply Hkeep.
Qed.

Lemma startmp3_exact w t0 t n :
  starts w n = true ->
  startmp3 w t0 (St t n) =
    (Ret (ofname t0, {| pid := n; state := lame w n |}),
     St (t ++ [Spawn n (lame_command t0);
               Say ("Start processing " +:+ quoted (title t0) +:+ " as " +:+ ofname t0)])
        (S n)).
Proof.
  intros Hgo. unfold startmp3. rewrite bind_run. unfold popen at 1.
  cbn [out started]. rewrite Hgo, bind_run, emit_run. cbn [out started].
  now rewrite <- app_assoc.
Qed.

(** A process that cannot be started: [startmp3] raises, having
    printed nothing. *)
Lemma startmp3_fails w t0 t n :
  starts w n = false -> startmp3 w t0 (St t n) = (Raise OSError, St t n).
Proof.
  intros Hno. unfold startmp3. rewrite bind_run. unfold popen at 1.
  cbn [out started]. now rewrite Hno.
Qed.

(** Starting the next process keeps the lists and the events in step. *)
Lemma steady_started w procs t n fn args line :
  steady w procs t n ->
  steady w (procs ++ [(fn, {| pid := n; state := lame w n |})])
         (t ++ [Spawn n args; Say line]) (S n).
Proof.
  intros ((Hnd & Hlt & Hsp) & Hpd & Hin & Hh).
  assert (Hrep : reported (t ++ [Spawn n args; Say line]) = reported t).
  { rewrite reported_app. simpl. now rewrite app_nil_r. }
  split; [split; [|split]|split; [|split]].
  - now rewrite Hrep.
  - rewrite Hrep. intros p Hp. apply Hlt in Hp. lia.
  - rewrite spawns_app, map_app, Hsp, seq_S. reflexivity.
  - rewrite map_app. apply NoDup_app. split; [done|]. split; [|apply NoDup_singleton].
    intros p Hp Hp'. apply list_elem_of_singleton in Hp'. subst p.
    apply Hin in Hp as [Hp _]. unfold pidf in Hp. simpl in Hp. lia.
  - rewrite Hrep, map_app. intros p Hp. apply elem_of_app in Hp as [Hp|Hp].
    + apply Hin in Hp as [Hp Hnot]. split; [lia|done].
    + apply list_elem_of_singleton in Hp. subst p. unfold pidf. simpl.
      split; [lia|]. intros Hrp. apply Hlt in Hrp. lia.
  - intros j Hj Hhang. destruct (decide (j = n)) as [->|Hne].
    + exists fn. apply elem_of_app. right. rewrite Hhang. apply list_elem_of_here.
    + destruct (Hh j ltac:(lia) Hhang) as [fn' Hfn']. exists fn'.
      apply elem_of_app. now left.
Qed.

(** The loop over the tracks, for any processes and any fuel: the
    tracks are started in order, each with its command line, as far as
    the loop gets; it ends early only with the [OSError] of a process
    that could not be started. *)
Lemma for_track_any C fuel w : forall tracks procs t n,
  steady w procs t n ->
  exists evs m,
    snd (for_track fuel w C tracks procs (St t n)) = St (t ++ evs) (n + m) /\
    sound (t ++ evs) (n + m) /\
    map snd (spawns evs) = map lame_command (take m tracks) /\
    match fst (for_track fuel w C tracks procs (St t n)) with
    | Ret procs' => m = length tracks /\ steady w procs' (t ++ evs) (n + m)
    | Timeout => True
    | Raise e => e = OSError /\ m < length tracks /\ starts w (n + m) = false
    | Exit _ => False
    end.
Proof.
  induction tracks as [|t0 tracks IH]; intros procs t n Hst.
  - exists [], 0. simpl. rewrite app_nil_r, Nat.add_0_r.
    split; [done|]. split; [apply Hst|]. now split.
  - simpl for_track. rewrite bind_run.
    destruct (wait_for_slot_any C fuel procs t n (proj1 (proj2 Hst)))
      as (evs1 & Hs1 & Hpol1).
    destruct (wait_for_slot fuel C procs (St t n)) as [r1 s1].
    simpl in Hs1, Hpol1. subst s1.
    destruct (steady_polled w procs t n evs1 r1 Hst Hpol1) as [Hsound1 Hres1].
    destruct r1 as [procs1| | |]; try done.
    + destruct (starts w n) eqn:Hgo; rewrite bind_run; cycle 1.
      { rewrite (startmp3_fails _ _ _ _ Hgo). exists evs1, 0.
        rewrite Nat.add_0_r. split; [done|]. split; [done|].
        destruct Hpol1 as (Hsp1 & _). rewrite Hsp1. simpl.
        split; [done|]. split; [done|]. split; [lia|done]. }
      rewrite (startmp3_exact _ _ _ _ Hgo).
      pose proof (steady_started w procs1 (t ++ evs1) n (ofname t0)
                    (lame_command t0)
                    ("Start processing " +:+ quoted (title t0) +:+ " as " +:+ ofname t0)
                    Hres1) as Hst2.
      destruct (IH _ _ _ Hst2) as (evs2 & m & Hs2 & Hsound2 & Hcmd & Hres2).
      exists (evs1 ++ [Spawn n (lame_command t0);
                       Say ("Start processing " +:+ quoted (title t0) +:+ " as "
                            +:+ ofname t0)] ++ evs2), (S m).
      rewrite !app_assoc in *. replace (n + S m) with (S n + m) by lia.
      split; [done|]. split; [done|]. split.
      * destruct Hpol1 as (Hsp1 & _). rewrite !spawns_app, Hsp1. simpl.
        now rewrite Hcmd.
      * destruct (for_track fuel w C tracks _ _).1; try done.
        -- destruct Hres2 as [-> Hres2]. now split.
        -- destruct Hres2 as (-> & Hm & Hno). split; [done|].
           split; [simpl; lia|]. exact Hno.
    + exists evs1, 0. rewrite Nat.add_0_r. split; [done|]. split; [done|].
      destruct Hpol1 as (Hsp1 & _). now rewrite Hsp1.
Qed.

(** The two loops of [main] one after the other. *)
Lemma loops_any fuel w C tracks t :
  steady w [] t 0 ->
  exists evs m,
    snd ((procs ← for_track fuel w C tracks []; drain fuel procs) (St t 0))
      = St (t ++ evs) m /\
    sound (t ++ evs) m /\
    map snd (spawns evs) = map lame_command (take m tracks) /\
    match fst ((procs ← for_track fuel w C tracks []; drain fuel procs) (St t 0)) with
    | Ret procs' =>
        m = length tracks /\ procs' = [] /\
        forall j, j < length tracks -> lame w j <> Hangs
    | Timeout => True
    | Raise e => e = OSError /\ m < length tracks /\ starts w m = false
    | Exit _ => False
    end.
Proof.
  intros Hst. rewrite bind_run.
  destruct (for_track_any C fuel w tracks [] t 0 Hst)
    as (evs1 & m & Hs1 & Hsound1 & Hcmd & Hres1).
  destruct (for_track fuel w C tracks [] (St t 0)) as [r1 s1].
  simpl in Hs1, Hres1. subst s1.
  destruct r1 as [procs1| | |]; try done.
  - destruct Hres1 as [-> Hst1].
    destruct (drain_any fuel procs1 (t ++ evs1) (length tracks) (proj1 (proj2 Hst1)))
      as (evs2 & Hs2 & Hpol2 & Hempty).
    destruct (steady_polled w procs1 _ _ evs2 _ Hst1 Hpol2) as [Hsound2 Hres2].
    exists (evs1 ++ evs2), (length tracks). rewrite app_assoc.
    split; [done|]. split; [done|]. split.
    + destruct Hpol2 as (Hsp2 & _). now rewrite spawns_app, Hsp2, app_nil_r.
    + destruct (drain fuel procs1 _).1 as [procs2| | |] eqn:Er; try done.
      split; [done|]. split; [now apply Hempty|].
      intros j Hj Hhang. rewrite (Hempty procs2 eq_refl) in Hres2.
      destruct Hres2 as (_ & _ & _ & Hh).
      destruct (Hh j Hj Hhang) as [fn Hfn]. now apply elem_of_nil in Hfn.
  - exists evs1, m. simpl. split; [done|]. split; [done|]. now split.
  - exists evs1, m. simpl. split; [done|]. split; [done|]. now split.
Qed.

Lemma sound_start : sound [Probe ["lame"; "--help"]] 0.
Proof.
  split; [constructor|]. split; [|done]. intros p Hp. now apply elem_of_nil in Hp.
Qed.

Lemma steady_start w : steady w [] [Probe ["lame"; "--help"]] 0.
Proof.
  split; [apply sound_start|]. split; [constructor|]. split.
  - intros p Hp. now apply elem_of_nil in Hp.
  - intros j Hj. lia.
Qed.

Ltac ended_early :=
  split; [reflexivity|]; split; [reflexivity|]; intros ?; discriminate.

(** A run of [main]: either it ends before the loops, having started
    and reported nothing, or it is the two loops run after the probe on
    the tracks of the listing. *)
Lemma run_any fuel w argv :
  (spawns (out (snd (run fuel w argv))) = [] /\
   reported (out (snd (run fuel w argv))) = [] /\
   (forall procs, fst (run fuel w argv) <> Ret procs))
  \/
  (exists t0 tracks,
     probe w ["lame"; "--help"] = Status 0 /\
     trackdata w = Ret (t0 :: tracks) /\
     run fuel w argv
       = (procs ← for_track fuel w (cpu_count w) (t0 :: tracks) []; drain fuel procs)
           (St [Probe ["lame"; "--help"]] 0)).
Proof.
  remember (run fuel w argv) as x eqn:Hx.
  unfold run, main in Hx. rewrite bind_run in Hx. unfold checkfor in Hx.
  rewrite bind_run, emit_run in Hx. cbn [out started app] in Hx.
  destruct (probe w _) as [rc|] eqn:Ep;
    [destruct (rc =? 0)%Z eqn:Erc|]; try (left; subst x; cbn; ended_early).
  apply Z.eqb_eq in Erc. subst rc.
  unfold mret, M_ret, ret in Hx. rewrite bind_run in Hx. unfold lift in Hx.
  destruct (trackdata w) as [tracks| | |] eqn:Et;
    try (left; subst x; cbn; ended_early).
  destruct tracks as [|t0 tracks].
  - left. subst x. destruct (argv !! 0); cbn; ended_early.
  - right. now exists t0, tracks.
Qed.

(** With [lame] found and tracks in the listing, [main] is its two
    loops. *)
Lemma run_loops fuel w argv t0 tracks :
  probe w ["lame"; "--help"] = Status 0 ->
  trackdata w = Ret (t0 :: tracks) ->
  run fuel w argv
    = (procs ← for_track fuel w (cpu_count w) (t0 :: tracks) []; drain fuel procs)
        (St [Probe ["lame"; "--help"]] 0).
Proof.
  intros Hp Ht. unfold run, main. rewrite bind_run. unfold checkfor.
  rewrite bind_run, emit_run, Hp. cbn [out started app Z.eqb].
  unfold mret, M_ret, ret. rewrite bind_run. unfold lift. now rewrite Ht.
Qed.

Lemma sound_final t n :
  sound t n ->
  NoDup (reported t) /\ forall p, p ∈ reported t -> p ∈ spawned t.
Proof.
  intros (Hnd & Hlt & Hsp). split; [done|]. intros p Hp.
  rewrite spawned_spawns, Hsp. apply elem_of_seq. apply Hlt in Hp. lia.
Qed.

(** X9: in every run of make-mp3.py, whatever the [lame] processes do
    and however far the run is followed, no process gets two outcome
    lines ('Finished processing ...' or 'The conversion of ... exited
    with error code ...'), and every process that gets one is a
    process the run started. *)
Theorem outcome_reported_at_most_once fuel w argv :
  NoDup (reported (out (snd (run fuel w argv)))) /\
  forall p, p ∈ reported (out (snd (run fuel w argv))) ->
            p ∈ spawned (out (snd (run fuel w argv))).
Proof.
  destruct (run_any fuel w argv) as [(Hs & Hr & _)|(t0 & tracks & _ & _ & Hrun)].
  - rewrite Hr. split; [constructor|]. intros p Hp. now apply elem_of_nil in Hp.
  - rewrite Hrun.
    destruct (loops_any fuel w (cpu_count w) (t0 :: tracks) _ (steady_start w))
      as (evs & m & Hs & Hsound & _).
    rewrite Hs. cbn [out]. exact (sound_final _ _ Hsound).
Qed.

(** X10: the processes that make-mp3.py starts are [lame] runs for the
    tracks of the listing, one for each, in the order of the listing,
    each with the tags and file names of its track: at any point of
    any run the command lines started so far are those of the first
    [m] tracks, and a run that gets to its end has started all of them
    and has no process left in its list. *)
Theorem tracks_started_in_listing_order fuel w argv tracks :
  trackdata w = Ret tracks ->
  exists m,
    map fst (spawns (out (snd (run fuel w argv)))) = seq 0 m /\
    map snd (spawns (out (snd (run fuel w argv))))
      = map lame_command (take m tracks) /\
    forall procs, fst (run fuel w argv) = Ret procs ->
                  m = length tracks /\ procs = [].
Proof.
  intros Ht.
  destruct (run_any fuel w argv) as [(Hs & _ & Hr)|(t0 & tracks' & _ & Ht' & Hrun)].
  - exists 0. rewrite Hs. split; [done|]. split; [done|].
    intros procs Hp. now destruct (Hr procs).
  - rewrite Ht in Ht'. injection Ht' as ->. rewrite Hrun.
    destruct (loops_any fuel w (cpu_count w) (t0 :: tracks') _ (steady_start w))
      as (evs & m & Hs & Hsound & Hcmd & Hres).
    exists m. rewrite Hs. cbn [out]. split; [apply Hsound|]. split.
    + rewrite spawns_app. exact Hcmd.
    + intros procs Hp. rewrite Hp in Hres. now destruct Hres as (-> & -> & _).
Qed.

(** X11: make-mp3.py has no timeout for an encoder.  When [lame] is
    found and the process of one of the tracks of the listing never
    exits, the run cannot come to its end: either a
    [subprocess.Popen] fails and the run ends with its [OSError], or,
    however many loop rounds the run is followed for, it is still
    polling and sleeping.  When every process can be started, it is
    the second. *)
Theorem hanging_encoder_blocks_the_run fuel w argv tracks j :
  probe w ["lame"; "--help"] = Status 0 ->
  trackdata w = Ret tracks ->
  j < length tracks ->
  lame w j = Hangs ->
  (fst (run fuel w argv) = Timeout \/ fst (run fuel w argv) = Raise OSError) /\
  ((forall k, k < length tracks -> starts w k = true) ->
   fst (run fuel w argv) = Timeout).
Proof.
  intros Hp Ht Hj Hhang. destruct tracks as [|t0 tracks]; [simpl in Hj; lia|].
  rewrite (run_loops fuel w argv t0 tracks Hp Ht).
  destruct (loops_any fuel w (cpu_count w) (t0 :: tracks) _ (steady_start w))
    as (evs & m & _ & _ & _ & Hres).
  destruct (_.1) as [procs|e| |]; try done.
  - destruct Hres as (_ & _ & Hno). now destruct (Hno j Hj).
  - destruct Hres as (-> & Hm & Hno). split; [now right|].
    intros Hgo. rewrite (Hgo m Hm) in Hno. discriminate Hno.
  - split; [now left|done].
Qed.

End Mp3Safety.

Section Mp3SafetyRuns.
Import Py MakeMp3.

(** The listing of [demo_world], with a second encoder that hangs. *)
Definition stuck_world : world := {|
  probe := probe demo_world;
  titels := titels demo_world;
  access := access demo_world;
  cpu_count := cpu_count demo_world;
  lame := fun n => if n =? 1 then Hangs else Exits n 0;
  starts := fun _ => true
|}.

Lemma tracks_started_in_listing_order_witness :
  exists m,
    map fst (spawns (out (snd (run 30 demo_world ["make-mp3"])))) = seq 0 m /\
    map snd (spawns (out (snd (run 30 demo_world ["make-mp3"]))))
      = map lame_command (take m demo_tracks) /\
    forall procs, fst (run 30 demo_world ["make-mp3"]) = Ret procs ->
                  m = length demo_tracks /\ procs = [].
Proof.
  apply (tracks_started_in_listing_order 30 demo_world ["make-mp3"] demo_tracks).
  vm_compute. reflexivity.
Defined.

Lemma hanging_encoder_blocks_the_run_witness :
  fst (run 30 stuck_world ["make-mp3"]) = Timeout.
Proof.
  apply (hanging_encoder_blocks_the_run 30 stuck_world ["make-mp3"] demo_tracks 1).
  - reflexivity.
  - vm_compute. reflexivity.
  - simpl. lia.
  - reflexivity.
  - intros k _. reflexivity.
Defined.

End Mp3SafetyRuns.

(** ** make-mp3.py: one pass of [manageprocs], and a bad listing *)

Section Mp3Passes.
Import Py MakeMp3.

(** The entries at positions 0, 2, 4, ... of a list, and those at
    positions 1, 3, 5, ... *)
Fixpoint evens {A} (l : list A) : list A :=
  match l with
  | [] => []
  | x :: r => x :: match r with
                   | [] => []
                   | _ :: r' => evens r'
                   end
  end.

Definition odds {A} (l : list A) : list A :=
  match l with
  | [] => []
  | _ :: r => evens r
  end.

(** A process that has ended: the next [poll()] gives its status. *)
Definition ended (x : proc) : bool :=
  match state (snd x) with
  | Exits 0 _ => true
  | _ => false
  end.

Lemma odds_cons2 {A} (x y : A) r : odds (x :: y :: r) = y :: odds r.
Proof. reflexivity. Qed.

Lemma evens_cons2 {A} (x y : A) r : evens (x :: y :: r) = x :: evens r.
Proof. reflexivity. Qed.

(** The loop of [manageprocs] from position [length pre] on, when all
    the processes from there on have ended: removing the entry it
    looks at moves the next one into its place, and the iterator steps
    over that one. *)
Lemma for_it_ended fuel : forall pre rest t n,
  NoDup (map pidf (pre ++ rest)) ->
  forallb ended rest = true ->
  length rest < fuel ->
  exists evs,
    for_it fuel (length pre) (pre ++ rest) (St t n)
      = (Ret (pre ++ odds rest), St (t ++ evs) n) /\
    reported evs = map pidf (evens rest).
Proof.
  induction fuel as [|fuel IH]; intros pre rest t n Hnd Hall Hlen; [lia|].
  destruct rest as [|[fn pr] rest].
  - exists []. simpl. rewrite !app_nil_r.
    rewrite (proj2 (lookup_ge_None pre (length pre))) by lia. done.
  - simpl for_it. rewrite list_lookup_middle by done.
    simpl in Hall. apply andb_prop in Hall as [Hx Hall].
    unfold ended in Hx. simpl in Hx. unfold poll.
    destruct (state pr) as [[|k] rc|] eqn:Est; try done.
    rewrite list_insert_id by now apply list_lookup_middle.
    rewrite (remove_delete _ (length pre) (fn, pr) Hnd)
      by now apply list_lookup_middle.
    rewrite delete_middle, bind_run, emit_run. cbn [out started].
    assert (Hnd' : NoDup (map pidf (pre ++ rest))).
    { rewrite <- (delete_middle pre rest (fn, pr)), list_fmap_delete.
      apply (sublist_NoDup _ _ Hnd (sublist_delete _ _)). }
    destruct rest as [|y rest].
    + exists [report (pid pr) fn rc]. rewrite app_nil_r in *.
      destruct fuel as [|fuel]; [simpl in Hlen; lia|]. simpl for_it.
      rewrite (proj2 (lookup_ge_None pre (S (length pre)))) by lia.
      split; [|now rewrite reported_report].
      unfold odds. simpl evens. now rewrite app_nil_r.
    + simpl in Hall. apply andb_prop in Hall as [_ Hall].
      destruct (IH (pre ++ [y]) rest (t ++ [report (pid pr) fn rc]) n)
        as (evs & Hrun & Hrep).
      * now rewrite <- app_assoc.
      * done.
      * simpl in Hlen. lia.
      * exists (report (pid pr) fn rc :: evs).
        rewrite length_app, Nat.add_1_r, <- !app_assoc in Hrun. simpl in Hrun.
        rewrite Hrun, odds_cons2, evens_cons2. split; [done|].
        change (report (pid pr) fn rc :: evs)
          with ([report (pid pr) fn rc] ++ evs).
        now rewrite reported_app, reported_report, Hrep.
Qed.

(** X12: [manageprocs] removes entries from the list it is iterating
    over, so it steps over the entry after each one it removes.  One
    call on a list of processes that have all ended reports and removes
    only every other one, starting with the first; the others stay in
    the list unreported until a later call. *)
Theorem one_pass_reaps_every_other_process fuel procs t n :
  NoDup (map pidf procs) ->
  forallb ended procs = true ->
  length procs < fuel ->
  exists evs,
    manageprocs fuel procs (St t n)
      = (Ret (odds procs), St (t ++ evs ++ [Sleep]) n) /\
    reported evs = map pidf (evens procs).
Proof.
  intros Hnd Hall Hlen.
  destruct (for_it_ended fuel [] procs t n Hnd Hall Hlen) as (evs & Hrun & Hrep).
  exists evs. split; [|done]. unfold manageprocs.
  simpl in Hrun. rewrite bind_run, Hrun, bind_run, emit_run. cbn [out started].
  now rewrite <- app_assoc.
Qed.

(** A line of the listing whose first word is not a number stops
    [trackdata], whatever the lines before it gave. *)
Lemma track_lines_bad w album artist l word words post : forall pre tracks,
  Forall readable_line pre ->
  split l = word :: words ->
  int word = None ->
  track_lines w album artist (pre ++ l :: post) tracks = Raise ValueError.
Proof.
  induction pre as [|l0 pre IH]; intros tracks Hpre Hsplit Hint; simpl.
  - now rewrite Hsplit, Hint.
  - apply Forall_cons in Hpre as [Hl0 Hpre]. unfold readable_line, line_number in Hl0.
    destruct (split l0) as [|w0 ws]; [now apply IH|].
    destruct Hl0 as [Hl0|[k Hl0]]; [done|]. rewrite Hl0.
    destruct (access w _); now apply IH.
Qed.

(** X13: one line of the file 'titels' whose first word is not a
    number makes make-mp3.py end with a [ValueError] before any track
    is converted, also when every other line is in order: [int()]
    raises in [trackdata], which [main] calls before it starts the
    first process. *)
Theorem malformed_track_line_aborts fuel w argv a b pre l word words post :
  probe w ["lame"; "--help"] = Status 0 ->
  titels w = Some (a :: b :: pre ++ l :: post) ->
  Forall readable_line pre ->
  split l = word :: words ->
  int word = None ->
  run fuel w argv = (Raise ValueError, St [Probe ["lame"; "--help"]] 0).
Proof.
  intros Hp Ht Hpre Hsplit Hint.
  assert (Htd : trackdata w = Raise ValueError).
  { unfold trackdata. rewrite Ht. simpl.
    now apply (track_lines_bad w _ _ l word words post). }
  unfold run, main. rewrite bind_run. unfold checkfor.
  rewrite bind_run, emit_run, Hp. cbn [out started app Z.eqb].
  unfold mret, M_ret, ret. rewrite bind_run. unfold lift. now rewrite Htd.
Qed.

(** Three processes that have ended, and a listing with a bad line. *)
Definition three_ended : list proc :=
  [("track01.mp3", {| pid := 0; state := Exits 0 0 |});
   ("track02.mp3", {| pid := 1; state := Exits 0 1 |});
   ("track03.mp3", {| pid := 2; state := Exits 0 0 |})].

Definition misnumbered_world : world := {|
  probe := fun _ => Status 0;
  titels := Some [demo_line "Demo"; demo_line "Artist";
                  demo_line "01 First song"; demo_line "two Second";
                  demo_line "03 Third"];
  access := fun _ => true;
  cpu_count := 2;
  lame := fun n => Exits 0 0;
  starts := fun _ => true
|}.

Lemma one_pass_reaps_every_other_process_witness :
  exists evs,
    manageprocs 4 three_ended (St [] 3)
      = (Ret [("track02.mp3", {| pid := 1; state := Exits 0 1 |})],
         St ([] ++ evs ++ [Sleep]) 3) /\
    reported evs = [0; 2].
Proof.
  apply (one_pass_reaps_every_other_process 4 three_ended [] 3).
  - apply (bool_decide_unpack _). vm_compute. exact I.
  - reflexivity.
  - simpl. lia.
Defined.

Lemma malformed_track_line_aborts_witness :
  run 30 misnumbered_world ["make-mp3"]
    = (Raise ValueError, St [Probe ["lame"; "--help"]] 0).
Proof.
  apply (malformed_track_line_aborts 30 misnumbered_world ["make-mp3"]
           (demo_line "Demo") (demo_line "Artist")
           [demo_line "01 First song"] (demo_line "two Second")
           "two" ["Second"] [demo_line "03 Third"]).
  - reflexivity.
  - reflexivity.
  - constructor; [|constructor]. right. exists 1%Z. vm_compute. reflexivity.
  - vm_compute. reflexivity.
  - vm_compute. reflexivity.
Defined.

End Mp3Passes.
